(** * meshtastic_monkey: dispatch and acknowledgment-tracking engine

    A shallow embedding of [meshtastic_monkey_0.8fl.py]: the pending
    acknowledgment registry ([pending_acks]), the bounded send queue
    ([send_queue]), the node-name cache ([name_cache]) and the packet
    handler ([on_receive]), with the properties of the design document
    stated over them.

    Conventions.
    - A Python [str] is the list of its code points ([pystr]).
    - A Python [dict] whose iteration order matters is an association
      list in insertion order ([dict]); the name cache and the node
      directory, which are only looked up, are finite maps.
    - [time.time()] readings are exact numbers (integers); the rounding
      of floating-point subtraction is not modelled.
    - [print] appends a line to an explicit output log. *)

From Stdlib Require Import ZArith Lia String Ascii.
From stdpp Require Import base list gmap sorting.

Open Scope Z_scope.

(** ** Python strings *)

Abbreviation pystr := (list Z).

(** An ASCII literal as a [pystr]. *)
Definition str_lit (s : string) : pystr :=
  map (λ a, Z.of_N (N_of_ascii a)) (list_ascii_of_string s).

(** [sep.join(parts)] *)
Fixpoint join (sep : pystr) (parts : list pystr) : pystr :=
  match parts with
  | [] => []
  | [p] => p
  | p :: rest => p ++ sep ++ join sep rest
  end.

(** *** Integer formatting *)

Definition digit_char (d : Z) : Z := if d <? 10 then 48 + d else 87 + d.

(** Digits of a non-negative [n] in base [b], most significant first;
    [fuel] bounds the number of digits produced. *)
Fixpoint to_base (b : Z) (fuel : nat) (n : Z) : pystr :=
  match fuel with
  | O => []
  | S f =>
      if n <? b then [digit_char n]
      else to_base b f (n / b) ++ [digit_char (n mod b)]
  end.

Definition digits (b : Z) (n : Z) : pystr :=
  to_base b (S (Z.to_nat (Z.log2 n))) n.

(** [format(n, "08x")]: lower-case hexadecimal, zero-padded after the
    sign to a total width of eight. *)
Definition format_08x (n : Z) : pystr :=
  let sign := if n <? 0 then str_lit "-" else [] in
  let ds := digits 16 (Z.abs n) in
  sign ++ replicate (8 - length sign - length ds) 48 ++ ds.

(** [str(n)] for an [int]. *)
Definition str_int (n : Z) : pystr :=
  (if n <? 0 then str_lit "-" else []) ++ digits 10 (Z.abs n).

(** *** Truth values *)

(** [bool(x)] for an [int] that may be [None]. *)
Definition int_truthy (x : option Z) : bool :=
  match x with Some n => negb (n =? 0) | None => false end.

(** [bool(s)] for a [str] that may be [None]. *)
Definition str_truthy (s : option pystr) : bool :=
  match s with Some (_ :: _) => true | _ => false end.

(** ** Constants *)

Definition C_BLUE : pystr := 27 :: str_lit "[94m".
Definition C_GREEN : pystr := 27 :: str_lit "[32m".
Definition C_RED : pystr := 27 :: str_lit "[91m".
Definition C_RESET : pystr := 27 :: str_lit "[0m".

Definition ACK_TIMEOUT : Z := 30.
Definition MAX_PENDING_ACKS : nat := 100.
Definition SEND_QUEUE_MAXSIZE : nat := 30.
Definition BROADCAST : Z := 0xFFFFFFFF.

(** ** Insertion-ordered dictionaries *)

Abbreviation dict V := (list (Z * V)).

Section PyDict.
Context {V : Type}.

(** [k in d], [d.get(k)] *)
Fixpoint dict_get (k : Z) (d : dict V) : option V :=
  match d with
  | [] => None
  | (k', v) :: d' => if decide (k' = k) then Some v else dict_get k d'
  end.

(** the dictionary left by [d.pop(k, None)] *)
Fixpoint dict_del (k : Z) (d : dict V) : dict V :=
  match d with
  | [] => []
  | (k', v) :: d' => if decide (k' = k) then d' else (k', v) :: dict_del k d'
  end.

(** [d.pop(k, None)]: the value removed, if any, and what is left. *)
Definition dict_pop (k : Z) (d : dict V) : option V * dict V :=
  (dict_get k d, dict_del k d).

(** [d[k] = v]: an existing key keeps its place, a new one goes last. *)
Fixpoint dict_set (k : Z) (v : V) (d : dict V) : dict V :=
  match d with
  | [] => [(k, v)]
  | (k', v') :: d' =>
      if decide (k' = k) then (k, v) :: d' else (k', v') :: dict_set k v d'
  end.

(** [next(iter(d))]; [None] stands for [StopIteration]. *)
Definition dict_first (d : dict V) : option Z :=
  match d with
  | [] => None
  | (k, _) :: _ => Some k
  end.

Definition dict_keys (d : dict V) : list Z := d.*1.

(** A dictionary holds each key once. *)
Definition dict_wf (d : dict V) : Prop := NoDup (dict_keys d).
End PyDict.

(** ** The acknowledgment registry ([pending_acks]) *)

(** The value stored per request: [(time.time(), dest_id)]. *)
Abbreviation pending_ack := (Z * option Z)%type.

Abbreviation registry := (dict pending_ack).

Definition warn_overflow (ts : pystr) : pystr :=
  C_BLUE ++ str_lit "[" ++ ts ++ str_lit "] WARN pending_acks overflow, dropping oldest" ++ C_RESET.

Definition tx_error : pystr := str_lit "TX error: ".

(** [sender_thread], the critical section that records a sent packet:
    at capacity the first key of the dictionary is dropped, a warning
    is printed, and then the entry is stored.  [next(iter(...))] on an
    empty dictionary would raise into the [except Exception] of the send
    and skip the store. *)
Definition register (ts : pystr) (now : Z) (pkt_id : Z) (dest_id : option Z)
    (pending_acks : registry) : registry * list pystr :=
  if decide (MAX_PENDING_ACKS ≤ length pending_acks)%nat then
    match dict_first pending_acks with
    | Some oldest =>
        (dict_set pkt_id (now, dest_id) (dict_pop oldest pending_acks).2,
         [warn_overflow ts])
    | None => (pending_acks, [tx_error])
    end
  else (dict_set pkt_id (now, dest_id) pending_acks, []).

(** [on_receive], the critical section of the routing branch:
    [entry = pending_acks.pop(req_id, None)]. *)
Definition complete (req_id : Z) (pending_acks : registry)
    : option pending_ack * registry :=
  dict_pop req_id pending_acks.

(** [ack_watcher], the loop over [list(pending_acks.items())] run under
    the lock: each snapshot item older than the timeout is appended to
    [expired] and popped. *)
Fixpoint sweep_loop (now timeout : Z) (items : list (Z * pending_ack))
    (expired : list (Z * option Z)) (pending_acks : registry)
    : list (Z * option Z) * registry :=
  match items with
  | [] => (expired, pending_acks)
  | (rid, (t0, dest)) :: rest =>
      if decide (now - t0 > timeout) then
        sweep_loop now timeout rest (expired ++ [(rid, dest)])
                   (dict_pop rid pending_acks).2
      else sweep_loop now timeout rest expired pending_acks
  end.

Definition sweepExpired (now timeout : Z) (pending_acks : registry)
    : list (Z * option Z) * registry :=
  sweep_loop now timeout pending_acks [] pending_acks.

(** [ack_watcher], the report printed for one expired entry. *)
Definition no_ack_dst (dest : option Z) : pystr :=
  if int_truthy dest then str_lit "@!" ++ format_08x (default 0 dest)
  else str_lit "@broadcast".

Definition no_ack_line (ts : pystr) (e : Z * option Z) : pystr :=
  C_BLUE ++ str_lit "[" ++ ts ++ str_lit "] NO ACK from " ++ no_ack_dst e.2
         ++ str_lit ", id=" ++ str_int e.1 ++ C_RESET.

(** One round of [ack_watcher] after its sleep. *)
Definition ack_watcher (ts : pystr) (now : Z) (pending_acks : registry)
    : registry * list pystr :=
  let '(expired, pending_acks') := sweepExpired now ACK_TIMEOUT pending_acks in
  (pending_acks', map (no_ack_line ts) expired).

(** ** Python values and the interpreter's character tables *)

(** The raw values a packet field or a node identifier can hold.  A
    [bool] is an [int] (0 or 1) and is not told apart. *)
Inductive pyval :=
| PyNone
| PyInt (n : Z)
| PyStr (s : pystr)
| PyOther (truthy : bool).  (* a float, bytes, a list, ... *)

#[global] Instance pyval_eq_dec : EqDecision pyval.
Proof. solve_decision. Defined.

(** [bool(v)] *)
Definition truthy (v : pyval) : bool :=
  match v with
  | PyNone => false
  | PyInt n => negb (n =? 0)
  | PyStr s => match s with [] => false | _ => true end
  | PyOther b => b
  end.

(** [a or b] *)
Definition py_or (a b : pyval) : pyval := if truthy a then a else b.

(** What the interpreter knows about code points outside ASCII: it is
    not part of this program and is taken as given. *)
Class Unicode := {
  uc_isspace : Z → bool;        (* [str.isspace] *)
  uc_decimal : Z → option Z;    (* [unicodedata.decimal] *)
  uc_isalnum : Z → bool;        (* [str.isalnum] *)
  uc_ieq : Z → Z → bool;        (* a pattern and a text character that
                                   [re.IGNORECASE] lets match *)
}.

(** The tables of an interpreter that knows ASCII only; used to run
    the definitions on examples. *)
Definition ascii_only : Unicode :=
  {| uc_isspace := λ _, false;
     uc_decimal := λ _, None;
     uc_isalnum := λ _, false;
     uc_ieq := Z.eqb |}.

Definition between (lo hi c : Z) : bool := (lo <=? c) && (c <=? hi).

(** C [isspace]: what [int()] skips in an ASCII string. *)
Definition c_isspace (c : Z) : bool := between 9 13 c || (c =? 32).

Definition ascii_lower (c : Z) : Z := if between 65 90 c then c + 32 else c.

Section Strings.
Context `{Unicode}.

(** [c.isspace()] *)
Definition isspace (c : Z) : bool :=
  if c <? 128 then c_isspace c || between 28 31 c else uc_isspace c.

(** [\w] of a [str] pattern. *)
Definition is_word (c : Z) : bool :=
  if c <? 128 then between 48 57 c || between 65 90 c || between 97 122 c || (c =? 95)
  else uc_isalnum c.

(** A literal pattern character [p] against a text character [c]
    under [re.IGNORECASE]. *)
Definition char_ieq (p c : Z) : bool :=
  if (p <? 128) && (c <? 128) then ascii_lower p =? ascii_lower c
  else uc_ieq p c.

(** [s.startswith(prefix)] *)
Fixpoint startswith (prefix s : pystr) : bool :=
  match prefix, s with
  | [], _ => true
  | p :: prefix', c :: s' => (p =? c) && startswith prefix' s'
  | _ :: _, [] => false
  end.

Fixpoint lstrip (s : pystr) : pystr :=
  match s with
  | c :: s' => if isspace c then lstrip s' else s
  | [] => []
  end.

(** [s.strip()] *)
Definition strip (s : pystr) : pystr := reverse (lstrip (reverse (lstrip s))).

Fixpoint split_go (cur s : pystr) : list pystr :=
  match s with
  | [] => match cur with [] => [] | _ => [cur] end
  | c :: s' =>
      if isspace c then
        match cur with [] => split_go [] s' | _ => cur :: split_go [] s' end
      else split_go (cur ++ [c]) s'
  end.

(** [s.split()] *)
Definition split (s : pystr) : list pystr := split_go [] s.

(** *** [int(s, 16)] *)

(** The copy [int()] parses: ASCII is kept, other white space becomes
    a blank, other decimal digits become ASCII digits and anything else
    a question mark. *)
Definition to_ascii (c : Z) : Z :=
  if c <? 128 then c
  else if isspace c then 32
  else match uc_decimal c with
       | Some d => if between 0 9 d then 48 + d else 63
       | None => 63
       end.

Definition digit_value (c : Z) : option Z :=
  if between 48 57 c then Some (c - 48)
  else if between 97 122 c then Some (c - 87)
  else if between 65 90 c then Some (c - 55)
  else None.

Definition digit16 (c : Z) : option Z :=
  match digit_value c with
  | Some d => if d <? 16 then Some d else None
  | None => None
  end.

(** The digit scan: digits with single underscores between them.
    Yields the value, the number of digits and the unread rest;
    [None] is a syntax error. *)
Fixpoint scan_digits (s : pystr) (prev_underscore : bool) (acc : Z) (n : nat)
    : option (Z * nat * pystr) :=
  match s with
  | [] => if prev_underscore then None else Some (acc, n, [])
  | c :: s' =>
      if c =? 95 then
        if prev_underscore then None else scan_digits s' true acc n
      else
        match digit16 c with
        | Some d => scan_digits s' false (acc * 16 + d) (S n)
        | None => if prev_underscore then None else Some (acc, n, s)
        end
  end.

Fixpoint skip_c_space (s : pystr) : pystr :=
  match s with
  | c :: s' => if c_isspace c then skip_c_space s' else s
  | [] => []
  end.

(** [int(s, 16)]; [None] stands for [ValueError].  Blanks around, a
    sign, a [0x] prefix (with one underscore after it) and single
    underscores between digits are accepted. *)
Definition int16 (s : pystr) : option Z :=
  let s1 := skip_c_space (map to_ascii s) in
  let '(negative, s2) :=
    match s1 with
    | 43 :: r => (false, r)
    | 45 :: r => (true, r)
    | _ => (false, s1)
    end in
  let s3 :=
    match s2 with
    | 48 :: x :: r =>
        if (x =? 120) || (x =? 88) then
          match r with 95 :: r' => r' | _ => r end
        else s2
    | _ => s2
    end in
  match s3 with
  | 95 :: _ => None
  | _ =>
      match scan_digits s3 false 0 0 with
      | Some (v, S _, rest) =>
          match skip_c_space rest with
          | [] => Some (if negative then - v else v)
          | _ :: _ => None
          end
      | _ => None
      end
  end.

(** ** Node identifiers *)

Definition normalize_node_id (raw_id : pyval) : option Z :=
  match raw_id with
  | PyStr s => if startswith (str_lit "!") s then int16 (drop 1 s) else None
  | PyInt n => Some n
  | _ => None
  end.
End Strings.


(** ** The node directory and the name cache *)

(** A key of [interface.nodes]: an [int] or a [str]. *)
Abbreviation nodes_key := (Z + pystr)%type.

Record user_rec := { shortName : option pystr }.
Record node := { user : option user_rec }.

Record interface := {
  nodes : gmap nodes_key node;
  my_node_num : option Z;   (* [None]: [myInfo] has no such attribute *)
}.

(** [node.get("user", {}).get("shortName")] of a looked-up node, where a
    missing node stands for [{}]. *)
Definition short_name_of (n : option node) : option pystr :=
  match n with
  | Some n => match user n with Some u => shortName u | None => None end
  | None => None
  end.

(** What one call of [get_name_and_id] yields: the returned pair, the
    cache it leaves and the keys it asked the directory for. *)
Record resolved := {
  res_name : pystr;
  res_display : pystr;
  res_cache : gmap Z pystr;
  res_lookups : list nodes_key;
}.

Definition hex_key_of (node_id : Z) : pystr := str_lit "!" ++ format_08x node_id.

Definition get_name_and_id (iface : interface) (name_cache : gmap Z pystr)
    (node_id : pyval) : resolved :=
  match node_id with
  | PyInt node_id =>
      let '(name_cache', display, lookups) :=
        match name_cache !! node_id with
        | None =>
            let short := short_name_of (nodes iface !! inl node_id) in
            if str_truthy short then
              let short := default [] short in
              (<[node_id := short]> name_cache,
               short ++ str_lit " (@!" ++ format_08x node_id ++ str_lit ")",
               [inl node_id])
            else
              let hex_key := hex_key_of node_id in
              let short := short_name_of (nodes iface !! inr hex_key) in
              if str_truthy short then
                let short := default [] short in
                (<[node_id := short]> name_cache,
                 short ++ str_lit " (@" ++ hex_key ++ str_lit ")",
                 [inl node_id; inr hex_key])
              else
                (<[node_id := hex_key]> name_cache,
                 hex_key ++ str_lit " (@!" ++ format_08x node_id ++ str_lit ")",
                 [inl node_id; inr hex_key])
        | Some name =>
            (name_cache,
             name ++ str_lit " (@!" ++ format_08x node_id ++ str_lit ")",
             [])
        end in
      {| res_name := default (str_lit "unknown") (name_cache' !! node_id);
         res_display := display;
         res_cache := name_cache';
         res_lookups := lookups |}
  | _ =>
      {| res_name := str_lit "unknown";
         res_display := str_lit "@unknown";
         res_cache := name_cache;
         res_lookups := [] |}
  end.

(** [on_node_updated]: [nid] is [node.get("num")]. *)
Definition on_node_updated (nid : option Z) (name_cache : gmap Z pystr)
    : gmap Z pystr :=
  match nid with
  | Some nid => delete nid name_cache
  | None => name_cache
  end.

(** ** The send queue *)

(** A queued task: [(text, dest_id, want_ack)]. *)
Abbreviation task := (pystr * option Z * bool)%type.

(** [send_queue.put_nowait(t)]: [None] stands for [queue.Full]. *)
Definition put_nowait (send_queue : list task) (t : task) : option (list task) :=
  if decide (SEND_QUEUE_MAXSIZE ≤ length send_queue)%nat then None
  else Some (send_queue ++ [t]).

(** ** The clock *)

Record datetime := { month : Z; day : Z; hour : Z; minute : Z }.

(** [%m], [%d], [%H], [%M]: two decimal digits. *)
Definition two_digits (n : Z) : pystr := [48 + (n / 10) mod 10; 48 + n mod 10].

(** [ts()]: [datetime.now().strftime("%m-%d %H:%M")] *)
Definition ts (now : datetime) : pystr :=
  two_digits (month now) ++ str_lit "-" ++ two_digits (day now) ++ str_lit " "
    ++ two_digits (hour now) ++ str_lit ":" ++ two_digits (minute now).

(** One reading of the clocks: [time.time()] and [datetime.now()]. *)
Record clock := { time : Z; now : datetime }.

(** ** The shared state *)

Record state := {
  pending_acks : registry;
  name_cache : gmap Z pystr;
  send_queue : list task;
  stdout : list pystr;
}.

Definition print (line : pystr) (st : state) : state :=
  {| pending_acks := pending_acks st; name_cache := name_cache st;
     send_queue := send_queue st; stdout := stdout st ++ [line] |}.

Definition set_pending_acks (r : registry) (st : state) : state :=
  {| pending_acks := r; name_cache := name_cache st;
     send_queue := send_queue st; stdout := stdout st |}.

Definition set_name_cache (c : gmap Z pystr) (st : state) : state :=
  {| pending_acks := pending_acks st; name_cache := c;
     send_queue := send_queue st; stdout := stdout st |}.

Definition set_send_queue (q : list task) (st : state) : state :=
  {| pending_acks := pending_acks st; name_cache := name_cache st;
     send_queue := q; stdout := stdout st |}.

(** [input_loop], the submission of a line:
    [send_queue.put_nowait((text, dest_id, True))] with its handler. *)
Definition queue_full_message (clk : clock) : pystr :=
  C_BLUE ++ str_lit "[" ++ ts (now clk) ++ str_lit "] Send queue full, dropping message" ++ C_RESET.

Definition input_loop_submit (clk : clock) (text : pystr) (dest_id : option Z)
    (st : state) : state :=
  match put_nowait (send_queue st) (text, dest_id, true) with
  | Some q => set_send_queue q st
  | None => print (queue_full_message clk) st
  end.

(** What [interface.sendText] did: it raised, or it returned a packet
    with or without an [id]. *)
Inductive send_result :=
| SendRaised (message : pystr)
| SendReturned (pkt_id : option Z).

(** [sender_thread], one task after the transport call: the packet is
    recorded when an acknowledgment was asked for and the packet has an
    identifier; a failed send is reported. *)
Definition sender_thread_task (clk : clock) (t : task) (result : send_result)
    (st : state) : state :=
  let '(_, dest_id, want_ack) := t in
  match result with
  | SendReturned (Some pkt_id) =>
      if want_ack then
        let '(pending_acks', out) :=
          register (ts (now clk)) (time clk) pkt_id dest_id (pending_acks st) in
        foldl (λ st line, print line st) (set_pending_acks pending_acks' st) out
      else st
  | SendReturned None => st
  | SendRaised message => print (str_lit "TX error: " ++ message) st
  end.

(** ** Incoming packets *)

(** The fields of a received packet that [on_receive] reads.  The
    payload is held as [bytes.decode(errors="ignore")] gives it (empty
    when the key is missing); a signal reading is held as the text
    [str()] gives for it. *)
Record packet := {
  pk_portnum : pyval;
  pk_requestId : option Z;
  pk_payload : pystr;
  pk_fromId : pyval;
  pk_from : pyval;
  pk_to : pyval;
  pk_rxRssi : option pystr;
  pk_rxSnr : option pystr;
  pk_hopStart : option Z;
  pk_hopLimit : option Z;
}.

Definition markers : list pystr :=
  [str_lit "testa"; str_lit "test"; [0x442; 0x435; 0x441; 0x442]; str_lit "ping"].

Section Receive.
Context `{Unicode}.

(** *** [re.search(pattern, text, re.IGNORECASE)] for the marker pattern *)

(** A literal at the head of the text: the last character it covers
    and the text after it. *)
Fixpoint match_literal (lit text : pystr) (last : option Z) : option (option Z * pystr) :=
  match lit with
  | [] => Some (last, text)
  | p :: lit' =>
      match text with
      | c :: text' => if char_ieq p c then match_literal lit' text' (Some c) else None
      | [] => None
      end
  end.

(** [\b] between the character [prev] and the head of [text]. *)
Definition at_boundary (prev : option Z) (text : pystr) : bool :=
  xorb (from_option is_word false prev) (from_option is_word false (head text)).

(** The pattern [\b(?:testa|test|тест|ping)\b] at one position. *)
Definition match_here (prev : option Z) (text : pystr) : bool :=
  at_boundary prev text
  && existsb (λ m, match match_literal m text prev with
                   | Some (last, rest) => at_boundary last rest
                   | None => false
                   end) markers.

Fixpoint search_from (prev : option Z) (text : pystr) : bool :=
  match_here prev text
  || match text with
     | c :: text' => search_from (Some c) text'
     | [] => false
     end.

Definition re_search_markers (text : pystr) : bool := search_from None text.

(** *** [on_receive] *)

(** The signal parameters sent back and printed. *)
Definition signal_params (packet : packet) : list pystr :=
  (match pk_rxRssi packet with Some rssi => [str_lit "RSSI=" ++ rssi] | None => [] end)
  ++ (match pk_rxSnr packet with Some snr => [str_lit "SNR=" ++ snr] | None => [] end).

Definition hop_params (packet : packet) : list pystr :=
  if int_truthy (pk_hopStart packet) && int_truthy (pk_hopLimit packet) then
    [str_lit "hops="
       ++ str_int (default 0 (pk_hopStart packet) - default 0 (pk_hopLimit packet))]
  else [].

Definition rx_error : pystr := str_lit "RX error: list index out of range".

Definition auto_reply_full_message (clk : clock) : pystr :=
  C_BLUE ++ str_lit "[" ++ ts (now clk) ++ str_lit "] Send queue full, dropping auto reply" ++ C_RESET.

(** [get_name_and_id(interface, from_id) if from_id else fallback],
    with the cache the call leaves. *)
Definition resolve_or (iface : interface) (fallback : pystr * pystr)
    (from_id : option Z) (st : state) : pystr * pystr * state :=
  if int_truthy from_id then
    let r := get_name_and_id iface (name_cache st) (PyInt (default 0 from_id)) in
    (res_name r, res_display r, set_name_cache (res_cache r) st)
  else (fallback.1, fallback.2, st).

(** The routing branch. *)
Definition on_receive_routing (iface : interface) (clk : clock) (packet : packet)
    (st : state) : state :=
  match pk_requestId packet with
  | None => st
  | Some req_id =>
      let '(entry, pending_acks') := complete req_id (pending_acks st) in
      let st := set_pending_acks pending_acks' st in
      match entry with
      | Some (sent_at, _) =>
          let rtt := time clk - sent_at in
          let from_id := normalize_node_id (py_or (pk_fromId packet) (pk_from packet)) in
          let '(_, display, st) := resolve_or iface (str_lit "?", str_lit "unknown") from_id st in
          let params :=
            [str_lit "RTT=" ++ str_int rtt ++ str_lit ".0s"] ++ signal_params packet in
          print (C_BLUE ++ str_lit "[" ++ ts (now clk) ++ str_lit "] ACK from " ++ display
                   ++ str_lit ", " ++ join (str_lit ", ") params ++ C_RESET) st
      | None => st
      end
  end.

Definition display_id_of (from_id : option Z) : pystr :=
  if int_truthy from_id then str_lit "@!" ++ format_08x (default 0 from_id)
  else str_lit "@??".

(** [to_id not in (None, 0xFFFFFFFF) and to_id == my_id] *)
Definition is_private_to (to_id my_id : option Z) : bool :=
  match to_id with
  | Some t => negb (t =? BROADCAST) && bool_decide (to_id = my_id)
  | None => false
  end.

Definition auto_reply_text (ts_str name display_id : pystr) (params : list pystr) : pystr :=
  [0x2705] ++ str_lit " AR-ACK [" ++ ts_str ++ str_lit "] " ++ name ++ str_lit " ("
    ++ display_id ++ str_lit ", " ++ [0x1F4F6] ++ join (str_lit ", ") params ++ str_lit ")".

(** The text-message branch. *)
Definition on_receive_text (iface : interface) (clk : clock) (packet : packet)
    (st : state) : state :=
  let text := strip (pk_payload packet) in
  let from_id := normalize_node_id (py_or (pk_fromId packet) (pk_from packet)) in
  let '(name, _, st) := resolve_or iface (str_lit "unknown", []) from_id st in
  let display_id := display_id_of from_id in
  let my_id := my_node_num iface in
  let to_id := normalize_node_id (pk_to packet) in
  let is_private := is_private_to to_id my_id in
  let params := signal_params packet ++ hop_params packet in
  let meta :=
    match params with
    | [] => str_lit "(" ++ display_id ++ str_lit ")"
    | _ => str_lit "(" ++ display_id ++ str_lit ", " ++ join (str_lit ", ") params ++ str_lit ")"
    end in
  let st :=
    if is_private then
      print (C_RED ++ str_lit "[" ++ ts (now clk) ++ str_lit "] PM " ++ name ++ str_lit ": "
               ++ text ++ C_RESET) st
    else
      print (C_GREEN ++ str_lit "[" ++ ts (now clk) ++ str_lit "] PUB " ++ name ++ str_lit ": "
               ++ text ++ C_RESET) st in
  let st := print (C_BLUE ++ meta ++ C_RESET) st in
  if re_search_markers text then
    let ts_full := ts (now clk) in
    match split ts_full !! 1%nat with
    | Some ts_str =>
        let reply_text := auto_reply_text ts_str name display_id params in
        let dest_id := if is_private then from_id else None in
        match put_nowait (send_queue st) (reply_text, dest_id, false) with
        | Some q => set_send_queue q st
        | None => print (auto_reply_full_message clk) st
        end
    | None => print rx_error st   (* IndexError, caught by the handler *)
    end
  else st.

Definition on_receive (iface : interface) (clk : clock) (packet : packet)
    (st : state) : state :=
  if decide (pk_portnum packet = PyStr (str_lit "ROUTING_APP")) then
    on_receive_routing iface clk packet st
  else if decide (pk_portnum packet = PyStr (str_lit "TEXT_MESSAGE_APP")) then
    on_receive_text iface clk packet st
  else st.
End Receive.


(** ** Concurrent calls on the registry

    [on_receive] and [ack_watcher] run on different threads and touch
    [pending_acks] only inside [with pending_lock].  A thread is modelled
    by its program point; a step of the system is a step of one thread,
    and entering a [with] block is possible only while the lock is
    free. *)

Inductive thread :=
| CompleteCall (req_id : Z)       (* about to enter [with pending_lock] *)
| CompleteLocked (req_id : Z)     (* inside, before the pop *)
| CompletePopped (req_id : Z) (entry : option pending_ack)   (* inside, after it *)
| CompleteDone (req_id : Z) (entry : option pending_ack)     (* left the block *)
| SweepCall (now : Z)             (* about to enter [with pending_lock] *)
| SweepLocked (now : Z)           (* inside, before the snapshot *)
| SweepLoop (now : Z) (items : list (Z * pending_ack)) (expired : list (Z * option Z))
| SweepDone (expired : list (Z * option Z)).   (* left the block *)

Record world := {
  w_lock : bool;              (* [pending_lock.locked()] *)
  w_acks : registry;
  w_threads : list thread;
}.

(** One step of a thread, if it can take one. *)
Definition thread_step (lock : bool) (acks : registry) (t : thread)
    : option (bool * registry * thread) :=
  match t with
  | CompleteCall k =>
      if lock then None else Some (true, acks, CompleteLocked k)
  | CompleteLocked k =>
      let '(entry, acks') := complete k acks in
      Some (lock, acks', CompletePopped k entry)
  | CompletePopped k entry => Some (false, acks, CompleteDone k entry)
  | CompleteDone _ _ => None
  | SweepCall now =>
      if lock then None else Some (true, acks, SweepLocked now)
  | SweepLocked now => Some (lock, acks, SweepLoop now acks [])
  | SweepLoop now ((rid, (t0, dest)) :: rest) expired =>
      if decide (now - t0 > ACK_TIMEOUT) then
        Some (lock, (dict_pop rid acks).2, SweepLoop now rest (expired ++ [(rid, dest)]))
      else Some (lock, acks, SweepLoop now rest expired)
  | SweepLoop now [] expired => Some (false, acks, SweepDone expired)
  | SweepDone _ => None
  end.

(** The system lets thread [i] take a step. *)
Definition sched_step (i : nat) (w : world) : option world :=
  match w_threads w !! i with
  | Some t =>
      match thread_step (w_lock w) (w_acks w) t with
      | Some (lock', acks', t') =>
          Some {| w_lock := lock'; w_acks := acks';
                  w_threads := <[i := t']> (w_threads w) |}
      | None => None
      end
  | None => None
  end.

Inductive step : world → world → Prop :=
| step_at i w w' : sched_step i w = Some w' → step w w'.

(** Running a schedule: a thread that cannot step is passed over. *)
Definition run (schedule : list nat) (w : world) : world :=
  foldl (λ w i, default w (sched_step i w)) w schedule.

Definition is_call (t : thread) : bool :=
  match t with CompleteCall _ | SweepCall _ => true | _ => false end.

(** The request a [complete] call has matched. *)
Definition matched_ids (t : thread) : list Z :=
  match t with
  | CompletePopped k (Some _) | CompleteDone k (Some _) => [k]
  | _ => []
  end.

(** The requests a sweep has put on its expired list. *)
Definition expired_ids (t : thread) : list Z :=
  match t with
  | SweepLoop _ _ expired | SweepDone expired => expired.*1
  | _ => []
  end.

Definition removed_ids (t : thread) : list Z := matched_ids t ++ expired_ids t.

(** The thread is inside its [with pending_lock] block. *)
Definition holds_lock (t : thread) : bool :=
  match t with
  | CompleteLocked _ | CompletePopped _ _ | SweepLocked _ | SweepLoop _ _ _ => true
  | _ => false
  end.

(** ** Runs of registry operations *)

(** The three operations on the registry, each one critical section. *)
Inductive reg_op :=
| OpRegister (ts : pystr) (now : Z) (pkt_id : Z) (dest_id : option Z)
| OpComplete (req_id : Z)
| OpSweep (now : Z).

Definition apply_op (r : registry) (op : reg_op) : registry :=
  match op with
  | OpRegister ts now pkt_id dest_id => (register ts now pkt_id dest_id r).1
  | OpComplete req_id => (complete req_id r).2
  | OpSweep now => (sweepExpired now ACK_TIMEOUT r).2
  end.

Definition apply_ops (ops : list reg_op) (r : registry) : registry :=
  foldl apply_op r ops.

(** The registration of one entry [(pkt_id, (now, dest_id))]. *)
Definition register_op (e : Z * pending_ack) : reg_op :=
  OpRegister [] e.2.1 e.1 e.2.2.

(** An entry is older than the timeout. *)
Definition entry_expired (now timeout : Z) (e : Z * pending_ack) : Prop :=
  now - e.2.1 > timeout.

#[global] Instance entry_expired_dec now timeout e :
  Decision (entry_expired now timeout e).
Proof. unfold entry_expired. apply _. Defined.

(** One of [0123456789abcdef]. *)
Definition lower_hex_char (c : Z) : bool := between 48 57 c || between 97 102 c.

(** A registry filled to capacity, used to run the eviction. *)
Definition full_registry : registry :=
  (λ i : nat, (Z.of_nat i, (0, None))) <$> seq 0 MAX_PENDING_ACKS.

(** The label the directory gives for a node that is not cached. *)
Definition directory_label (iface : interface) (node_id : Z) : pystr :=
  let by_int := short_name_of (nodes iface !! inl node_id) in
  let by_hex := short_name_of (nodes iface !! inr (hex_key_of node_id)) in
  if str_truthy by_int then default [] by_int
  else if str_truthy by_hex then default [] by_hex
  else hex_key_of node_id.

Definition display_of (label : pystr) (node_id : Z) : pystr :=
  label ++ str_lit " (@!" ++ format_08x node_id ++ str_lit ")".

(** ** Runs of name-cache operations *)

Inductive cache_op :=
| CacheResolve (iface : interface) (node_id : pyval)   (* [get_name_and_id] *)
| CacheInvalidate (nid : option Z).                     (* [on_node_updated] *)

Definition apply_cache_op (name_cache : gmap Z pystr) (op : cache_op)
    : gmap Z pystr :=
  match op with
  | CacheResolve iface node_id => res_cache (get_name_and_id iface name_cache node_id)
  | CacheInvalidate nid => on_node_updated nid name_cache
  end.

(** ** The textual identifier of the design document *)

Definition hex_char (c : Z) : bool :=
  between 48 57 c || between 97 102 c || between 65 70 c.

(** "!" followed by hexadecimal digits. *)
Definition bang_hex (s : pystr) : bool :=
  match s with
  | 33 :: h => match h with [] => false | _ => forallb hex_char h end
  | _ => false
  end.

(** The number a string of hexadecimal digits denotes. *)
Definition hex_value (h : pystr) : Z :=
  foldl (λ acc c, acc * 16 + (if between 48 57 c then c - 48
                              else if between 97 102 c then c - 87 else c - 55)) 0 h.

(** ** The automatic reply *)

Section AutoReply.
Context `{Unicode}.

(** The sender identifier [on_receive] works with. *)
Definition sender_of (packet : packet) : option Z :=
  normalize_node_id (py_or (pk_fromId packet) (pk_from packet)).

(** The classification of a text message as private. *)
Definition private_message (iface : interface) (packet : packet) : bool :=
  is_private_to (normalize_node_id (pk_to packet)) (my_node_num iface).

(** The task [on_receive] offers to the queue for a marker message. *)
Definition auto_reply_task (iface : interface) (clk : clock) (packet : packet)
    (st : state) : task :=
  let from_id := sender_of packet in
  let name := (resolve_or iface (str_lit "unknown", []) from_id st).1.1 in
  (auto_reply_text
     (two_digits (hour (now clk)) ++ str_lit ":" ++ two_digits (minute (now clk)))
     name (display_id_of from_id) (signal_params packet ++ hop_params packet),
   if private_message iface packet then from_id else None,
   false).
End AutoReply.

(** ** Sample data, used to run the definitions *)

Definition sample_interface : interface :=
  {| nodes := {[ inl 0xAABBCC01 :=
                   {| user := Some {| shortName := Some (str_lit "RVR") |} |} ]};
     my_node_num := Some 5 |}.

Definition sample_clock : clock :=
  {| time := 1000; now := {| month := 2; day := 6; hour := 16; minute := 43 |} |}.

Definition sample_packet : packet :=
  {| pk_portnum := PyStr (str_lit "TEXT_MESSAGE_APP");
     pk_requestId := None;
     pk_payload := str_lit "ping test";
     pk_fromId := PyStr (str_lit "!aabbcc01");
     pk_from := PyInt 0xAABBCC01;
     pk_to := PyInt 5;
     pk_rxRssi := Some (str_lit "-80");
     pk_rxSnr := Some (str_lit "6.25");
     pk_hopStart := Some 3;
     pk_hopLimit := Some 2 |}.

Definition empty_state : state :=
  {| pending_acks := []; name_cache := ∅; send_queue := []; stdout := [] |}.

Definition full_queue_state : state :=
  {| pending_acks := []; name_cache := ∅;
     send_queue := replicate SEND_QUEUE_MAXSIZE (str_lit "hello", None, true);
     stdout := [] |}.

(** A thread run on its own for at most [n] steps. *)
Fixpoint thread_run (n : nat) (lock : bool) (acks : registry) (t : thread)
    : bool * registry * thread :=
  match n with
  | O => (lock, acks, t)
  | S n' =>
      match thread_step lock acks t with
      | Some (lock', acks', t') => thread_run n' lock' acks' t'
      | None => (lock, acks, t)
      end
  end.

(** Two calls racing for request 1: a [complete] and a sweep for which
    that request has expired. *)
Definition race_start : world :=
  {| w_lock := false;
     w_acks := [(1, (0, None)); (2, (100, Some 5))];
     w_threads := [CompleteCall 1; SweepCall 50] |}.

(** ** What holds of every reachable state of the concurrent calls *)

Record lock_invariant (w : world) : Prop := {
  (* the registry is a dictionary *)
  inv_wf : dict_wf (w_acks w);
  (* a thread inside its block has the lock taken *)
  inv_lock : ∀ i t,
    w_threads w !! i = Some t → holds_lock t = true → w_lock w = true;
  (* at most one thread is inside its block *)
  inv_excl : ∀ i j ti tj,
    w_threads w !! i = Some ti → w_threads w !! j = Some tj →
    holds_lock ti = true → holds_lock tj = true → i = j;
  (* what a thread has removed is not in the registry *)
  inv_gone : ∀ i t k,
    w_threads w !! i = Some t → k ∈ removed_ids t → k ∉ dict_keys (w_acks w);
  (* no two threads have removed the same request *)
  inv_once : ∀ i j ti tj k,
    i ≠ j → w_threads w !! i = Some ti → w_threads w !! j = Some tj →
    k ∈ removed_ids ti → k ∈ removed_ids tj → False;
  (* no thread has removed a request twice *)
  inv_nodup : ∀ i t, w_threads w !! i = Some t → NoDup (removed_ids t);
  (* the rest of a sweep's snapshot is still in the registry *)
  inv_items : ∀ i now items expired,
    w_threads w !! i = Some (SweepLoop now items expired) →
    NoDup items.*1 ∧ items.*1 ⊆ dict_keys (w_acks w);
}.

(** ** The operator's side: [resolve_node] and [input_loop] *)

Section Operator.
Context `{Unicode}.

(** The first word of a string that starts with it, and what follows. *)
Fixpoint first_word (s : pystr) : pystr * pystr :=
  match s with
  | [] => ([], [])
  | c :: s' =>
      if isspace c then ([], s)
      else let '(w, rest) := first_word s' in (c :: w, rest)
  end.

(** [s.split(maxsplit=1)]: the first word, and the rest of the string
    from its first character that is not white space, if there is one. *)
Definition split_once (s : pystr) : list pystr :=
  match lstrip s with
  | [] => []
  | s1 =>
      let '(w, rest) := first_word s1 in
      match lstrip rest with
      | [] => [w]
      | r => [w; r]
      end
  end.

(** The loop of [resolve_node] over [list(interface.nodes.items())]:
    the first node whose short name is the token and whose key is an
    [int] or a "!" string that [int(..., 16)] reads. *)
Fixpoint resolve_scan (token : pystr) (nodes_snapshot : list (nodes_key * node))
    : option Z :=
  match nodes_snapshot with
  | [] => None
  | (nid, nd) :: rest =>
      if bool_decide (short_name_of (Some nd) = Some token) then
        match nid with
        | inl n => Some n
        | inr s =>
            if startswith (str_lit "!") s then
              match int16 (drop 1 s) with
              | Some n => Some n
              | None => resolve_scan token rest   (* [pass] *)
              end
            else resolve_scan token rest
        end
      else resolve_scan token rest
  end.

(** [resolve_node(interface, token)], given the directory as
    [list(interface.nodes.items())] yields it. *)
Definition resolve_node (nodes_snapshot : list (nodes_key * node)) (token : pystr)
    : option Z :=
  if startswith (str_lit "!") token then int16 (drop 1 token)
  else resolve_scan token nodes_snapshot.

Definition unknown_node_message (clk : clock) (target : pystr) : pystr :=
  C_BLUE ++ str_lit "[" ++ ts (now clk) ++ str_lit "] Unknown node: " ++ target ++ C_RESET.

Definition input_error : pystr := str_lit "Input error: list index out of range".

(** [input_loop], one line read from the prompt. *)
Definition input_loop_line (clk : clock) (nodes_snapshot : list (nodes_key * node))
    (raw_line : pystr) (st : state) : state :=
  let line := strip raw_line in
  match line with
  | [] => st                                            (* [continue] *)
  | _ =>
      if startswith (str_lit "@") line then
        match split_once line with
        | [] => print input_error st                    (* [parts[0]] fails *)
        | part0 :: more =>
            let target := drop 1 part0 in
            let text := match more with part1 :: _ => part1 | [] => [] end in
            match resolve_node nodes_snapshot target with
            | None => print (unknown_node_message clk target) st
            | Some dest_id => input_loop_submit clk text (Some dest_id) st
            end
        end
      else input_loop_submit clk line None st
  end.
End Operator.

(** A key of the directory as a Python value. *)
Definition key_value (nid : nodes_key) : pyval :=
  match nid with inl n => PyInt n | inr s => PyStr s end.

Section Matches.
Context `{Unicode}.

(** The identifiers of the nodes that carry a short name, in the order
    of the directory, leaving out keys that do not normalize. *)
Definition usable_matches (token : pystr) (nodes_snapshot : list (nodes_key * node))
    : list Z :=
  omap (λ item, if bool_decide (short_name_of (Some item.2) = Some token)
                then normalize_node_id (key_value item.1) else None)
       nodes_snapshot.
End Matches.

(** The directory [interface.nodes] as its list of items shows it. *)
Definition snapshot_of (iface : interface) (nodes_snapshot : list (nodes_key * node))
    : Prop :=
  NoDup nodes_snapshot.*1 ∧ nodes iface = list_to_map nodes_snapshot.

(** ** The sender thread *)

(** [sender_thread], one round of the loop: nothing to do on an empty
    queue; a task taken while the stop flag is set is dropped; otherwise
    the task is handed to the transport, whose answer is [result].  The
    second component is the task sent, if one was. *)
Definition sender_thread_round (clk : clock) (stop : bool) (result : send_result)
    (st : state) : state * option task :=
  match send_queue st with
  | [] => (st, None)
  | t :: q =>
      let st := set_send_queue q st in
      if stop then (st, None)
      else (sender_thread_task clk t result st, Some t)
  end.

(** Rounds of the sender, one per answer of the transport, with the
    stop flag clear; the tasks sent are collected in order. *)
Fixpoint sender_thread_rounds (clk : clock) (results : list send_result)
    (st : state) : state * list task :=
  match results with
  | [] => (st, [])
  | result :: results' =>
      let '(st1, sent) := sender_thread_round clk false result st in
      let '(st2, sent') := sender_thread_rounds clk results' st1 in
      (st2, match sent with Some t => t :: sent' | None => sent' end)
  end.

(** ** Completion of node names *)

(** [a < b] on [str]: by code points, a proper prefix first. *)
Fixpoint str_lt (a b : pystr) : bool :=
  match a, b with
  | [], [] => false
  | [], _ :: _ => true
  | _ :: _, [] => false
  | x :: a', y :: b' => (x <? y) || ((x =? y) && str_lt a' b')
  end.

(** One more element in a set of strings kept as its sorted list. *)
Fixpoint set_insert (x : pystr) (l : list pystr) : list pystr :=
  match l with
  | [] => [x]
  | y :: l' =>
      if str_lt x y then x :: l
      else if str_lt y x then y :: set_insert x l'
      else l
  end.

(** [sorted(set(names))] *)
Definition sorted_set (names : list pystr) : list pystr :=
  foldr set_insert [] names.

(** [a] comes strictly before [b]. *)
Definition str_before (a b : pystr) : Prop := str_lt a b = true.

Section Completer.
Context `{Unicode}.

(** The names [get_completions] collects: the short names of the
    directory that are non-empty strings, and the cached names that do
    not start with "!". *)
Definition completion_names (nodes_snapshot : list (nodes_key * node))
    (name_cache : gmap Z pystr) : list pystr :=
  omap (λ item, let short := short_name_of (Some item.2) in
                if str_truthy short then short else None) nodes_snapshot
  ++ filter (λ short, startswith (str_lit "!") short = false)
            (map_to_list name_cache).*2.

(** [MeshtasticCompleter.get_completions]: the completions yielded,
    each with its [start_position]. *)
Definition get_completions (nodes_snapshot : list (nodes_key * node))
    (name_cache : gmap Z pystr) (text_before_cursor : pystr)
    : list (pystr * Z) :=
  let words :=
    (λ name, str_lit "@" ++ name)
      <$> sorted_set (completion_names nodes_snapshot name_cache) in
  (λ word, (word, - Z.of_nat (length text_before_cursor)))
    <$> filter (λ word, startswith text_before_cursor word = true) words.
End Completer.

(** ** The program as a handler of events *)

(** [ack_watcher], one round on the shared state. *)
Definition ack_watcher_round (clk : clock) (st : state) : state :=
  let '(pending_acks', lines) :=
    ack_watcher (ts (now clk)) (time clk) (pending_acks st) in
  foldl (λ st line, print line st) (set_pending_acks pending_acks' st) lines.

(** What can happen to the shared state: a line typed, a packet
    received, a round of the sender, a round of the watcher, a node
    update. *)
Inductive event :=
| EvLine (clk : clock) (nodes_snapshot : list (nodes_key * node)) (raw_line : pystr)
| EvPacket (iface : interface) (clk : clock) (packet : packet)
| EvSender (clk : clock) (stop : bool) (result : send_result)
| EvWatcher (clk : clock)
| EvNodeUpdated (nid : option Z).

Section Events.
Context `{Unicode}.

Definition handle (st : state) (ev : event) : state :=
  match ev with
  | EvLine clk nodes_snapshot raw_line => input_loop_line clk nodes_snapshot raw_line st
  | EvPacket iface clk packet => on_receive iface clk packet st
  | EvSender clk stop result => (sender_thread_round clk stop result st).1
  | EvWatcher clk => ack_watcher_round clk st
  | EvNodeUpdated nid => set_name_cache (on_node_updated nid (name_cache st)) st
  end.

Definition handle_all (events : list event) (st : state) : state :=
  foldl handle st events.
End Events.

(** ** More sample data *)

(** An acknowledgment of request 77. *)
Definition sample_ack_packet : packet :=
  {| pk_portnum := PyStr (str_lit "ROUTING_APP");
     pk_requestId := Some 77;
     pk_payload := [];
     pk_fromId := PyNone;
     pk_from := PyInt 0xAABBCC01;
     pk_to := PyInt 5;
     pk_rxRssi := Some (str_lit "-80");
     pk_rxSnr := None;
     pk_hopStart := None;
     pk_hopLimit := None |}.

Definition sample_snapshot : list (nodes_key * node) :=
  [(inl 0xAABBCC01, {| user := Some {| shortName := Some (str_lit "RVR") |} |})].

(** ** Progress of the concurrent calls *)

(** The call has left its block and returned. *)
Definition finished (t : thread) : bool :=
  match t with CompleteDone _ _ | SweepDone _ => true | _ => false end.

(** The steps a thread can still take, when the registry holds at
    most [bound] entries. *)
Definition steps_left (bound : nat) (t : thread) : nat :=
  match t with
  | CompleteCall _ => 3
  | CompleteLocked _ => 2
  | CompletePopped _ _ => 1
  | CompleteDone _ _ => 0
  | SweepCall _ => 3 + bound
  | SweepLocked _ => 2 + bound
  | SweepLoop _ items _ => 1 + length items
  | SweepDone _ => 0
  end.

(** The lock is taken only while some thread is inside its block. *)
Definition lock_owned (w : world) : Prop :=
  w_lock w = true →
  ∃ j tj, w_threads w !! j = Some tj ∧ holds_lock tj = true.

(** * Properties *)

(** ** Dictionaries *)

Section PyDictFacts.
Context {V : Type}.
Implicit Types (d : dict V) (k : Z) (v : V).

Lemma dict_get_None k d : dict_get k d = None ↔ k ∉ dict_keys d.
Proof.
  induction d as [|[k' v'] d IH]; simpl.
  - split; [intros _; apply not_elem_of_nil | done].
  - rewrite not_elem_of_cons. destruct (decide (k' = k)) as [->|Hne].
    + split; [done | intros [? _]; done].
    + rewrite IH. split; [intros ?; split; [congruence | done] | intros [_ ?]; done].
Qed.

Lemma dict_get_Some_elem k d v : dict_get k d = Some v → (k, v) ∈ d.
Proof.
  induction d as [|[k' v'] d IH]; simpl; [done|].
  destruct (decide (k' = k)) as [->|Hne].
  - intros [= ->]. apply elem_of_cons; by left.
  - intros Hg. apply elem_of_cons; right; auto.
Qed.

Lemma dict_del_notin k d : k ∉ dict_keys d → dict_del k d = d.
Proof.
  induction d as [|[k' v'] d IH]; simpl; [done|].
  rewrite not_elem_of_cons. intros [Hne Hnot].
  destruct (decide (k' = k)); [congruence|]. by rewrite IH.
Qed.

Lemma dict_keys_del_subseteq k d : dict_keys (dict_del k d) ⊆ dict_keys d.
Proof.
  induction d as [|[k' v'] d IH]; simpl; [done|].
  destruct (decide (k' = k)); simpl.
  - intros x Hx. apply elem_of_cons; by right.
  - intros x. rewrite !elem_of_cons. intros [->|Hx]; [by left | right; by apply IH].
Qed.

Lemma dict_del_wf k d : dict_wf d → dict_wf (dict_del k d).
Proof.
  unfold dict_wf. induction d as [|[k' v'] d IH]; simpl; [done|].
  rewrite NoDup_cons. intros [Hnot Hnd].
  destruct (decide (k' = k)); simpl; [done|].
  apply NoDup_cons. split; [|auto].
  intros Hin. apply Hnot. by apply (dict_keys_del_subseteq k).
Qed.

Lemma dict_keys_del_notin k d : dict_wf d → k ∉ dict_keys (dict_del k d).
Proof.
  unfold dict_wf. induction d as [|[k' v'] d IH]; simpl.
  - intros _. apply not_elem_of_nil.
  - rewrite NoDup_cons. intros [Hnot Hnd].
    destruct (decide (k' = k)) as [->|Hne]; simpl; [done|].
    rewrite not_elem_of_cons. split; [congruence | auto].
Qed.

Lemma dict_keys_del_other k k' d :
  k' ≠ k → k' ∈ dict_keys d → k' ∈ dict_keys (dict_del k d).
Proof.
  intros Hne. induction d as [|[k0 v0] d IH]; simpl; [done|].
  rewrite elem_of_cons. destruct (decide (k0 = k)) as [->|Hk]; simpl.
  - intros [?|?]; [congruence | done].
  - rewrite elem_of_cons. intros [?|?]; [by left | right; auto].
Qed.

Lemma dict_get_del_eq k d : dict_wf d → dict_get k (dict_del k d) = None.
Proof. intros Hwf. apply dict_get_None. by apply dict_keys_del_notin. Qed.

Lemma dict_get_del_ne k k' d : k' ≠ k → dict_get k' (dict_del k d) = dict_get k' d.
Proof.
  intros Hne. induction d as [|[k0 v0] d IH]; simpl; [done|].
  destruct (decide (k0 = k)) as [->|Hk]; simpl.
  - destruct (decide (k = k')); [congruence | done].
  - destruct (decide (k0 = k')); [done | apply IH].
Qed.

Lemma dict_del_app_head k v d1 d2 :
  k ∉ dict_keys d1 → dict_del k (d1 ++ (k, v) :: d2) = d1 ++ d2.
Proof.
  induction d1 as [|[k' v'] d1 IH]; simpl.
  - intros _. destruct (decide (k = k)); [done | congruence].
  - rewrite not_elem_of_cons. intros [Hne Hnot].
    destruct (decide (k' = k)); [congruence|]. by rewrite IH.
Qed.

Lemma length_dict_del_le k d : (length (dict_del k d) ≤ length d)%nat.
Proof.
  induction d as [|[k' v'] d IH]; simpl; [lia|].
  destruct (decide (k' = k)); simpl; lia.
Qed.

Lemma length_dict_set_le k v d : (length (dict_set k v d) ≤ S (length d))%nat.
Proof.
  induction d as [|[k' v'] d IH]; simpl; [lia|].
  destruct (decide (k' = k)); simpl; lia.
Qed.

Lemma dict_keys_set k v d :
  dict_keys (dict_set k v d)
  = if decide (k ∈ dict_keys d) then dict_keys d else dict_keys d ++ [k].
Proof.
  induction d as [|[k' v'] d IH].
  - destruct (decide (k ∈ dict_keys (V:=V) [])) as [Hin|_]; [|done].
    by apply elem_of_nil in Hin.
  - cbn [dict_set]. destruct (decide (k' = k)) as [->|Hne].
    + destruct (decide (k ∈ dict_keys ((k, v') :: d))) as [_|Hnin]; [done|].
      exfalso. apply Hnin. apply elem_of_cons; by left.
    + change (dict_keys ((k', v') :: dict_set k v d))
        with (k' :: dict_keys (dict_set k v d)).
      rewrite IH.
      change (dict_keys ((k', v') :: d)) with (k' :: dict_keys d).
      destruct (decide (k ∈ dict_keys d)) as [Hin|Hnin];
        destruct (decide (k ∈ k' :: dict_keys d)) as [Hin'|Hnin']; try done.
      * exfalso. apply Hnin'. apply elem_of_cons; by right.
      * apply elem_of_cons in Hin' as [?|?]; [congruence | done].
Qed.

Lemma dict_set_wf k v d : dict_wf d → dict_wf (dict_set k v d).
Proof.
  unfold dict_wf. rewrite dict_keys_set. intros Hnd.
  destruct (decide (k ∈ dict_keys d)); [done|].
  apply NoDup_app. split; [done|]. split.
  - intros x Hx Hx'. apply list_elem_of_singleton in Hx'. by subst.
  - apply NoDup_singleton.
Qed.

Lemma dict_get_set_eq k v d : dict_get k (dict_set k v d) = Some v.
Proof.
  induction d as [|[k' v'] d IH]; simpl.
  - by rewrite decide_True.
  - destruct (decide (k' = k)) as [->|Hne]; simpl.
    + by rewrite decide_True.
    + by rewrite decide_False.
Qed.

Lemma dict_get_set_ne k k' v d : k' ≠ k → dict_get k' (dict_set k v d) = dict_get k' d.
Proof.
  intros Hne. induction d as [|[k0 v0] d IH]; simpl.
  - rewrite decide_False; [done | congruence].
  - destruct (decide (k0 = k)) as [->|Hk]; simpl.
    + rewrite !decide_False; [done | congruence | congruence].
    + destruct (decide (k0 = k')); [done | apply IH].
Qed.
Lemma dict_set_fresh k v d : k ∉ dict_keys d → dict_set k v d = d ++ [(k, v)].
Proof.
  induction d as [|[k' v'] d IH]; simpl; [done|].
  rewrite not_elem_of_cons. intros [Hne Hnot].
  destruct (decide (k' = k)); [congruence|]. by rewrite IH.
Qed.

Lemma dict_keys_set_present k v d :
  k ∈ dict_keys d → dict_keys (dict_set k v d) = dict_keys d.
Proof. intros Hin. rewrite dict_keys_set. by rewrite decide_True. Qed.
End PyDictFacts.

(** ** The registry *)

(** Closed dictionaries are checked key by key. *)
Ltac dict_wf_literal :=
  unfold dict_wf, dict_keys; simpl;
  repeat (apply NoDup_cons_2; [rewrite ?elem_of_cons, elem_of_nil; intuition lia|]);
  apply NoDup_nil_2.


Lemma register_below ts now k dest (r : registry) :
  (length r < MAX_PENDING_ACKS)%nat →
  register ts now k dest r = (dict_set k (now, dest) r, []).
Proof. intros Hlt. unfold register. rewrite decide_False; [done | lia]. Qed.

Lemma register_at_capacity ts now k dest oldest e (rest : registry) :
  (MAX_PENDING_ACKS ≤ length ((oldest, e) :: rest))%nat →
  register ts now k dest ((oldest, e) :: rest)
  = (dict_set k (now, dest) rest, [warn_overflow ts]).
Proof.
  intros Hge. unfold register. rewrite decide_True by done.
  simpl. by rewrite decide_True.
Qed.

Lemma register_stores ts now k dest (r : registry) :
  dict_get k (register ts now k dest r).1 = Some (now, dest).
Proof.
  destruct (decide (length r < MAX_PENDING_ACKS)%nat) as [Hlt|Hge].
  - rewrite register_below by done. apply dict_get_set_eq.
  - destruct r as [|[oldest e] rest].
    + unfold MAX_PENDING_ACKS in Hge. simpl in Hge. lia.
    + rewrite register_at_capacity by lia. apply dict_get_set_eq.
Qed.

Lemma register_wf ts now k dest (r : registry) :
  dict_wf r → dict_wf (register ts now k dest r).1.
Proof.
  intros Hwf. destruct (decide (length r < MAX_PENDING_ACKS)%nat) as [Hlt|Hge].
  - rewrite register_below by done. by apply dict_set_wf.
  - destruct r as [|[oldest e] rest].
    + unfold MAX_PENDING_ACKS in Hge. simpl in Hge. lia.
    + rewrite register_at_capacity by lia. apply dict_set_wf.
      unfold dict_wf in *. simpl in Hwf. by apply NoDup_cons in Hwf as [_ ?].
Qed.

Lemma register_bound ts now k dest (r : registry) :
  (length r ≤ MAX_PENDING_ACKS)%nat →
  (length (register ts now k dest r).1 ≤ MAX_PENDING_ACKS)%nat.
Proof.
  intros Hle. destruct (decide (length r < MAX_PENDING_ACKS)%nat) as [Hlt|Hge].
  - rewrite register_below by done. cbn [fst].
    pose proof (length_dict_set_le k (now, dest) r). lia.
  - destruct r as [|[oldest e] rest].
    + unfold MAX_PENDING_ACKS in Hge. simpl in Hge. lia.
    + rewrite register_at_capacity by lia. cbn [fst].
      pose proof (length_dict_set_le k (now, dest) rest).
      cbn [length] in Hle. lia.
Qed.

(** The sweep loop, started on a suffix of the dictionary whose prefix
    it has decided to keep. *)
Lemma sweep_loop_spec now timeout (items kept : registry) expired :
  dict_wf (kept ++ items) →
  sweep_loop now timeout items expired (kept ++ items)
  = (expired ++ ((λ e, (e.1, e.2.2)) <$> filter (entry_expired now timeout) items),
     kept ++ filter (λ e, ¬ entry_expired now timeout e) items).
Proof.
  revert kept expired.
  induction items as [|[rid [t0 dest]] items IH]; intros kept expired Hwf.
  - simpl. by rewrite !app_nil_r.
  - cbn [sweep_loop]. destruct (decide (now - t0 > timeout)) as [Hexp|Hkeep].
    + rewrite filter_cons_True by done.
      rewrite filter_cons_False by (intros Hn; by apply Hn).
      cbn [dict_pop snd]. rewrite dict_del_app_head.
      * rewrite IH.
        -- rewrite fmap_cons. by rewrite <- app_assoc.
        -- unfold dict_wf, dict_keys in *. rewrite fmap_app in *.
           rewrite fmap_cons in Hwf. apply NoDup_app in Hwf as (? & Hd & Hnd).
           apply NoDup_cons in Hnd as [_ ?]. apply NoDup_app. split_and!; [done| |done].
           intros x Hx Hin. apply (Hd x Hx). apply elem_of_cons. by right.
      * unfold dict_wf, dict_keys in *. rewrite fmap_app, fmap_cons in Hwf.
        apply NoDup_app in Hwf as (_ & Hd & _). intros Hin. apply (Hd rid Hin).
        apply elem_of_cons. by left.
    + rewrite filter_cons_False by done.
      rewrite filter_cons_True by done.
      replace (kept ++ (rid, (t0, dest)) :: items)
        with ((kept ++ [(rid, (t0, dest))]) ++ items) by (by rewrite <- app_assoc).
      rewrite IH.
      * by rewrite <- app_assoc.
      * by rewrite <- app_assoc.
Qed.

Lemma sweepExpired_spec now timeout (r : registry) :
  dict_wf r →
  sweepExpired now timeout r
  = ((λ e, (e.1, e.2.2)) <$> filter (entry_expired now timeout) r,
     filter (λ e, ¬ entry_expired now timeout e) r).
Proof. intros Hwf. unfold sweepExpired. by rewrite (sweep_loop_spec now timeout r []). Qed.

Lemma sweepExpired_wf now timeout (r : registry) :
  dict_wf r → dict_wf (sweepExpired now timeout r).2.
Proof.
  intros Hwf. rewrite sweepExpired_spec by done. simpl.
  unfold dict_wf, dict_keys in *.
  eapply sublist_NoDup; [done | apply fmap_sublist; apply sublist_filter].
Qed.

Lemma sweepExpired_length now timeout (r : registry) :
  dict_wf r → (length (sweepExpired now timeout r).2 ≤ length r)%nat.
Proof.
  intros Hwf. rewrite sweepExpired_spec by done. simpl. apply length_filter.
Qed.

Lemma apply_op_inv (r : registry) op :
  dict_wf r ∧ (length r ≤ MAX_PENDING_ACKS)%nat →
  dict_wf (apply_op r op) ∧ (length (apply_op r op) ≤ MAX_PENDING_ACKS)%nat.
Proof.
  intros [Hwf Hle]. destruct op as [ts now k dest|k|now]; simpl.
  - split; [by apply register_wf | by apply register_bound].
  - split; [by apply dict_del_wf|]. pose proof (length_dict_del_le k r). lia.
  - split; [by apply sweepExpired_wf|].
    pose proof (sweepExpired_length now ACK_TIMEOUT r Hwf). lia.
Qed.

Lemma apply_ops_inv ops (r : registry) :
  dict_wf r ∧ (length r ≤ MAX_PENDING_ACKS)%nat →
  dict_wf (apply_ops ops r) ∧ (length (apply_ops ops r) ≤ MAX_PENDING_ACKS)%nat.
Proof.
  revert r. induction ops as [|op ops IH]; intros r Hr; [done|].
  apply IH. by apply apply_op_inv.
Qed.

(** A sweep thread left alone does what [sweepExpired] does, and a
    [complete] thread what [complete] does. *)
Lemma sweep_loop_run now items expired lock (acks : registry) :
  thread_run (S (length items)) lock acks (SweepLoop now items expired)
  = (false, (sweep_loop now ACK_TIMEOUT items expired acks).2,
     SweepDone (sweep_loop now ACK_TIMEOUT items expired acks).1).
Proof.
  revert expired acks. induction items as [|[rid [t0 dest]] items IH];
    intros expired acks; [done|].
  cbn [length]. cbn [thread_run thread_step sweep_loop].
  destruct (decide (now - t0 > ACK_TIMEOUT)); apply IH.
Qed.

Lemma sweep_thread_run now (acks : registry) :
  thread_run (3 + length acks) false acks (SweepCall now)
  = (false, (sweepExpired now ACK_TIMEOUT acks).2,
     SweepDone (sweepExpired now ACK_TIMEOUT acks).1).
Proof. cbn [Nat.add thread_run thread_step]. apply sweep_loop_run. Qed.

Lemma complete_thread_run k (acks : registry) :
  thread_run 3 false acks (CompleteCall k)
  = (false, (complete k acks).2, CompleteDone k (complete k acks).1).
Proof. reflexivity. Qed.

(** Registering requests with distinct identifiers leaves the last
    [MAX_PENDING_ACKS] of them, in the order of registration. *)
Lemma register_run_fresh (regs : list (Z * pending_ack)) :
  NoDup regs.*1 →
  apply_ops (register_op <$> regs) []
  = drop (length regs - MAX_PENDING_ACKS) regs.
Proof.
  induction regs as [|[k [now dest]] regs IH] using rev_ind; intros Hnd; [done|].
  rewrite fmap_app in Hnd. apply NoDup_app in Hnd as (Hnd & Hfresh & _).
  assert (k ∉ regs.*1) as Hk.
  { intros Hin. apply (Hfresh k Hin). simpl. apply elem_of_cons. by left. }
  unfold apply_ops in *. rewrite fmap_app, foldl_app, IH by done.
  cbn [fmap list_fmap foldl apply_op register_op fst snd].
  assert (k ∉ dict_keys (drop (length regs - MAX_PENDING_ACKS) regs)) as Hk'.
  { intros Hin. apply Hk. unfold dict_keys in Hin.
    rewrite <- (take_drop (length regs - MAX_PENDING_ACKS) regs), fmap_app.
    apply elem_of_app. by right. }
  rewrite length_app. cbn [length].
  assert (0 < MAX_PENDING_ACKS)%nat as Hpos by (unfold MAX_PENDING_ACKS; lia).
  destruct (decide (length regs < MAX_PENDING_ACKS)%nat) as [Hlt|Hge].
  - rewrite register_below by (rewrite length_drop; lia). cbn [fst].
    rewrite dict_set_fresh by done.
    replace (length regs - MAX_PENDING_ACKS)%nat with 0%nat by lia.
    replace (length regs + 1 - MAX_PENDING_ACKS)%nat with 0%nat by lia.
    by rewrite !drop_0.
  - destruct (drop (length regs - MAX_PENDING_ACKS) regs) as [|[oldest e] rest] eqn:Hdrop.
    { apply (f_equal length) in Hdrop. rewrite length_drop in Hdrop.
      cbn [length] in Hdrop. lia. }
    rewrite register_at_capacity by (rewrite <- Hdrop, length_drop; lia).
    cbn [fst]. rewrite dict_set_fresh.
    2:{ intros Hin. apply Hk'. simpl. apply elem_of_cons. by right. }
    replace (length regs + 1 - MAX_PENDING_ACKS)%nat
      with (S (length regs - MAX_PENDING_ACKS)) by lia.
    rewrite drop_app_le by lia. f_equal.
    change (S (length regs - MAX_PENDING_ACKS)) with (1 + (length regs - MAX_PENDING_ACKS))%nat.
    rewrite Nat.add_comm, <- drop_drop, Hdrop. reflexivity.
Qed.

(** ** Number formatting *)

Lemma to_base_length b fuel n (k : nat) :
  1 < b → 0 ≤ n < b ^ Z.of_nat k → (1 ≤ k)%nat →
  (length (to_base b fuel n) ≤ k)%nat.
Proof.
  intros Hb. revert n k. induction fuel as [|fuel IH]; intros n k Hn Hk; simpl; [lia|].
  destruct (Z.ltb_spec n b) as [Hlt|Hge]; simpl; [lia|].
  rewrite length_app. simpl.
  destruct k as [|k]; [lia|]. destruct k as [|k].
  { change (b ^ Z.of_nat 1) with (b ^ 1) in Hn. rewrite Z.pow_1_r in Hn. lia. }
  assert (length (to_base b fuel (n / b)) ≤ S k)%nat; [|lia].
  apply IH; [|lia]. split; [apply Z.div_pos; lia|].
  apply Z.div_lt_upper_bound; [lia|].
  replace (Z.of_nat (S (S k))) with (Z.succ (Z.of_nat (S k))) in Hn by lia.
  rewrite Z.pow_succ_r in Hn by lia. lia.
Qed.

Lemma digit_char_hex d : 0 ≤ d < 16 → lower_hex_char (digit_char d) = true.
Proof.
  intros Hd. unfold lower_hex_char, digit_char, between.
  destruct (Z.ltb_spec d 10); apply orb_true_iff; [left | right];
    apply andb_true_iff; split; apply Z.leb_le; lia.
Qed.

Lemma to_base_hex fuel n :
  0 ≤ n → Forall (λ c, lower_hex_char c = true) (to_base 16 fuel n).
Proof.
  revert n. induction fuel as [|fuel IH]; intros n Hn; simpl; [constructor|].
  destruct (Z.ltb_spec n 16) as [Hlt|Hge].
  - repeat constructor. apply digit_char_hex. lia.
  - apply Forall_app. split.
    + apply IH. apply Z.div_pos; lia.
    + repeat constructor. apply digit_char_hex. apply Z.mod_pos_bound. lia.
Qed.

Lemma format_08x_32bit d :
  0 ≤ d < 2 ^ 32 →
  length (format_08x d) = 8%nat ∧ Forall (λ c, lower_hex_char c = true) (format_08x d).
Proof.
  intros Hd. unfold format_08x.
  destruct (Z.ltb_spec d 0) as [?|_]; [lia|].
  rewrite Z.abs_eq by lia. cbn [app length].
  assert (length (digits 16 d) ≤ 8)%nat as Hlen.
  { unfold digits. apply to_base_length; [lia| |lia]. exact Hd. }
  split.
  - rewrite length_app, length_replicate. lia.
  - apply Forall_app. split.
    + apply Forall_replicate. reflexivity.
    + apply to_base_hex. lia.
Qed.

(** ** The claims on the registry *)

(** C1. Whatever operations run on the registry, starting empty, it
    never holds more than [MAX_PENDING_ACKS] (100) entries, each key
    once.  A [register] on a registry at capacity drops exactly the
    first entry of the insertion order, whatever the time stamps are,
    prints the overflow warning, and stores the new entry in what is
    left, which is below capacity; below capacity nothing is dropped.
    So registering requests with distinct identifiers leaves the last
    100 of them in the order of registration.  (A request registered
    again under an identifier that is still in the registry keeps the
    place of the first registration.) *)
Theorem registry_bounded_fifo_eviction :
  (∀ ops, (length (apply_ops ops []) ≤ MAX_PENDING_ACKS)%nat
          ∧ dict_wf (apply_ops ops []))
  ∧ (∀ ts now pkt_id dest_id oldest e (rest : registry),
       (MAX_PENDING_ACKS ≤ length ((oldest, e) :: rest))%nat →
       dict_first ((oldest, e) :: rest) = Some oldest
       ∧ (dict_pop oldest ((oldest, e) :: rest)).2 = rest
       ∧ register ts now pkt_id dest_id ((oldest, e) :: rest)
         = (dict_set pkt_id (now, dest_id) rest, [warn_overflow ts]))
  ∧ (∀ ts now pkt_id dest_id (r : registry),
       (length r < MAX_PENDING_ACKS)%nat →
       register ts now pkt_id dest_id r = (dict_set pkt_id (now, dest_id) r, []))
  ∧ (∀ regs : list (Z * pending_ack),
       NoDup regs.*1 →
       apply_ops (register_op <$> regs) []
       = drop (length regs - MAX_PENDING_ACKS) regs)
  ∧ (∀ k v (r : registry),
       k ∈ dict_keys r → dict_keys (dict_set k v r) = dict_keys r).
Proof.
  split_and!.
  - intros ops. apply and_comm, apply_ops_inv. split.
    + apply NoDup_nil_2.
    + simpl. lia.
  - intros ts now pkt_id dest_id oldest e rest Hge. split_and!.
    + done.
    + simpl. by rewrite decide_True.
    + by apply register_at_capacity.
  - intros. by apply register_below.
  - apply register_run_fresh.
  - intros k v r. apply dict_keys_set_present.
Qed.

Lemma registry_bounded_fifo_eviction_witness :
  (MAX_PENDING_ACKS ≤ length full_registry)%nat
  ∧ (register [] 5 100 None full_registry).1
    = tail full_registry ++ [(100, (5, None))].
Proof.
  split; [vm_compute; lia|].
  pose proof (proj1 (proj2 registry_bounded_fifo_eviction)
                [] 5 100 None 0 (0, None) (tail full_registry)) as Hw.
  change ((0, (0, None)) :: tail full_registry) with full_registry in Hw.
  destruct Hw as (_ & _ & ->); [vm_compute; lia|].
  vm_compute. reflexivity.
Defined.

(** C3. A sweep removes and returns exactly the entries whose age
    [now - sentAt] exceeds the timeout, in registry order, and leaves
    the others as they were.  After [register(7, None)] at time [T], a
    sweep at [T + 31] with timeout 30 returns [(7, None)] among the
    expired and entry 7 is gone; on a registry that held nothing else
    it returns exactly [[(7, None)]].  The thread of [ack_watcher],
    from taking the lock to releasing it, produces this result. *)
Theorem sweepExpired_exact :
  (∀ now timeout (r : registry),
     dict_wf r →
     sweepExpired now timeout r
     = ((λ e, (e.1, e.2.2)) <$> filter (entry_expired now timeout) r,
        filter (λ e, ¬ entry_expired now timeout e) r))
  ∧ (∀ ts T (r : registry),
       dict_wf r →
       let swept := sweepExpired (T + 31) 30 (register ts T 7 None r).1 in
       (7, None) ∈ swept.1 ∧ dict_get 7 swept.2 = None)
  ∧ (∀ ts T, sweepExpired (T + 31) 30 (register ts T 7 None []).1 = ([(7, None)], []))
  ∧ (∀ now (r : registry),
       thread_run (3 + length r) false r (SweepCall now)
       = (false, (sweepExpired now ACK_TIMEOUT r).2,
          SweepDone (sweepExpired now ACK_TIMEOUT r).1)).
Proof.
  split_and!; [| | |apply sweep_thread_run].
  - apply sweepExpired_spec.
  - intros ts T r Hwf swept. subst swept.
    pose proof (register_wf ts T 7 None r Hwf) as Hwf'.
    pose proof (register_stores ts T 7 None r) as Hget.
    rewrite sweepExpired_spec by done. cbn [fst snd]. split.
    + apply dict_get_Some_elem in Hget.
      apply (list_elem_of_fmap_2 (λ e : Z * pending_ack, (e.1, e.2.2)) _ (7, (T, None))).
      apply list_elem_of_filter. split; [|done].
      unfold entry_expired. simpl. lia.
    + apply dict_get_None. unfold dict_keys. intros Hin.
      apply list_elem_of_fmap in Hin as ([k [t0 dest]] & Hk & Hin). simpl in Hk. subst k.
      apply list_elem_of_filter in Hin as [Hkeep Hin].
      assert (dict_get 7 (register ts T 7 None r).1 = Some (t0, dest)) as Hget'.
      { clear Hget Hkeep. revert Hwf' Hin. generalize (register ts T 7 None r).1.
        intros d. unfold dict_wf, dict_keys.
        induction d as [|[k v] d IH]; simpl; [by intros _ ?%elem_of_nil|].
        rewrite NoDup_cons, elem_of_cons. intros [Hnot Hnd] [Heq|Hin].
        - injection Heq as <- <-. by rewrite decide_True.
        - destruct (decide (k = 7)) as [->|Hne]; [|auto].
          exfalso. apply Hnot. apply (list_elem_of_fmap_2 fst _ (7, (t0, dest))). done. }
      rewrite Hget in Hget'. injection Hget' as <- <-.
      apply Hkeep. unfold entry_expired. simpl. lia.
  - intros ts T. unfold sweepExpired, register. simpl.
    destruct (decide (T + 31 - T > 30)); [done | lia].
Qed.

Lemma sweepExpired_exact_witness :
  dict_wf [(1, (0, Some 9)); (2, (50, None)); (3, (10, Some 0))]
  ∧ sweepExpired 45 30 [(1, (0, Some 9)); (2, (50, None)); (3, (10, Some 0))]
    = ([(1, Some 9); (3, Some 0)], [(2, (50, None))]).
Proof.
  assert (dict_wf [(1, (0, Some 9)); (2, (50, None)); (3, (10, Some 0))]) as Hwf.
  { dict_wf_literal. }
  split; [exact Hwf|].
  rewrite (proj1 sweepExpired_exact 45 30 _ Hwf). vm_compute. reflexivity.
Defined.

(** C4. [complete] on a request that is in the registry returns the
    recorded [(sentAt, destination)] and leaves the registry without
    that entry and with every other entry as it was; on a request that
    is not in the registry it returns nothing and leaves the registry
    unchanged.  After [register(42, dest=1)] at time [T], [complete(42)]
    returns [(T, 1)] and entry 42 is gone.  The thread of [on_receive],
    from taking the lock to releasing it, produces this result. *)
Theorem complete_removes_and_returns :
  (∀ req_id entry (r : registry),
     dict_wf r → dict_get req_id r = Some entry →
     (complete req_id r).1 = Some entry
     ∧ dict_get req_id (complete req_id r).2 = None
     ∧ (req_id ∉ dict_keys (complete req_id r).2)
     ∧ (∀ k, k ≠ req_id → dict_get k (complete req_id r).2 = dict_get k r))
  ∧ (∀ req_id (r : registry),
       dict_get req_id r = None → complete req_id r = (None, r))
  ∧ (∀ ts T (r : registry),
       dict_wf r →
       let r1 := (register ts T 42 (Some 1) r).1 in
       (complete 42 r1).1 = Some (T, Some 1)
       ∧ dict_get 42 (complete 42 r1).2 = None)
  ∧ (∀ req_id (r : registry),
       thread_run 3 false r (CompleteCall req_id)
       = (false, (complete req_id r).2, CompleteDone req_id (complete req_id r).1)).
Proof.
  split_and!; [| | |apply complete_thread_run].
  - intros req_id entry r Hwf Hget. unfold complete, dict_pop. cbn [fst snd].
    split_and!.
    + done.
    + by apply dict_get_del_eq.
    + by apply dict_keys_del_notin.
    + intros k Hne. by apply dict_get_del_ne.
  - intros req_id r Hget. unfold complete, dict_pop. rewrite Hget.
    f_equal. apply dict_del_notin. by apply dict_get_None.
  - intros ts T r Hwf r1. subst r1. unfold complete, dict_pop. cbn [fst snd]. split.
    + apply register_stores.
    + apply dict_get_del_eq. by apply register_wf.
Qed.

Lemma complete_removes_and_returns_witness :
  dict_wf [(41, (3, None)); (42, (7, Some 1))]
  ∧ complete 42 [(41, (3, None)); (42, (7, Some 1))]
    = (Some (7, Some 1), [(41, (3, None))])
  ∧ complete 5 [(41, (3, None)); (42, (7, Some 1))]
    = (None, [(41, (3, None)); (42, (7, Some 1))]).
Proof.
  assert (dict_wf [(41, (3, None)); (42, (7, Some 1))]) as Hwf.
  { dict_wf_literal. }
  split_and!.
  - exact Hwf.
  - pose proof (proj1 complete_removes_and_returns 42 (7, Some 1) _ Hwf eq_refl)
      as (Hret & _).
    vm_compute. reflexivity.
  - apply (proj1 (proj2 complete_removes_and_returns) 5). reflexivity.
Defined.

(** C10. The report for an expired entry names its destination by the
    truth value of the stored number: destination 0 is reported as
    [@broadcast], exactly like an absent destination, and only a
    non-zero destination is reported as [@!] followed by its
    hexadecimal form, which for a 32-bit identifier is eight
    lower-case hexadecimal digits. *)
Theorem no_ack_report_conflates_zero :
  no_ack_dst (Some 0) = str_lit "@broadcast"
  ∧ no_ack_dst None = str_lit "@broadcast"
  ∧ (∀ ts rid, no_ack_line ts (rid, Some 0) = no_ack_line ts (rid, None))
  ∧ (∀ d, d ≠ 0 → no_ack_dst (Some d) = str_lit "@!" ++ format_08x d)
  ∧ (∀ d, 0 < d < 2 ^ 32 →
       length (format_08x d) = 8%nat
       ∧ Forall (λ c, lower_hex_char c = true) (format_08x d))
  ∧ (∀ ts now t0 rid,
       now - t0 > ACK_TIMEOUT →
       ack_watcher ts now [(rid, (t0, Some 0))]
       = ([], [C_BLUE ++ str_lit "[" ++ ts ++ str_lit "] NO ACK from @broadcast, id="
                 ++ str_int rid ++ C_RESET])).
Proof.
  split_and!.
  - reflexivity.
  - reflexivity.
  - reflexivity.
  - intros d Hd. unfold no_ack_dst. simpl.
    by destruct (Z.eqb_spec d 0).
  - intros d Hd. apply format_08x_32bit. lia.
  - intros ts now t0 rid Hexp. unfold ack_watcher, sweepExpired. simpl.
    destruct (decide (now - t0 > ACK_TIMEOUT)); [|done]. simpl.
    rewrite decide_True by done. reflexivity.
Qed.

Lemma no_ack_report_conflates_zero_witness :
  no_ack_dst (Some 0xAABBCC01) = str_lit "@!aabbcc01"
  ∧ length (format_08x 0xAABBCC01) = 8%nat
  ∧ (ack_watcher (str_lit "02-06 16:43") 131 [(9, (100, Some 0))]).1 = [].
Proof.
  split_and!.
  - rewrite (proj1 (proj2 (proj2 (proj2 no_ack_report_conflates_zero))) 0xAABBCC01); [|lia].
    vm_compute. reflexivity.
  - apply (proj1 (proj2 (proj2 (proj2 (proj2 no_ack_report_conflates_zero)))) 0xAABBCC01).
    lia.
  - rewrite (proj2 (proj2 (proj2 (proj2 (proj2 no_ack_report_conflates_zero))))
               (str_lit "02-06 16:43") 131 100 9); [reflexivity|].
    unfold ACK_TIMEOUT. lia.
Defined.

(** ** The name cache *)

Lemma get_name_and_id_miss iface (cache : gmap Z pystr) node_id :
  cache !! node_id = None →
  get_name_and_id iface cache (PyInt node_id)
  = {| res_name := directory_label iface node_id;
       res_display := display_of (directory_label iface node_id) node_id;
       res_cache := <[node_id := directory_label iface node_id]> cache;
       res_lookups :=
         if str_truthy (short_name_of (nodes iface !! inl node_id))
         then [inl node_id] else [inl node_id; inr (hex_key_of node_id)] |}.
Proof.
  intros Hmiss. unfold get_name_and_id, directory_label, display_of. rewrite Hmiss.
  destruct (str_truthy (short_name_of (nodes iface !! inl node_id))).
  - by rewrite lookup_insert_eq.
  - destruct (str_truthy (short_name_of (nodes iface !! inr (hex_key_of node_id)))).
    + by rewrite lookup_insert_eq.
    + by rewrite lookup_insert_eq.
Qed.

Lemma get_name_and_id_hit iface (cache : gmap Z pystr) node_id name :
  cache !! node_id = Some name →
  get_name_and_id iface cache (PyInt node_id)
  = {| res_name := name; res_display := display_of name node_id;
       res_cache := cache; res_lookups := [] |}.
Proof.
  intros Hhit. unfold get_name_and_id, display_of. rewrite Hhit. simpl. by rewrite Hhit.
Qed.

Lemma get_name_and_id_not_int iface (cache : gmap Z pystr) v :
  (∀ n, v ≠ PyInt n) →
  get_name_and_id iface cache v
  = {| res_name := str_lit "unknown"; res_display := str_lit "@unknown";
       res_cache := cache; res_lookups := [] |}.
Proof. intros Hv. destruct v; try done. by destruct (Hv n). Qed.

(** A resolution never changes what is cached for any identifier that
    is cached already. *)
Lemma get_name_and_id_keeps iface (cache : gmap Z pystr) v k name :
  cache !! k = Some name → res_cache (get_name_and_id iface cache v) !! k = Some name.
Proof.
  intros Hk. destruct v as [|n|s|b]; try done.
  destruct (cache !! n) as [name'|] eqn:Hn.
  - by rewrite (get_name_and_id_hit _ _ _ _ Hn).
  - rewrite (get_name_and_id_miss _ _ _ Hn). simpl.
    rewrite lookup_insert_ne; [done | congruence].
Qed.

Lemma apply_cache_ops_keep ops (cache : gmap Z pystr) k name :
  Forall (λ op, op ≠ CacheInvalidate (Some k)) ops →
  cache !! k = Some name →
  foldl apply_cache_op cache ops !! k = Some name.
Proof.
  revert cache. induction ops as [|op ops IH]; intros cache Hops Hk; [done|].
  apply Forall_cons in Hops as [Hop Hops]. simpl. apply IH; [done|].
  destruct op as [iface v|[nid|]]; simpl.
  - by apply get_name_and_id_keeps.
  - rewrite lookup_delete_ne; [done | congruence].
  - done.
Qed.

(** C6. For an identifier that is not cached, the label is the short
    name the directory holds under the integer key if that is a
    non-empty string, else the short name it holds under the key
    [!xxxxxxxx] if that is a non-empty string, else the text [!xxxxxxxx]
    itself; the hexadecimal key is looked up only when the integer key
    gave no name.  Whichever it is, the label is stored in the cache
    before the call returns, and the display label is the label followed
    by [ (@!xxxxxxxx)].  A cached identifier is answered from the cache.
    With node 0xAABBCC01 in the directory under short name "RVR", the
    display label is "RVR (@!aabbcc01)". *)
Theorem resolve_precedence :
  (∀ iface (cache : gmap Z pystr) node_id name,
     cache !! node_id = Some name →
     let r := get_name_and_id iface cache (PyInt node_id) in
     res_name r = name ∧ res_cache r = cache ∧ res_lookups r = [])
  ∧ (∀ iface (cache : gmap Z pystr) node_id,
       cache !! node_id = None →
       let r := get_name_and_id iface cache (PyInt node_id) in
       let by_int := short_name_of (nodes iface !! inl node_id) in
       let by_hex := short_name_of (nodes iface !! inr (hex_key_of node_id)) in
       let label :=
         if str_truthy by_int then default [] by_int
         else if str_truthy by_hex then default [] by_hex
         else hex_key_of node_id in
       res_name r = label
       ∧ res_display r = label ++ str_lit " (@!" ++ format_08x node_id ++ str_lit ")"
       ∧ res_cache r = <[node_id := label]> cache
       ∧ res_cache r !! node_id = Some label
       ∧ res_lookups r = (if str_truthy by_int then [inl node_id]
                          else [inl node_id; inr (hex_key_of node_id)]))
  ∧ (∀ iface (cache : gmap Z pystr) nd,
       cache !! 0xAABBCC01 = None →
       short_name_of (Some nd) = Some (str_lit "RVR") →
       nodes iface !! inl 0xAABBCC01 = Some nd
       ∨ (str_truthy (short_name_of (nodes iface !! inl 0xAABBCC01)) = false
          ∧ nodes iface !! inr (str_lit "!aabbcc01") = Some nd) →
       res_display (get_name_and_id iface cache (PyInt 0xAABBCC01))
       = str_lit "RVR (@!aabbcc01)").
Proof.
  split_and!.
  - intros iface cache node_id name Hhit r. subst r.
    by rewrite (get_name_and_id_hit _ _ _ _ Hhit).
  - intros iface cache node_id Hmiss r by_int by_hex label. subst r.
    rewrite (get_name_and_id_miss _ _ _ Hmiss). simpl. split_and!; try done.
    by rewrite lookup_insert_eq.
  - intros iface cache nd Hmiss Hshort Hdir.
    rewrite (get_name_and_id_miss _ _ _ Hmiss). simpl.
    unfold display_of, directory_label.
    destruct Hdir as [Hint | [Hint Hhex]].
    + rewrite Hint, Hshort. reflexivity.
    + rewrite Hint.
      change (hex_key_of 0xAABBCC01) with (str_lit "!aabbcc01").
      rewrite Hhex, Hshort. reflexivity.
Qed.

Lemma resolve_precedence_witness :
  res_display
    (get_name_and_id
       {| nodes := {[ inl 0xAABBCC01 :=
                        {| user := Some {| shortName := Some (str_lit "RVR") |} |} ]};
          my_node_num := None |}
       ∅ (PyInt 0xAABBCC01))
  = str_lit "RVR (@!aabbcc01)".
Proof.
  apply (proj2 (proj2 resolve_precedence) _ ∅
           {| user := Some {| shortName := Some (str_lit "RVR") |} |}).
  - apply lookup_empty.
  - reflexivity.
  - left. apply lookup_singleton_eq.
Defined.

(** C7. Two resolutions of one identifier, with any resolutions and
    any invalidations of other identifiers between them and whatever
    the directory holds at either time, return the same name and the
    same display label; the second one asks the directory nothing and
    leaves the cache as it found it. *)
Theorem resolve_twice_same_label :
  (∀ iface iface' (cache : gmap Z pystr) node_id,
     let r1 := get_name_and_id iface cache node_id in
     let r2 := get_name_and_id iface' (res_cache r1) node_id in
     res_display r2 = res_display r1 ∧ res_name r2 = res_name r1
     ∧ res_lookups r2 = [] ∧ res_cache r2 = res_cache r1)
  ∧ (∀ iface iface' (cache : gmap Z pystr) node_id ops,
       Forall (λ op, ∀ n, node_id = PyInt n → op ≠ CacheInvalidate (Some n)) ops →
       let r1 := get_name_and_id iface cache node_id in
       let cache' := foldl apply_cache_op (res_cache r1) ops in
       let r2 := get_name_and_id iface' cache' node_id in
       res_display r2 = res_display r1 ∧ res_name r2 = res_name r1
       ∧ res_lookups r2 = [] ∧ res_cache r2 = cache').
Proof.
  assert (∀ iface (cache : gmap Z pystr) n,
            res_cache (get_name_and_id iface cache (PyInt n)) !! n
              = Some (res_name (get_name_and_id iface cache (PyInt n)))
            ∧ res_display (get_name_and_id iface cache (PyInt n))
              = display_of (res_name (get_name_and_id iface cache (PyInt n))) n)
    as Hfirst.
  { intros iface cache n. destruct (cache !! n) as [name|] eqn:Hn.
    - by rewrite (get_name_and_id_hit _ _ _ _ Hn).
    - rewrite (get_name_and_id_miss _ _ _ Hn). simpl. by rewrite lookup_insert_eq. }
  assert (∀ iface iface' (cache : gmap Z pystr) node_id ops,
       Forall (λ op, ∀ n, node_id = PyInt n → op ≠ CacheInvalidate (Some n)) ops →
       let r1 := get_name_and_id iface cache node_id in
       let cache' := foldl apply_cache_op (res_cache r1) ops in
       let r2 := get_name_and_id iface' cache' node_id in
       res_display r2 = res_display r1 ∧ res_name r2 = res_name r1
       ∧ res_lookups r2 = [] ∧ res_cache r2 = cache') as Hgen.
  { intros iface iface' cache node_id ops Hops r1 cache' r2.
    destruct node_id as [|n|s|b]; try done.
    destruct (Hfirst iface cache n) as [Hc Hd]. fold r1 in Hc, Hd.
    assert (cache' !! n = Some (res_name r1)) as Hc'.
    { apply apply_cache_ops_keep; [|done].
      eapply Forall_impl; [exact Hops|]. intros op Hop. by apply Hop. }
    subst r2. rewrite (get_name_and_id_hit _ _ _ _ Hc'). simpl. by rewrite Hd. }
  split; [|exact Hgen].
  intros iface iface' cache node_id. apply (Hgen iface iface' cache node_id []).
  constructor.
Qed.

Lemma resolve_twice_same_label_witness :
  let iface := {| nodes := ∅; my_node_num := None |} in
  let r1 := get_name_and_id iface ∅ (PyInt 7) in
  let cache' :=
    foldl apply_cache_op (res_cache r1)
          [CacheInvalidate (Some 8); CacheResolve iface (PyInt 8)] in
  res_display (get_name_and_id iface cache' (PyInt 7)) = str_lit "!00000007 (@!00000007)".
Proof.
  intros iface r1 cache'.
  pose proof (proj2 resolve_twice_same_label iface iface ∅ (PyInt 7)
                [CacheInvalidate (Some 8); CacheResolve iface (PyInt 8)]) as Hw.
  cbv zeta in Hw. fold r1 in Hw. fold cache' in Hw.
  destruct Hw as (-> & _).
  - repeat constructor; intros n [= <-]; discriminate.
  - reflexivity.
Defined.

(** ** Node identifiers *)

Section Identifiers.
Context `{Unicode}.

Lemma hex_char_cases c :
  hex_char c = true →
  c = 48 ∨ c = 49 ∨ c = 50 ∨ c = 51 ∨ c = 52 ∨ c = 53 ∨ c = 54 ∨ c = 55
  ∨ c = 56 ∨ c = 57 ∨ c = 65 ∨ c = 66 ∨ c = 67 ∨ c = 68 ∨ c = 69 ∨ c = 70
  ∨ c = 97 ∨ c = 98 ∨ c = 99 ∨ c = 100 ∨ c = 101 ∨ c = 102.
Proof.
  unfold hex_char, between. rewrite !orb_true_iff, !andb_true_iff, !Z.leb_le. lia.
Qed.

Ltac hex_cases c Hc :=
  apply hex_char_cases in Hc;
  repeat (destruct Hc as [Hc|Hc]; [subst c|]); [..|subst c].

Lemma hex_char_props c :
  hex_char c = true →
  to_ascii c = c ∧ c_isspace c = false ∧ (c =? 95) = false
  ∧ (c =? 43) = false ∧ (c =? 45) = false ∧ (c =? 120) = false ∧ (c =? 88) = false
  ∧ digit16 c = Some (if between 48 57 c then c - 48
                      else if between 97 102 c then c - 87 else c - 55).
Proof. intros Hc. hex_cases c Hc; repeat split; reflexivity. Qed.

Lemma scan_digits_hex h acc n :
  forallb hex_char h = true →
  scan_digits h false acc n
  = Some (foldl (λ acc c, acc * 16 + (if between 48 57 c then c - 48
                                      else if between 97 102 c then c - 87 else c - 55))
                acc h,
          (n + length h)%nat, []).
Proof.
  revert acc n. induction h as [|c h IH]; intros acc n Hh.
  - simpl. by rewrite Nat.add_0_r.
  - simpl in Hh. apply andb_true_iff in Hh as [Hc Hh].
    destruct (hex_char_props c Hc) as (_ & _ & H95 & _ & _ & _ & _ & Hd).
    cbn [scan_digits]. rewrite H95, Hd. rewrite IH by done. cbn [foldl length].
    by replace (S n + length h)%nat with (n + S (length h))%nat by lia.
Qed.

Lemma map_to_ascii_hex h : forallb hex_char h = true → map to_ascii h = h.
Proof.
  induction h as [|c h IH]; [done|]. simpl. intros [Hc Hh]%andb_true_iff.
  destruct (hex_char_props c Hc) as (-> & _). by rewrite IH.
Qed.

(** [int(h, 16)] of a non-empty string of hexadecimal digits is the
    number they denote. *)
Lemma int16_hex h :
  h ≠ [] → forallb hex_char h = true → int16 h = Some (hex_value h).
Proof.
  intros Hne Hh. unfold int16. rewrite map_to_ascii_hex by done.
  pose proof (scan_digits_hex h 0 0 Hh) as Hscan.
  destruct h as [|c h]; [done|]. clear Hne.
  simpl in Hh. apply andb_true_iff in Hh as [Hc Hh].
  assert (∃ m, (0 + length (c :: h))%nat = S m) as [m Hm] by (simpl; eauto).
  rewrite Hm in Hscan.
  destruct h as [|x h].
  - clear Hh. hex_cases c Hc; cbn -[scan_digits]; rewrite Hscan; reflexivity.
  - simpl in Hh. apply andb_true_iff in Hh as [Hx Hh].
    destruct (decide (c = 48)) as [->|Hc48].
    + hex_cases x Hx; cbn -[scan_digits]; rewrite Hscan; reflexivity.
    + hex_cases c Hc; try done; cbn -[scan_digits]; rewrite Hscan; reflexivity.
Qed.

Lemma normalize_node_id_bang s : normalize_node_id (PyStr (33 :: s)) = int16 s.
Proof. reflexivity. Qed.

Lemma normalize_node_id_no_bang s :
  startswith (str_lit "!") s = false → normalize_node_id (PyStr s) = None.
Proof. intros Hs. unfold normalize_node_id. by rewrite Hs. Qed.
End Identifiers.

(** C9, as the design document words it, fails: a string that is not
    "!" followed by hexadecimal digits can still normalize to an
    integer, because [int(..., 16)] also reads a sign; "!-1" gives -1. *)
Lemma normalize_node_id_reads_sign :
  bang_hex (str_lit "!-1") = false
  ∧ ∀ U : Unicode, @normalize_node_id U (PyStr (str_lit "!-1")) = Some (-1).
Proof. split; [reflexivity | intros U; reflexivity]. Qed.

(** C9, amended.  Normalization is a total function, whatever the
    tables of the interpreter: a string without a leading "!" and any
    value that is neither a string nor an integer give the absent
    value; a string with a leading "!" gives what [int(..., 16)] makes
    of the rest, the absent value when that raises [ValueError]; "!"
    followed by hexadecimal digits gives the number they denote; an
    integer is returned as it is.  Resolving an identifier that is
    absent or not an integer gives the name "unknown" (display label
    "@unknown") without touching the cache or the directory, and
    [on_receive] names a sender without identifier "unknown". *)
Theorem normalize_node_id_total :
  ∀ U : Unicode,
    (∀ s, startswith (str_lit "!") s = false → normalize_node_id (PyStr s) = None)
    ∧ (∀ s, normalize_node_id (PyStr (str_lit "!" ++ s)) = int16 s)
    ∧ (∀ s, bang_hex s = true →
            normalize_node_id (PyStr s) = Some (hex_value (drop 1 s)))
    ∧ (∀ n, normalize_node_id (PyInt n) = Some n)
    ∧ normalize_node_id PyNone = None
    ∧ (∀ b, normalize_node_id (PyOther b) = None)
    ∧ (∀ iface (cache : gmap Z pystr) v,
         (∀ n, v ≠ PyInt n) →
         get_name_and_id iface cache v
         = {| res_name := str_lit "unknown"; res_display := str_lit "@unknown";
              res_cache := cache; res_lookups := [] |})
    ∧ (∀ iface st,
         resolve_or iface (str_lit "unknown", []) None st = (str_lit "unknown", [], st)).
Proof.
  intros U. split_and!; try done.
  - apply normalize_node_id_no_bang.
  - intros s Hs. destruct s as [|c h]; [done|].
    unfold bang_hex in Hs.
    destruct (decide (c = 33)) as [->|Hc].
    + destruct h as [|x h]; [done|].
      rewrite normalize_node_id_bang. by apply int16_hex.
    + exfalso. clear -Hs Hc.
      assert (∀ (b : bool), (match c with 33 => b | _ => false end) = true → c = 33) as Hm.
      { intros b. destruct c as [|p|p]; try done.
        do 6 (destruct p as [p|p|]; try done). }
      destruct h; [|apply Hm in Hs; done].
      apply (Hm false) in Hs. done.
  - apply get_name_and_id_not_int.
Qed.

Lemma normalize_node_id_total_witness :
  bang_hex (str_lit "!aabbcc01") = true
  ∧ @normalize_node_id ascii_only (PyStr (str_lit "!aabbcc01")) = Some 0xAABBCC01
  ∧ @normalize_node_id ascii_only (PyStr (str_lit "RVR")) = None.
Proof.
  split_and!.
  - reflexivity.
  - rewrite (proj1 (proj2 (proj2 (normalize_node_id_total ascii_only)))
               (str_lit "!aabbcc01") eq_refl).
    reflexivity.
  - apply (proj1 (normalize_node_id_total ascii_only)). reflexivity.
Defined.

(** ** The packet handler *)

Section Handler.
Context `{Unicode}.

Lemma isspace_digit x : 0 ≤ x ≤ 9 → isspace (48 + x) = false.
Proof.
  intros Hx. unfold isspace, c_isspace, between.
  destruct (Z.ltb_spec (48 + x) 128); [|lia].
  rewrite !orb_false_iff, !andb_false_iff, !Z.leb_gt, Z.eqb_neq. lia.
Qed.

(** [ts().split()] is the date and the time of day. *)
Lemma split_ts dt :
  split (ts dt)
  = [two_digits (month dt) ++ str_lit "-" ++ two_digits (day dt);
     two_digits (hour dt) ++ str_lit ":" ++ two_digits (minute dt)].
Proof.
  unfold ts, two_digits, split.
  assert (∀ n, isspace (48 + (n / 10) mod 10) = false) as Hhi.
  { intros n. apply isspace_digit. pose proof (Z.mod_pos_bound (n / 10) 10). lia. }
  assert (∀ n, isspace (48 + n mod 10) = false) as Hlo.
  { intros n. apply isspace_digit. pose proof (Z.mod_pos_bound n 10). lia. }
  cbn [app str_lit list_ascii_of_string map]. 
  repeat (cbn [split_go app]; rewrite ?Hhi, ?Hlo;
          try change (isspace (Z.of_N (N_of_ascii "-"))) with false;
          try change (isspace (Z.of_N (N_of_ascii ":"))) with false;
          try change (isspace (Z.of_N (N_of_ascii " "))) with true;
          cbv iota).
  reflexivity.
Qed.

Lemma send_queue_print line st : send_queue (print line st) = send_queue st.
Proof. reflexivity. Qed.

Lemma resolve_or_frame iface fallback from_id st :
  let st' := (resolve_or iface fallback from_id st).2 in
  send_queue st' = send_queue st ∧ pending_acks st' = pending_acks st
  ∧ stdout st' = stdout st.
Proof. unfold resolve_or. by destruct (int_truthy from_id). Qed.
End Handler.

Section HandlerQueue.
Context `{Unicode}.

(** What the text branch does to the queue, the registry and the log. *)
Lemma on_receive_text_effect iface clk packet st :
  let st' := on_receive_text iface clk packet st in
  pending_acks st' = pending_acks st
  ∧ (if re_search_markers (strip (pk_payload packet)) then
       match put_nowait (send_queue st) (auto_reply_task iface clk packet st) with
       | Some q => send_queue st' = q
       | None => send_queue st' = send_queue st
                 ∧ last (stdout st') = Some (auto_reply_full_message clk)
       end
     else send_queue st' = send_queue st).
Proof.
  unfold on_receive_text, auto_reply_task, sender_of, private_message.
  set (from_id := normalize_node_id (py_or (pk_fromId packet) (pk_from packet))).
  pose proof (resolve_or_frame iface (str_lit "unknown", []) from_id st) as Hframe.
  destruct (resolve_or iface (str_lit "unknown", []) from_id st)
    as [[name display] st1] eqn:Hres.
  cbn [fst snd] in Hframe |- *. destruct Hframe as (Hq & Hacks & _).
  rewrite split_ts. cbn [lookup list_lookup].
  set (private := is_private_to (normalize_node_id (pk_to packet)) (my_node_num iface)).
  set (st2 := print _ (if private then print _ st1 else print _ st1)).
  assert (send_queue st2 = send_queue st ∧ pending_acks st2 = pending_acks st)
    as [Hq2 Hacks2].
  { subst st2. destruct private; simpl; by rewrite Hq, Hacks. }
  clearbody st2.
  destruct (re_search_markers (strip (pk_payload packet))).
  - rewrite Hq2.
    destruct (put_nowait (send_queue st) _) as [q|]; simpl.
    + by rewrite Hacks2.
    + rewrite Hacks2, Hq2. split_and!; try done. by rewrite last_snoc.
  - by rewrite Hq2, Hacks2.
Qed.

(** "ping test" matches the marker pattern whatever the tables are. *)
Lemma ping_test_matches : re_search_markers (strip (str_lit "ping test")) = true.
Proof.
  assert (strip (str_lit "ping test") = str_lit "ping test") as -> by reflexivity.
  unfold re_search_markers. cbn [search_from str_lit list_ascii_of_string map].
  apply orb_true_iff. left. unfold match_here.
  apply andb_true_iff. split; [reflexivity|].
  apply existsb_exists. exists (str_lit "ping"). split; [|reflexivity].
  unfold markers. right. right. right. left. reflexivity.
Qed.

(** The Cyrillic marker matches itself once the tables know its
    letters as letters. *)
Lemma cyrillic_marker_matches :
  (∀ c, c ∈ [0x442; 0x435; 0x441] → uc_isalnum c = true ∧ uc_ieq c c = true) →
  re_search_markers [0x442; 0x435; 0x441; 0x442] = true.
Proof.
  intros Htab.
  assert (∀ c, c ∈ [0x442; 0x435; 0x441] → is_word c = true ∧ char_ieq c c = true)
    as Hc.
  { intros c Hin. destruct (Htab c Hin) as [Ha Hi].
    apply elem_of_cons in Hin as [->|Hin]; [by split|].
    apply elem_of_cons in Hin as [->|Hin]; [by split|].
    apply list_elem_of_singleton in Hin as ->. by split. }
  destruct (Hc 0x442) as [Hw1 Hi1]; [apply elem_of_cons; by left|].
  destruct (Hc 0x435) as [_ Hi2]; [apply elem_of_cons; right; apply elem_of_cons; by left|].
  destruct (Hc 0x441) as [_ Hi3].
  { do 2 (apply elem_of_cons; right). by apply list_elem_of_singleton. }
  unfold re_search_markers. cbn [search_from].
  apply orb_true_iff. left. unfold match_here.
  apply andb_true_iff. split.
  - unfold at_boundary. simpl. by rewrite Hw1.
  - apply existsb_exists. exists [0x442; 0x435; 0x441; 0x442]. split.
    + unfold markers. right. right. left. reflexivity.
    + cbn [match_literal]. rewrite Hi1, Hi2, Hi3.
      unfold at_boundary. simpl. by rewrite Hw1.
Qed.

Lemma on_receive_text_port iface clk packet st :
  pk_portnum packet = PyStr (str_lit "TEXT_MESSAGE_APP") →
  on_receive iface clk packet st = on_receive_text iface clk packet st.
Proof.
  intros Hport. unfold on_receive. rewrite Hport.
  rewrite decide_False by discriminate. by rewrite decide_True.
Qed.
End HandlerQueue.

(** ** The send queue *)

Lemma put_nowait_full (q : list task) t :
  (SEND_QUEUE_MAXSIZE ≤ length q)%nat → put_nowait q t = None.
Proof. intros Hfull. unfold put_nowait. by rewrite decide_True. Qed.

Lemma put_nowait_room (q : list task) t :
  (length q < SEND_QUEUE_MAXSIZE)%nat → put_nowait q t = Some (q ++ [t]).
Proof. intros Hroom. unfold put_nowait. rewrite decide_False; [done | lia]. Qed.

(** C5. For a text message whose stripped payload matches the marker
    pattern, [on_receive] offers exactly one task to the send queue,
    without waiting: its acknowledgment flag is off and its
    destination is the sender if the message was classified private
    and absent (broadcast) otherwise.  With room in the queue the task
    becomes its last element; with the queue full the queue is left as
    it was and the last line printed reports the dropped reply.  A
    payload that does not match leaves the queue as it was.  "ping
    test" matches. *)
Theorem auto_reply_on_marker :
  ∀ (U : Unicode) iface clk packet st,
    pk_portnum packet = PyStr (str_lit "TEXT_MESSAGE_APP") →
    let st' := on_receive iface clk packet st in
    let reply := auto_reply_task iface clk packet st in
    reply.2 = false
    ∧ reply.1.2 = (if private_message iface packet then sender_of packet else None)
    ∧ (re_search_markers (strip (pk_payload packet)) = true →
       (length (send_queue st) < SEND_QUEUE_MAXSIZE)%nat →
       send_queue st' = send_queue st ++ [reply])
    ∧ (re_search_markers (strip (pk_payload packet)) = true →
       (SEND_QUEUE_MAXSIZE ≤ length (send_queue st))%nat →
       send_queue st' = send_queue st
       ∧ last (stdout st') = Some (auto_reply_full_message clk))
    ∧ (re_search_markers (strip (pk_payload packet)) = false →
       send_queue st' = send_queue st)
    ∧ re_search_markers (strip (str_lit "ping test")) = true.
Proof.
  intros U iface clk packet st Hport st' reply. subst st'.
  rewrite on_receive_text_port by done.
  destruct (on_receive_text_effect iface clk packet st) as [_ Heff].
  split_and!; try reflexivity.
  - intros Hmatch Hroom. rewrite Hmatch in Heff.
    by rewrite put_nowait_room in Heff.
  - intros Hmatch Hfull. rewrite Hmatch in Heff.
    by rewrite put_nowait_full in Heff.
  - intros Hno. by rewrite Hno in Heff.
  - apply ping_test_matches.
Qed.

Lemma auto_reply_on_marker_witness :
  send_queue (@on_receive ascii_only sample_interface sample_clock sample_packet
                empty_state)
  = [([0x2705] ++ str_lit " AR-ACK [16:43] RVR (@!aabbcc01, " ++ [0x1F4F6]
        ++ str_lit "RSSI=-80, SNR=6.25, hops=1)",
      Some 0xAABBCC01, false)].
Proof.
  pose proof (auto_reply_on_marker ascii_only sample_interface sample_clock
                sample_packet empty_state eq_refl) as Hw.
  cbv zeta in Hw. destruct Hw as (_ & _ & -> & _).
  - vm_compute. reflexivity.
  - vm_compute. reflexivity.
  - vm_compute. lia.
Defined.

(** C8. The send queue holds at most 30 tasks and [put_nowait] never
    waits: on a full queue it answers [Full] at once and the queue
    keeps its contents, otherwise the task becomes the last element.
    Both callers take the [Full] answer without failing: the input
    loop and the automatic reply each print their report of the drop
    and leave the queue as it was. *)
Theorem put_nowait_full_is_reported :
  SEND_QUEUE_MAXSIZE = 30%nat
  ∧ (∀ (q : list task) t,
       (SEND_QUEUE_MAXSIZE ≤ length q)%nat → put_nowait q t = None)
  ∧ (∀ (q : list task) t,
       (length q < SEND_QUEUE_MAXSIZE)%nat → put_nowait q t = Some (q ++ [t]))
  ∧ (∀ clk text dest_id st,
       (SEND_QUEUE_MAXSIZE ≤ length (send_queue st))%nat →
       let st' := input_loop_submit clk text dest_id st in
       send_queue st' = send_queue st
       ∧ stdout st' = stdout st ++ [queue_full_message clk])
  ∧ (∀ (U : Unicode) iface clk packet st,
       pk_portnum packet = PyStr (str_lit "TEXT_MESSAGE_APP") →
       re_search_markers (strip (pk_payload packet)) = true →
       (SEND_QUEUE_MAXSIZE ≤ length (send_queue st))%nat →
       let st' := on_receive iface clk packet st in
       send_queue st' = send_queue st
       ∧ last (stdout st') = Some (auto_reply_full_message clk)).
Proof.
  split_and!.
  - reflexivity.
  - apply put_nowait_full.
  - apply put_nowait_room.
  - intros clk text dest_id st Hfull st'. subst st'. unfold input_loop_submit.
    by rewrite put_nowait_full.
  - intros U iface clk packet st Hport Hmatch Hfull st'. subst st'.
    rewrite on_receive_text_port by done.
    destruct (on_receive_text_effect iface clk packet st) as [_ Heff].
    rewrite Hmatch in Heff. by rewrite put_nowait_full in Heff.
Qed.

Lemma put_nowait_full_is_reported_witness :
  send_queue (input_loop_submit sample_clock (str_lit "hi") None full_queue_state)
  = send_queue full_queue_state
  ∧ send_queue (@on_receive ascii_only sample_interface sample_clock sample_packet
                  full_queue_state)
    = send_queue full_queue_state.
Proof.
  split.
  - apply (proj1 (proj2 (proj2 (proj2 put_nowait_full_is_reported)))
             sample_clock (str_lit "hi") None full_queue_state).
    vm_compute. lia.
  - apply (proj2 (proj2 (proj2 (proj2 put_nowait_full_is_reported)))
             ascii_only sample_interface sample_clock sample_packet full_queue_state).
    + reflexivity.
    + vm_compute. reflexivity.
    + vm_compute. lia.
Defined.

(** ** Concurrent calls on the registry *)

Lemma lookup_insert_cases (l : list thread) i j t' tj :
  <[i := t']> l !! j = Some tj → (j = i ∧ tj = t') ∨ (j ≠ i ∧ l !! j = Some tj).
Proof.
  intros Hl. apply list_lookup_insert_Some in Hl as [(-> & -> & _) | [Hne Hl]].
  - by left.
  - right. split; [congruence | done].
Qed.

(** The invariant is kept when one thread moves, provided the move
    respects the lock and accounts for what it takes out of the
    registry. *)
Lemma lock_invariant_update w i t lock' (acks' : registry) t' :
  lock_invariant w →
  w_threads w !! i = Some t →
  dict_wf acks' →
  dict_keys acks' ⊆ dict_keys (w_acks w) →
  (holds_lock t = false → w_lock w = false) →
  (holds_lock t' = true → lock' = true) →
  (∀ k, k ∈ removed_ids t' →
        k ∈ removed_ids t ∨ (k ∈ dict_keys (w_acks w) ∧ k ∉ dict_keys acks')) →
  NoDup (removed_ids t') →
  (∀ now items expired,
     t' = SweepLoop now items expired →
     NoDup items.*1 ∧ items.*1 ⊆ dict_keys acks') →
  lock_invariant {| w_lock := lock'; w_acks := acks';
                    w_threads := <[i := t']> (w_threads w) |}.
Proof.
  intros Hinv Hi Hwf Hsub Henter Hheld Hrem Hnodup Hitems.
  assert (∀ j tj, j ≠ i → w_threads w !! j = Some tj → holds_lock tj = false)
    as Hothers.
  { intros j tj Hne Hj. destruct (holds_lock tj) eqn:Hh; [|done]. exfalso.
    destruct (holds_lock t) eqn:Ht.
    - apply Hne. by apply (inv_excl w Hinv j i tj t).
    - pose proof (inv_lock w Hinv j tj Hj Hh). rewrite Henter in *; done. }
  split; simpl.
  - done.
  - intros j tj Hj Hh. apply lookup_insert_cases in Hj as [[-> ->] | [Hne Hj]].
    + by apply Hheld.
    + rewrite (Hothers j tj Hne Hj) in Hh. done.
  - intros j1 j2 t1 t2 H1 H2 Hh1 Hh2.
    apply lookup_insert_cases in H1 as [[-> ->] | [Hne1 H1]];
      apply lookup_insert_cases in H2 as [[-> ->] | [Hne2 H2]]; try done.
    + rewrite (Hothers j2 t2 Hne2 H2) in Hh2. done.
    + rewrite (Hothers j1 t1 Hne1 H1) in Hh1. done.
    + rewrite (Hothers j1 t1 Hne1 H1) in Hh1. done.
  - intros j tj k Hj Hk Hin. apply lookup_insert_cases in Hj as [[-> ->] | [Hne Hj]].
    + destruct (Hrem k Hk) as [Hold | [_ Hnot]]; [|done].
      apply (inv_gone w Hinv i t k Hi Hold). by apply Hsub.
    + apply (inv_gone w Hinv j tj k Hj Hk). by apply Hsub.
  - intros j1 j2 t1 t2 k Hne H1 H2 Hk1 Hk2.
    apply lookup_insert_cases in H1 as [[-> ->] | [Hne1 H1]];
      apply lookup_insert_cases in H2 as [[-> ->] | [Hne2 H2]]; try done.
    + destruct (Hrem k Hk1) as [Hold | [Hin _]].
      * by apply (inv_once w Hinv i j2 t t2 k).
      * by apply (inv_gone w Hinv j2 t2 k H2 Hk2).
    + destruct (Hrem k Hk2) as [Hold | [Hin _]].
      * by apply (inv_once w Hinv j1 i t1 t k).
      * by apply (inv_gone w Hinv j1 t1 k H1 Hk1).
    + by apply (inv_once w Hinv j1 j2 t1 t2 k).
  - intros j tj Hj. apply lookup_insert_cases in Hj as [[-> ->] | [Hne Hj]].
    + done.
    + by apply (inv_nodup w Hinv j tj).
  - intros j now items expired Hj.
    apply lookup_insert_cases in Hj as [[-> Heq] | [Hne Hj]].
    + by apply (Hitems now items expired).
    + by pose proof (Hothers j _ Hne Hj).
Qed.

Lemma sched_step_invariant i w w' :
  lock_invariant w → sched_step i w = Some w' → lock_invariant w'.
Proof.
  intros Hinv Hstep. unfold sched_step in Hstep.
  destruct (w_threads w !! i) as [t|] eqn:Hi; [|done].
  destruct (thread_step (w_lock w) (w_acks w) t) as [[[lock' acks'] t']|] eqn:Hts;
    [|done].
  injection Hstep as <-.
  pose proof (inv_wf w Hinv) as Hwf.
  destruct t as [k|k|k e|k e|now|now|now items expired|expired]; simpl in Hts.
  - (* entering the block of [complete] *)
    destruct (w_lock w) eqn:Hl; [done|]. injection Hts as <- <- <-.
    apply (lock_invariant_update w i (CompleteCall k)); try done.
    + intros x Hx. by apply elem_of_nil in Hx.
    + apply NoDup_nil_2.
  - (* the pop *)
    injection Hts as <- <- <-.
    apply (lock_invariant_update w i (CompleteLocked k)); try done.
    + by apply dict_del_wf.
    + apply dict_keys_del_subseteq.
    + intros _. by apply (inv_lock w Hinv i _ Hi).
    + intros x Hx. right. unfold removed_ids in Hx. simpl in Hx.
      destruct (dict_get k (w_acks w)) as [e|] eqn:Hget; simpl in Hx;
        [|by apply elem_of_nil in Hx].
      apply list_elem_of_singleton in Hx as ->. split.
      * destruct (decide (k ∈ dict_keys (w_acks w))) as [?|Hnot]; [done|].
        apply dict_get_None in Hnot. congruence.
      * by apply dict_keys_del_notin.
    + unfold removed_ids. simpl. destruct (dict_get k (w_acks w)); simpl.
      * apply NoDup_singleton.
      * apply NoDup_nil_2.
  - (* leaving the block of [complete] *)
    injection Hts as <- <- <-.
    apply (lock_invariant_update w i (CompletePopped k e)); try done.
    + intros x Hx. by left.
    + by apply (inv_nodup w Hinv i _ Hi).
  - done.
  - (* entering the block of the sweep *)
    destruct (w_lock w) eqn:Hl; [done|]. injection Hts as <- <- <-.
    apply (lock_invariant_update w i (SweepCall now)); try done.
    + intros x Hx. by apply elem_of_nil in Hx.
    + apply NoDup_nil_2.
  - (* the snapshot *)
    injection Hts as <- <- <-.
    apply (lock_invariant_update w i (SweepLocked now)); try done.
    + intros _. by apply (inv_lock w Hinv i _ Hi).
    + intros x Hx. by apply elem_of_nil in Hx.
    + apply NoDup_nil_2.
    + intros now' items expired [= <- <- <-]. done.
  - (* one item of the snapshot, or leaving the block *)
    destruct (inv_items w Hinv i now items expired Hi) as [Hnd Hsub].
    pose proof (inv_nodup w Hinv i _ Hi) as Hnd_removed.
    destruct items as [|[rid [t0 dest]] rest].
    { injection Hts as <- <- <-.
      apply (lock_invariant_update w i (SweepLoop now [] expired)); try done.
      intros x Hx. by left. }
    simpl in Hnd. apply NoDup_cons in Hnd as [Hrid Hnd].
    assert (rid ∈ dict_keys (w_acks w)) as Hrid_in.
    { apply Hsub. simpl. apply elem_of_cons. by left. }
    assert (∀ x, x ∈ rest.*1 → x ∈ dict_keys (w_acks w)) as Hrest.
    { intros x Hx. apply Hsub. simpl. apply elem_of_cons. by right. }
    destruct (decide (now - t0 > ACK_TIMEOUT)); injection Hts as <- <- <-.
    + apply (lock_invariant_update w i (SweepLoop now ((rid, (t0, dest)) :: rest) expired));
        try done.
      * by apply dict_del_wf.
      * apply dict_keys_del_subseteq.
      * intros _. by apply (inv_lock w Hinv i _ Hi).
      * intros x Hx. unfold removed_ids in *. simpl in *.
        rewrite fmap_app in Hx. apply elem_of_app in Hx as [Hx|Hx]; [by left|].
        simpl in Hx. apply list_elem_of_singleton in Hx as ->. right.
        split; [done | by apply dict_keys_del_notin].
      * unfold removed_ids in *. simpl in *. rewrite fmap_app. simpl.
        apply NoDup_app. split_and!; [done | | apply NoDup_singleton].
        intros x Hx Hx'. apply list_elem_of_singleton in Hx' as ->.
        by apply (inv_gone w Hinv i _ rid Hi).
      * intros now' items' expired' [= <- <- <-]. split; [done|].
        intros x Hx. apply dict_keys_del_other; [|by apply Hrest].
        intros ->. done.
    + apply (lock_invariant_update w i (SweepLoop now ((rid, (t0, dest)) :: rest) expired));
        try done.
      * intros _. by apply (inv_lock w Hinv i _ Hi).
      * intros x Hx. by left.
      * intros now' items' expired' [= <- <- <-]. split; [done|].
        intros x Hx. by apply Hrest.
  - done.
Qed.

Lemma lock_invariant_initial (acks : registry) threads :
  dict_wf acks → Forall (λ t, is_call t = true) threads →
  lock_invariant {| w_lock := false; w_acks := acks; w_threads := threads |}.
Proof.
  intros Hwf Hcalls.
  assert (∀ i t, threads !! i = Some t → is_call t = true) as Hc.
  { intros i t Hi. by apply (Forall_lookup_1 _ _ _ _ Hcalls Hi). }
  split; simpl.
  - done.
  - intros i t Hi Hh. apply Hc in Hi. by destruct t.
  - intros i j ti tj Hi _ Hh. apply Hc in Hi. by destruct ti.
  - intros i t k Hi Hk. apply Hc in Hi. destruct t; try done; by apply elem_of_nil in Hk.
  - intros i j ti tj k _ Hi _ Hk. apply Hc in Hi.
    destruct ti; try done; by apply elem_of_nil in Hk.
  - intros i t Hi. apply Hc in Hi. destruct t; try done; apply NoDup_nil_2.
  - intros i now items expired Hi. by apply Hc in Hi.
Qed.

Lemma reachable_invariant w w' :
  lock_invariant w → rtc step w w' → lock_invariant w'.
Proof.
  intros Hinv Hsteps. induction Hsteps as [|w1 w2 w3 Hstep _ IH]; [done|].
  apply IH. destruct Hstep as [i w1 w2 Hstep]. by apply (sched_step_invariant i w1).
Qed.

(** Every schedule is an interleaving. *)
Lemma run_reachable schedule w : rtc step w (run schedule w).
Proof.
  revert w. induction schedule as [|i schedule IH]; intros w; [constructor|].
  unfold run. simpl. destruct (sched_step i w) as [w'|] eqn:Hstep; simpl.
  - eapply rtc_l; [by apply (step_at i)|]. apply IH.
  - apply IH.
Qed.

(** Every interleaving is the run of a schedule. *)
Lemma reachable_run w w' : rtc step w w' → ∃ schedule, run schedule w = w'.
Proof.
  intros Hsteps. induction Hsteps as [|w1 w2 w3 Hstep _ [schedule IH]].
  - by exists [].
  - destruct Hstep as [i w1 w2 Hstep]. exists (i :: schedule).
    unfold run in *. simpl. by rewrite Hstep.
Qed.

(** While a thread is inside its block no other thread can move, so
    the block runs as one step of the system. *)
Lemma others_blocked w i j ti :
  lock_invariant w →
  w_threads w !! i = Some ti → holds_lock ti = true → j ≠ i →
  sched_step j w = None.
Proof.
  intros Hinv Hi Hh Hne. unfold sched_step.
  destruct (w_threads w !! j) as [tj|] eqn:Hj; [|done].
  pose proof (inv_lock w Hinv i ti Hi Hh) as Hlock.
  destruct (holds_lock tj) eqn:Hhj.
  { destruct Hne. by apply (inv_excl w Hinv j i tj ti). }
  rewrite Hlock. by destruct tj.
Qed.

(** C2. Start from any registry with any number of [complete] and
    sweep calls about to run, and let them interleave in any way, each
    entering its [with pending_lock] block only while the lock is
    free.  Then in every state reached no request is both matched by a
    [complete] and on the expired list of a sweep; more generally no
    request is removed by two calls or twice by one, what has been
    removed is no longer in the registry, at most one call is inside
    its block, and while one is inside no other call can move. *)
Theorem complete_sweep_exclusive :
  ∀ (acks : registry) threads w,
    dict_wf acks →
    Forall (λ t, is_call t = true) threads →
    rtc step {| w_lock := false; w_acks := acks; w_threads := threads |} w →
    (∀ i j ti tj k,
       w_threads w !! i = Some ti → w_threads w !! j = Some tj →
       k ∈ matched_ids ti → k ∈ expired_ids tj → False)
    ∧ (∀ i j ti tj k,
         i ≠ j → w_threads w !! i = Some ti → w_threads w !! j = Some tj →
         k ∈ removed_ids ti → k ∈ removed_ids tj → False)
    ∧ (∀ i t, w_threads w !! i = Some t → NoDup (removed_ids t))
    ∧ (∀ i t k, w_threads w !! i = Some t → k ∈ removed_ids t →
                k ∉ dict_keys (w_acks w))
    ∧ (∀ i j ti tj,
         w_threads w !! i = Some ti → w_threads w !! j = Some tj →
         holds_lock ti = true → holds_lock tj = true → i = j)
    ∧ (∀ i j ti,
         w_threads w !! i = Some ti → holds_lock ti = true → j ≠ i →
         sched_step j w = None).
Proof.
  intros acks threads w Hwf Hcalls Hsteps.
  pose proof (reachable_invariant _ _ (lock_invariant_initial acks threads Hwf Hcalls)
                Hsteps) as Hinv.
  split_and!.
  - intros i j ti tj k Hi Hj Hm He. destruct (decide (i = j)) as [->|Hne].
    + rewrite Hi in Hj. injection Hj as <-.
      destruct ti as [| | ? [?|] | ? [?|] | | | |]; simpl in *;
        first [by apply elem_of_nil in Hm | by apply elem_of_nil in He].
    + apply (inv_once w Hinv i j ti tj k Hne Hi Hj); unfold removed_ids.
      * apply elem_of_app. by left.
      * apply elem_of_app. by right.
  - apply (inv_once w Hinv).
  - apply (inv_nodup w Hinv).
  - apply (inv_gone w Hinv).
  - apply (inv_excl w Hinv).
  - intros i j ti. by apply others_blocked.
Qed.

Lemma complete_sweep_exclusive_witness :
  (* the sweep gets there first: the request is reported expired only *)
  w_threads (run [1; 1; 0; 1; 1; 1; 0; 0; 0]%nat race_start)
  = [CompleteDone 1 None; SweepDone [(1, None)]]
  (* the [complete] gets there first: the request is matched only *)
  ∧ w_threads (run [0; 1; 0; 1; 0; 1; 1; 1; 1]%nat race_start)
    = [CompleteDone 1 (Some (0, None)); SweepDone []]
  ∧ ∀ schedule i j ti tj k,
      w_threads (run schedule race_start) !! i = Some ti →
      w_threads (run schedule race_start) !! j = Some tj →
      k ∈ matched_ids ti → k ∈ expired_ids tj → False.
Proof.
  split_and!.
  - vm_compute. reflexivity.
  - vm_compute. reflexivity.
  - intros schedule.
    apply (complete_sweep_exclusive [(1, (0, None)); (2, (100, Some 5))]
             [CompleteCall 1; SweepCall 50] (run schedule race_start)).
    + dict_wf_literal.
    + repeat constructor.
    + apply run_reachable.
Defined.

(** * Further properties *)

(** ** Identifiers written in hexadecimal and read back *)

Lemma lower_hex_char_hex c : lower_hex_char c = true → hex_char c = true.
Proof.
  unfold lower_hex_char, hex_char. intros [->| ->]%orb_true_iff; [done|].
  by rewrite orb_true_r.
Qed.

Lemma hex_value_app h c :
  hex_value (h ++ [c])
  = hex_value h * 16 + (if between 48 57 c then c - 48
                        else if between 97 102 c then c - 87 else c - 55).
Proof. unfold hex_value. by rewrite foldl_app. Qed.

Lemma hex_value_digit_char d :
  0 ≤ d < 16 →
  (if between 48 57 (digit_char d) then digit_char d - 48
   else if between 97 102 (digit_char d) then digit_char d - 87
   else digit_char d - 55) = d.
Proof.
  intros Hd. unfold digit_char, between. destruct (Z.ltb_spec d 10).
  - replace ((48 <=? 48 + d) && (48 + d <=? 57)) with true; [lia|].
    symmetry. apply andb_true_iff. split; apply Z.leb_le; lia.
  - replace ((48 <=? 87 + d) && (87 + d <=? 57)) with false.
    2:{ symmetry. apply andb_false_iff. right. apply Z.leb_gt. lia. }
    replace ((97 <=? 87 + d) && (87 + d <=? 102)) with true; [lia|].
    symmetry. apply andb_true_iff. split; apply Z.leb_le; lia.
Qed.

(** With enough fuel the digits produced denote the number. *)
Lemma to_base16_value fuel n :
  0 ≤ n < 2 ^ Z.of_nat fuel → hex_value (to_base 16 fuel n) = n.
Proof.
  revert n. induction fuel as [|fuel IH]; intros n Hn.
  - simpl in *. assert (n = 0) as -> by lia. reflexivity.
  - cbn [to_base]. destruct (Z.ltb_spec n 16) as [Hlt|Hge].
    + change [digit_char n] with ([] ++ [digit_char n]).
      rewrite hex_value_app, hex_value_digit_char by lia. reflexivity.
    + rewrite hex_value_app.
      rewrite hex_value_digit_char by (apply Z.mod_pos_bound; lia).
      rewrite IH.
      * pose proof (Z.div_mod n 16). lia.
      * split; [apply Z.div_pos; lia|].
        apply Z.div_lt_upper_bound; [lia|].
        rewrite Nat2Z.inj_succ, Z.pow_succ_r in Hn by lia. lia.
Qed.

Lemma digits16_value n : 0 ≤ n → hex_value (digits 16 n) = n.
Proof.
  intros Hn. unfold digits. apply to_base16_value. split; [done|].
  rewrite Nat2Z.inj_succ, Z2Nat.id by apply Z.log2_nonneg.
  destruct (decide (n = 0)) as [->|Hne]; [done|].
  apply Z.log2_spec. lia.
Qed.

Lemma digits_nonempty b n : digits b n ≠ [].
Proof.
  unfold digits. cbn [to_base]. destruct (n <? b); [done|].
  intros Heq. by apply app_eq_nil in Heq as [_ ?].
Qed.

Lemma digits16_hex n : 0 ≤ n → forallb hex_char (digits 16 n) = true.
Proof.
  intros Hn. apply forallb_forall. intros c Hc. apply lower_hex_char_hex.
  pose proof (to_base_hex (S (Z.to_nat (Z.log2 n))) n Hn) as Hall.
  rewrite Forall_forall in Hall. apply Hall. by apply list_elem_of_In.
Qed.

Lemma hex_value_zeros k h : hex_value (replicate k 48 ++ h) = hex_value h.
Proof.
  unfold hex_value. rewrite foldl_app.
  assert (foldl (λ acc c, acc * 16 + (if between 48 57 c then c - 48
                                       else if between 97 102 c then c - 87 else c - 55))
                0 (replicate k 48) = 0) as ->; [|done].
  induction k as [|k IH]; [done|]. simpl. exact IH.
Qed.

Lemma forallb_hex_zeros k h :
  forallb hex_char h = true → forallb hex_char (replicate k 48 ++ h) = true.
Proof.
  intros Hh. rewrite forallb_app, Hh, andb_true_r.
  induction k as [|k IH]; [done|]. simpl. exact IH.
Qed.

Section HexRoundTrip.
Context `{Unicode}.

Ltac hex_cases' c Hc :=
  apply hex_char_cases in Hc;
  repeat (destruct Hc as [Hc|Hc]; [subst c|]); [..|subst c].

(** [int("-" + h, 16)] of a non-empty string of hexadecimal digits. *)
Lemma int16_minus_hex h :
  h ≠ [] → forallb hex_char h = true → int16 (45 :: h) = Some (- hex_value h).
Proof.
  intros Hne Hh. unfold int16.
  change (map to_ascii (45 :: h)) with (45 :: map to_ascii h).
  rewrite map_to_ascii_hex by done.
  pose proof (scan_digits_hex h 0 0 Hh) as Hscan.
  destruct h as [|c h]; [done|]. clear Hne.
  simpl in Hh. apply andb_true_iff in Hh as [Hc Hh].
  assert (∃ m, (0 + length (c :: h))%nat = S m) as [m Hm] by (simpl; eauto).
  rewrite Hm in Hscan.
  destruct h as [|x h].
  - clear Hh. hex_cases' c Hc; cbn -[scan_digits]; rewrite Hscan; reflexivity.
  - simpl in Hh. apply andb_true_iff in Hh as [Hx Hh].
    destruct (decide (c = 48)) as [->|Hc48].
    + hex_cases' x Hx; cbn -[scan_digits]; rewrite Hscan; reflexivity.
    + hex_cases' c Hc; try done; cbn -[scan_digits]; rewrite Hscan; reflexivity.
Qed.

(** What [format(n, "08x")] writes, [int(..., 16)] reads back. *)
Lemma int16_format_08x n : int16 (format_08x n) = Some n.
Proof.
  unfold format_08x. destruct (Z.ltb_spec n 0) as [Hneg|Hpos].
  - change (str_lit "-" ++ ?l) with (45 :: l).
    rewrite int16_minus_hex.
    + rewrite hex_value_zeros, digits16_value by lia. f_equal. lia.
    + intros Heq. apply app_eq_nil in Heq as [_ Heq]. by apply digits_nonempty in Heq.
    + apply forallb_hex_zeros. apply digits16_hex. lia.
  - cbn [app]. rewrite int16_hex.
    + rewrite hex_value_zeros, digits16_value by lia. f_equal. lia.
    + intros Heq. apply app_eq_nil in Heq as [_ Heq]. by apply digits_nonempty in Heq.
    + apply forallb_hex_zeros. apply digits16_hex. lia.
Qed.
End HexRoundTrip.

Section HexKey.
Context `{Unicode}.

Lemma normalize_hex_key n : normalize_node_id (PyStr (hex_key_of n)) = Some n.
Proof.
  unfold hex_key_of. change (str_lit "!" ++ ?l) with (33 :: l).
  rewrite normalize_node_id_bang. apply int16_format_08x.
Qed.

Lemma resolve_node_hex_key nodes_snapshot n :
  resolve_node nodes_snapshot (hex_key_of n) = Some n.
Proof.
  unfold resolve_node, hex_key_of.
  change (str_lit "!" ++ ?l) with (33 :: l). cbn [startswith str_lit].
  change (startswith _ _) with true. cbn [andb drop]. apply int16_format_08x.
Qed.
End HexKey.

(** X1. The key "!xxxxxxxx" that [get_name_and_id] writes for a node,
    and shows after "@" in every label, reads back as that node: both
    [normalize_node_id] and [resolve_node] return the identifier it was
    made from, for every integer and whatever the directory holds.  So
    the fallback name of a node the directory does not know addresses
    that node. *)
Theorem hex_key_round_trip :
  ∀ (U : Unicode) (n : Z),
    normalize_node_id (PyStr (hex_key_of n)) = Some n
    ∧ (∀ nodes_snapshot, resolve_node nodes_snapshot (hex_key_of n) = Some n)
    ∧ (∀ iface (cache : gmap Z pystr) nodes_snapshot,
         cache !! n = None →
         str_truthy (short_name_of (nodes iface !! inl n)) = false →
         str_truthy (short_name_of (nodes iface !! inr (hex_key_of n))) = false →
         resolve_node nodes_snapshot (res_name (get_name_and_id iface cache (PyInt n)))
         = Some n).
Proof.
  intros U n. split_and!.
  - apply normalize_hex_key.
  - intros snap. apply resolve_node_hex_key.
  - intros iface cache snap Hmiss Hint Hhex.
    rewrite (get_name_and_id_miss _ _ _ Hmiss). cbn [res_name].
    unfold directory_label. rewrite Hint, Hhex. apply resolve_node_hex_key.
Qed.

Lemma hex_key_round_trip_witness :
  @resolve_node ascii_only []
    (res_name (get_name_and_id {| nodes := ∅; my_node_num := None |} ∅ (PyInt (-5))))
  = Some (-5).
Proof.
  apply (proj2 (proj2 (hex_key_round_trip ascii_only (-5)))).
  - apply lookup_empty.
  - reflexivity.
  - reflexivity.
Defined.

Section ResolveNode.
Context `{Unicode}.

Lemma resolve_scan_usable token snap :
  resolve_scan token snap = head (usable_matches token snap).
Proof.
  unfold usable_matches. induction snap as [|[nid nd] snap IH]; [done|].
  cbn [resolve_scan omap list_omap fst snd].
  destruct (bool_decide (short_name_of (Some nd) = Some token)); [|exact IH].
  destruct nid as [n|s]; cbn [key_value normalize_node_id]; [done|].
  destruct (startswith (str_lit "!") s); [|exact IH].
  destruct (int16 (drop 1 s)); [done | exact IH].
Qed.

Lemma resolve_node_name token snap :
  startswith (str_lit "!") token = false →
  resolve_node snap token = head (usable_matches token snap).
Proof. intros Hbang. unfold resolve_node. rewrite Hbang. apply resolve_scan_usable. Qed.
End ResolveNode.

(** X2. For a token that does not start with "!", [resolve_node]
    returns the identifier of the first node, in the order of the
    directory, that carries the token as its short name and whose key
    [normalize_node_id] can read; nodes with an unreadable key are
    passed over, and the answer is [None] exactly when no such node
    exists.  A token that starts with "!" is read as a number and the
    directory is not consulted. *)
Theorem resolve_node_first_usable :
  ∀ (U : Unicode) nodes_snapshot token,
    (startswith (str_lit "!") token = false →
     resolve_node nodes_snapshot token = head (usable_matches token nodes_snapshot)
     ∧ (resolve_node nodes_snapshot token = None ↔
        ∀ nid nd, (nid, nd) ∈ nodes_snapshot →
                  short_name_of (Some nd) = Some token →
                  normalize_node_id (key_value nid) = None)
     ∧ (∀ n, resolve_node nodes_snapshot token = Some n →
             ∃ nid nd, (nid, nd) ∈ nodes_snapshot
                       ∧ short_name_of (Some nd) = Some token
                       ∧ normalize_node_id (key_value nid) = Some n))
    ∧ (startswith (str_lit "!") token = true →
       ∀ other_snapshot,
         resolve_node nodes_snapshot token = resolve_node other_snapshot token).
Proof.
  intros U snap token. split.
  - intros Hbang. unfold resolve_node. rewrite Hbang, resolve_scan_usable.
    split_and!; [done | |].
    + rewrite head_None. unfold usable_matches. split.
      * intros Hnil nid nd Hin Hname.
        destruct (normalize_node_id (key_value nid)) as [n|] eqn:Hkey; [|done].
        assert (n ∈ omap (λ item : nodes_key * node,
                   if bool_decide (short_name_of (Some item.2) = Some token)
                   then normalize_node_id (key_value item.1) else None) snap) as Hn.
        { apply list_elem_of_omap. exists (nid, nd). split; [done|].
          cbn [fst snd]. by rewrite bool_decide_true. }
        rewrite Hnil in Hn. by apply elem_of_nil in Hn.
      * intros Hnone. destruct (omap _ snap) as [|n l] eqn:Ho; [done|]. exfalso.
        assert (n ∈ n :: l) as Hn by (apply elem_of_cons; by left).
        rewrite <- Ho in Hn. apply list_elem_of_omap in Hn as ([nid nd] & Hin & Hsome).
        cbn [fst snd] in Hsome. case_bool_decide as Hname; [|done].
        rewrite (Hnone nid nd Hin Hname) in Hsome. done.
    + intros n Hhead. apply head_Some_elem_of in Hhead.
      apply list_elem_of_omap in Hhead as ([nid nd] & Hin & Hsome).
      cbn [fst snd] in Hsome. case_bool_decide as Hname; [|done]. eauto.
  - intros Hbang other. unfold resolve_node. by rewrite Hbang.
Qed.

Lemma resolve_node_first_usable_witness :
  @resolve_node ascii_only
    [(inr (str_lit "!zz"), {| user := Some {| shortName := Some (str_lit "RVR") |} |});
     (inr (str_lit "!aabbcc01"), {| user := Some {| shortName := Some (str_lit "RVR") |} |});
     (inl 7, {| user := Some {| shortName := Some (str_lit "RVR") |} |})]
    (str_lit "RVR")
  = Some 0xAABBCC01.
Proof.
  rewrite (proj1 (proj1 (resolve_node_first_usable ascii_only _ (str_lit "RVR")) eq_refl)).
  vm_compute. reflexivity.
Defined.

Lemma head_all_equal {A} (l : list A) x :
  l ≠ [] → (∀ y, y ∈ l → y = x) → head l = Some x.
Proof.
  destruct l as [|y l]; [done|]. intros _ Hall. simpl. f_equal.
  apply Hall. apply elem_of_cons. by left.
Qed.

(** X3. The name [get_name_and_id] finds in the directory for a node
    leads back to the node: when the name does not start with "!" and
    no other node of the directory carries it, [resolve_node] returns
    the identifier the name was resolved from, whether the directory
    holds the node under its number or under its "!xxxxxxxx" key. *)
Theorem resolved_name_resolves_back :
  ∀ (U : Unicode) iface nodes_snapshot (cache : gmap Z pystr) n,
    snapshot_of iface nodes_snapshot →
    cache !! n = None →
    let label := res_name (get_name_and_id iface cache (PyInt n)) in
    startswith (str_lit "!") label = false →
    (∀ nid nd, (nid, nd) ∈ nodes_snapshot →
               short_name_of (Some nd) = Some label →
               nid = inl n ∨ nid = inr (hex_key_of n)) →
    resolve_node nodes_snapshot label = Some n.
Proof.
  intros U iface snap cache n [Hnd Hmap] Hmiss label Hbang Hunique. subst label.
  rewrite (get_name_and_id_miss _ _ _ Hmiss) in *. cbn [res_name] in *.
  rewrite resolve_node_name by done.
  assert (∃ nid nd, (nid = inl n ∨ nid = inr (hex_key_of n))
                    ∧ (nid, nd) ∈ snap
                    ∧ short_name_of (Some nd) = Some (directory_label iface n))
    as (nid & nd & Hnid & Hin & Hshort).
  { unfold directory_label in *.
    destruct (str_truthy (short_name_of (nodes iface !! inl n))) eqn:Hint.
    - destruct (nodes iface !! inl n) as [nd|] eqn:Hlook; [|done].
      exists (inl n), nd. split_and!; [by left | |].
      + rewrite Hmap in Hlook. by apply elem_of_list_to_map_2 in Hlook.
      + destruct (short_name_of (Some nd)) as [s|]; [done | done].
    - destruct (str_truthy (short_name_of (nodes iface !! inr (hex_key_of n)))) eqn:Hhex.
      + destruct (nodes iface !! inr (hex_key_of n)) as [nd|] eqn:Hlook; [|done].
        exists (inr (hex_key_of n)), nd. split_and!; [by right | |].
        * rewrite Hmap in Hlook. by apply elem_of_list_to_map_2 in Hlook.
        * destruct (short_name_of (Some nd)) as [s|]; [done | done].
      + exfalso. unfold hex_key_of in Hbang. done. }
  assert (∀ nid, nid = inl n ∨ nid = inr (hex_key_of n) →
                 normalize_node_id (key_value nid) = Some n) as Hkey.
  { intros ? [-> | ->]; [done|]. apply normalize_hex_key. }
  apply head_all_equal.
  - intros Hnil.
    assert (n ∈ usable_matches (directory_label iface n) snap) as Hn.
    { apply list_elem_of_omap. exists (nid, nd). split; [done|].
      cbn [fst snd]. rewrite bool_decide_true by done. by apply Hkey. }
    rewrite Hnil in Hn. by apply elem_of_nil in Hn.
  - intros y Hy. apply list_elem_of_omap in Hy as ([nid' nd'] & Hin' & Hsome).
    cbn [fst snd] in Hsome. case_bool_decide as Hname'; [|done].
    rewrite (Hkey nid' (Hunique nid' nd' Hin' Hname')) in Hsome. congruence.
Qed.

Lemma resolved_name_resolves_back_witness :
  @resolve_node ascii_only [(inl 0xAABBCC01,
                             {| user := Some {| shortName := Some (str_lit "RVR") |} |})]
    (res_name (get_name_and_id sample_interface ∅ (PyInt 0xAABBCC01)))
  = Some 0xAABBCC01.
Proof.
  apply (resolved_name_resolves_back ascii_only sample_interface).
  - split.
    + apply NoDup_singleton.
    + unfold sample_interface. cbn [nodes list_to_map foldr]. reflexivity.
  - apply lookup_empty.
  - vm_compute. reflexivity.
  - intros nid nd Hin _. apply list_elem_of_singleton in Hin. left. congruence.
Defined.

(** X4. After [on_node_updated] for a node, the next
    [get_name_and_id] of that node asks the directory again, the
    integer key first, and returns what the directory holds then;
    cached names of other nodes are untouched, and an update that
    names another node, or none, leaves the cached name in place. *)
Theorem invalidate_forces_lookup :
  ∀ iface iface' (cache : gmap Z pystr) n,
    let r1 := get_name_and_id iface cache (PyInt n) in
    let cache1 := on_node_updated (Some n) (res_cache r1) in
    let r2 := get_name_and_id iface' cache1 (PyInt n) in
    head (res_lookups r2) = Some (inl n)
    ∧ res_name r2 = directory_label iface' n
    ∧ res_display r2 = display_of (directory_label iface' n) n
    ∧ (∀ k, k ≠ n → cache1 !! k = res_cache r1 !! k)
    ∧ (∀ nid, nid ≠ Some n →
              on_node_updated nid (res_cache r1) !! n = Some (res_name r1)).
Proof.
  intros iface iface' cache n r1 cache1 r2.
  assert (cache1 !! n = None) as Hgone by apply lookup_delete_eq.
  assert (res_cache r1 !! n = Some (res_name r1)) as Hin.
  { subst r1. destruct (cache !! n) as [name|] eqn:Hn.
    - by rewrite (get_name_and_id_hit _ _ _ _ Hn).
    - rewrite (get_name_and_id_miss _ _ _ Hn). cbn [res_cache res_name].
      apply lookup_insert_eq. }
  subst r2. rewrite (get_name_and_id_miss _ _ _ Hgone). cbn.
  split_and!; try done.
  - by destruct (str_truthy _).
  - intros k Hk. subst cache1. cbn. by rewrite lookup_delete_ne.
  - intros [k|] Hk; cbn; [|done]. rewrite lookup_delete_ne; [done | congruence].
Qed.

Lemma invalidate_forces_lookup_witness :
  let renamed :=
    {| nodes := {[ inl 0xAABBCC01 :=
                     {| user := Some {| shortName := Some (str_lit "NEW") |} |} ]};
       my_node_num := None |} in
  let r1 := get_name_and_id sample_interface ∅ (PyInt 0xAABBCC01) in
  res_name r1 = str_lit "RVR"
  ∧ res_name (get_name_and_id renamed (res_cache r1) (PyInt 0xAABBCC01)) = str_lit "RVR"
  ∧ res_name (get_name_and_id renamed
                (on_node_updated (Some 0xAABBCC01) (res_cache r1)) (PyInt 0xAABBCC01))
    = str_lit "NEW".
Proof.
  intros renamed r1. split_and!.
  - vm_compute. reflexivity.
  - vm_compute. reflexivity.
  - pose proof (proj1 (proj2 (invalidate_forces_lookup sample_interface renamed ∅
                                   0xAABBCC01))) as Hw.
    cbv zeta in Hw. fold r1 in Hw. rewrite Hw. vm_compute. reflexivity.
Defined.

(** ** Successive sweeps and late acknowledgments *)

Lemma entry_expired_mono now now' timeout e :
  now ≤ now' → entry_expired now timeout e → entry_expired now' timeout e.
Proof. unfold entry_expired. lia. Qed.

Lemma filter_kept_twice now now' timeout (r : registry) :
  now ≤ now' →
  filter (λ e, ¬ entry_expired now' timeout e) (filter (λ e, ¬ entry_expired now timeout e) r)
  = filter (λ e, ¬ entry_expired now' timeout e) r.
Proof.
  intros Hle. apply list_filter_filter_l. intros e Hkeep' Hexp.
  apply Hkeep'. by eapply entry_expired_mono.
Qed.

Lemma filter_expired_split now now' timeout (r : registry) :
  now ≤ now' →
  filter (entry_expired now timeout) r
  ++ filter (entry_expired now' timeout) (filter (λ e, ¬ entry_expired now timeout e) r)
  ≡ₚ filter (entry_expired now' timeout) r.
Proof.
  intros Hle.
  rewrite <- (filter_app_complement (entry_expired now timeout)
                (filter (entry_expired now' timeout) r)).
  rewrite (list_filter_filter_l (entry_expired now timeout) (entry_expired now' timeout))
    by (intros e; by apply entry_expired_mono).
  rewrite !list_filter_filter.
  rewrite (list_filter_iff
             (λ e, entry_expired now' timeout e ∧ ¬ entry_expired now timeout e)
             (λ e, ¬ entry_expired now timeout e ∧ entry_expired now' timeout e));
    [done | intros e; tauto].
Qed.

Lemma filter_expired_kept now timeout (r : registry) :
  filter (entry_expired now timeout) (filter (λ e, ¬ entry_expired now timeout e) r) = [].
Proof.
  rewrite list_filter_filter. induction r as [|e r IH]; [done|].
  rewrite filter_cons_False; [done | tauto].
Qed.

(** X5. Two sweeps in a row, the second not earlier than the first,
    report together exactly what one sweep at the later time would
    report, each request once, and leave the registry that single sweep
    would leave; a second sweep at the same time reports nothing. *)
Theorem sweep_reports_once :
  ∀ now now' timeout (r : registry),
    dict_wf r → now ≤ now' →
    let first := sweepExpired now timeout r in
    let second := sweepExpired now' timeout first.2 in
    second.2 = (sweepExpired now' timeout r).2
    ∧ first.1 ++ second.1 ≡ₚ (sweepExpired now' timeout r).1
    ∧ NoDup (first.1 ++ second.1).*1
    ∧ (now' = now → second.1 = []).
Proof.
  intros now now' timeout r Hwf Hle first second.
  pose proof (sweepExpired_wf now timeout r Hwf) as Hwf1.
  subst second first.
  rewrite (sweepExpired_spec now' timeout _ Hwf1).
  rewrite (sweepExpired_spec now timeout r Hwf).
  rewrite (sweepExpired_spec now' timeout r Hwf). cbn [fst snd].
  assert (((λ e : Z * pending_ack, (e.1, e.2.2)) <$> filter (entry_expired now timeout) r)
          ++ ((λ e : Z * pending_ack, (e.1, e.2.2))
                <$> filter (entry_expired now' timeout)
                      (filter (λ e, ¬ entry_expired now timeout e) r))
          ≡ₚ (λ e : Z * pending_ack, (e.1, e.2.2)) <$> filter (entry_expired now' timeout) r)
    as Hperm.
  { rewrite <- fmap_app. by rewrite filter_expired_split. }
  split_and!.
  - by apply filter_kept_twice.
  - exact Hperm.
  - rewrite Hperm. rewrite <- list_fmap_compose.
    unfold dict_wf, dict_keys in Hwf.
    eapply sublist_NoDup; [exact Hwf|].
    change (fst ∘ (λ e : Z * pending_ack, (e.1, e.2.2))) with (@fst Z pending_ack).
    apply fmap_sublist. apply sublist_filter.
  - intros ->. by rewrite filter_expired_kept.
Qed.

Lemma sweep_reports_once_witness :
  dict_wf [(1, (0, Some 9)); (2, (50, None)); (3, (10, Some 0))]
  ∧ (sweepExpired 45 30 [(1, (0, Some 9)); (2, (50, None)); (3, (10, Some 0))]).1
    = [(1, Some 9); (3, Some 0)]
  ∧ (sweepExpired 81 30
       (sweepExpired 45 30 [(1, (0, Some 9)); (2, (50, None)); (3, (10, Some 0))]).2).2
    = (sweepExpired 81 30 [(1, (0, Some 9)); (2, (50, None)); (3, (10, Some 0))]).2.
Proof.
  assert (dict_wf [(1, (0, Some 9)); (2, (50, None)); (3, (10, Some 0))]) as Hwf.
  { dict_wf_literal. }
  split_and!.
  - exact Hwf.
  - vm_compute. reflexivity.
  - apply (sweep_reports_once 45 81 30 _ Hwf). lia.
Defined.

(** ** What the handlers leave alone *)

Lemma state_eta st :
  {| pending_acks := pending_acks st; name_cache := name_cache st;
     send_queue := send_queue st; stdout := stdout st |} = st.
Proof. by destruct st. Qed.

Lemma prints_frame lines st :
  let st' := foldl (λ st line, print line st) st lines in
  pending_acks st' = pending_acks st ∧ name_cache st' = name_cache st
  ∧ send_queue st' = send_queue st ∧ stdout st' = stdout st ++ lines.
Proof.
  revert st. induction lines as [|line lines IH]; intros st; simpl.
  - by rewrite app_nil_r.
  - destruct (IH (print line st)) as (-> & -> & -> & ->). simpl.
    by rewrite <- app_assoc.
Qed.

Lemma resolve_or_cache iface fallback from_id st k name :
  name_cache st !! k = Some name →
  name_cache (resolve_or iface fallback from_id st).2 !! k = Some name.
Proof.
  intros Hk. unfold resolve_or. destruct (int_truthy from_id); [|done].
  cbn [snd set_name_cache name_cache]. by apply get_name_and_id_keeps.
Qed.

Section HandlerFrames.
Context `{Unicode}.

(** The routing branch, by what the registry holds for the request. *)
Lemma on_receive_routing_unmatched iface clk packet st :
  (pk_requestId packet = None
   ∨ ∃ k, pk_requestId packet = Some k ∧ dict_get k (pending_acks st) = None) →
  on_receive_routing iface clk packet st = st.
Proof.
  intros [Hnone | (k & Hk & Hget)]; unfold on_receive_routing.
  - by rewrite Hnone.
  - rewrite Hk. unfold complete, dict_pop. rewrite Hget.
    rewrite dict_del_notin by (by apply dict_get_None).
    unfold set_pending_acks. apply state_eta.
Qed.

Lemma on_receive_routing_matched iface clk packet st k sent_at dest :
  pk_requestId packet = Some k →
  dict_get k (pending_acks st) = Some (sent_at, dest) →
  let from_id := sender_of packet in
  let resolved :=
    resolve_or iface (str_lit "?", str_lit "unknown") from_id
               (set_pending_acks (dict_del k (pending_acks st)) st) in
  on_receive_routing iface clk packet st
  = print (C_BLUE ++ str_lit "[" ++ ts (now clk) ++ str_lit "] ACK from "
             ++ resolved.1.2 ++ str_lit ", "
             ++ join (str_lit ", ")
                  ([str_lit "RTT=" ++ str_int (time clk - sent_at) ++ str_lit ".0s"]
                     ++ signal_params packet)
             ++ C_RESET)
          resolved.2.
Proof.
  intros Hk Hget from_id resolved. unfold on_receive_routing.
  rewrite Hk. unfold complete, dict_pop. rewrite Hget.
  subst resolved from_id. unfold sender_of.
  by destruct (resolve_or _ _ _ _) as [[? ?] ?].
Qed.

Lemma on_receive_port_routing iface clk packet st :
  pk_portnum packet = PyStr (str_lit "ROUTING_APP") →
  on_receive iface clk packet st = on_receive_routing iface clk packet st.
Proof. intros Hport. unfold on_receive. rewrite Hport. by rewrite decide_True. Qed.

(** The text branch leaves the registry alone, keeps what is cached
    and only adds to the log. *)
Lemma on_receive_text_frame iface clk packet st :
  let st' := on_receive_text iface clk packet st in
  stdout st `prefix_of` stdout st'
  ∧ (∀ k name, name_cache st !! k = Some name → name_cache st' !! k = Some name).
Proof.
  unfold on_receive_text.
  set (from_id := normalize_node_id (py_or (pk_fromId packet) (pk_from packet))).
  pose proof (resolve_or_frame iface (str_lit "unknown", []) from_id st) as Hframe.
  pose proof (resolve_or_cache iface (str_lit "unknown", []) from_id st) as Hcache.
  destruct (resolve_or iface (str_lit "unknown", []) from_id st)
    as [[name display] st1] eqn:Hres.
  cbn [fst snd] in Hframe, Hcache |- *. destruct Hframe as (_ & _ & Hout).
  rewrite split_ts. cbn [lookup list_lookup].
  set (private := is_private_to (normalize_node_id (pk_to packet)) (my_node_num iface)).
  set (st2 := print _ (if private then print _ st1 else print _ st1)).
  assert (stdout st `prefix_of` stdout st2 ∧ name_cache st2 = name_cache st1)
    as [Hout2 Hcache2].
  { subst st2. destruct private; simpl; rewrite Hout;
      (split; [|done]); rewrite <- app_assoc; by apply prefix_app_r. }
  clearbody st2. split.
  - destruct (re_search_markers _); [|done].
    destruct (put_nowait _ _); simpl; [done|].
    by apply prefix_app_r.
  - intros k name' Hk. apply Hcache in Hk.
    destruct (re_search_markers _); [|by rewrite Hcache2].
    destruct (put_nowait _ _); simpl; by rewrite Hcache2.
Qed.
End HandlerFrames.

Lemma dict_get_elem {V} k (v : V) (d : dict V) :
  dict_wf d → (k, v) ∈ d → dict_get k d = Some v.
Proof.
  unfold dict_wf, dict_keys. induction d as [|[k' v'] d IH]; simpl.
  - by intros _ ?%elem_of_nil.
  - rewrite NoDup_cons, elem_of_cons. intros [Hnot Hnd] [Heq|Hin].
    + injection Heq as <- <-. by rewrite decide_True.
    + destruct (decide (k' = k)) as [->|Hne]; [|auto].
      exfalso. apply Hnot. by apply (list_elem_of_fmap_2 fst _ (k, v)).
Qed.

(** What a sweep reports is gone from the registry it leaves. *)
Lemma sweep_removed_gone now timeout (r : registry) k dest :
  dict_wf r → (k, dest) ∈ (sweepExpired now timeout r).1 →
  dict_get k (sweepExpired now timeout r).2 = None.
Proof.
  intros Hwf. rewrite sweepExpired_spec by done. cbn [fst snd]. intros Hin.
  apply list_elem_of_fmap in Hin as ([k' [t0 d]] & [= <- <-] & Hin). cbn [fst snd] in *.
  apply list_elem_of_filter in Hin as [Hexp Hin].
  apply dict_get_None. unfold dict_keys. intros Hk.
  apply list_elem_of_fmap in Hk as ([k'' [t0' d']] & Heq & Hin'). cbn [fst] in Heq. subst k''.
  apply list_elem_of_filter in Hin' as [Hkeep Hin'].
  pose proof (dict_get_elem _ _ _ Hwf Hin) as H1.
  pose proof (dict_get_elem _ _ _ Hwf Hin') as H2.
  rewrite H1 in H2. injection H2 as <- <-. by apply Hkeep.
Qed.

Lemma ack_watcher_round_frame clk st :
  let swept := sweepExpired (time clk) ACK_TIMEOUT (pending_acks st) in
  pending_acks (ack_watcher_round clk st) = swept.2
  ∧ name_cache (ack_watcher_round clk st) = name_cache st
  ∧ send_queue (ack_watcher_round clk st) = send_queue st
  ∧ stdout (ack_watcher_round clk st)
    = stdout st ++ (no_ack_line (ts (now clk)) <$> swept.1).
Proof.
  unfold ack_watcher_round, ack_watcher.
  destruct (sweepExpired (time clk) ACK_TIMEOUT (pending_acks st)) as [expired r'].
  cbn [fst snd].
  destruct (prints_frame (map (no_ack_line (ts (now clk))) expired)
              (set_pending_acks r' st)) as (-> & -> & -> & ->).
  done.
Qed.

(** X6. A routing packet changes nothing at all, and prints nothing,
    when it carries no request identifier or one the registry does not
    hold.  That is the case for the second of two acknowledgments of
    one request, and for an acknowledgment that arrives after the
    watcher has reported the request as expired. *)
Theorem unmatched_ack_ignored :
  ∀ (U : Unicode) iface clk packet st,
    pk_portnum packet = PyStr (str_lit "ROUTING_APP") →
    (pk_requestId packet = None → on_receive iface clk packet st = st)
    ∧ (∀ k, pk_requestId packet = Some k →
            dict_get k (pending_acks st) = None →
            on_receive iface clk packet st = st)
    ∧ (dict_wf (pending_acks st) →
       ∀ iface' clk',
         on_receive iface' clk' packet (on_receive iface clk packet st)
         = on_receive iface clk packet st)
    ∧ (dict_wf (pending_acks st) →
       ∀ clk0 k dest,
         pk_requestId packet = Some k →
         (k, dest) ∈ (sweepExpired (time clk0) ACK_TIMEOUT (pending_acks st)).1 →
         on_receive iface clk packet (ack_watcher_round clk0 st)
         = ack_watcher_round clk0 st).
Proof.
  intros U iface clk packet st Hport. split_and!.
  - intros Hnone. rewrite on_receive_port_routing by done.
    apply on_receive_routing_unmatched. by left.
  - intros k Hk Hget. rewrite on_receive_port_routing by done.
    apply on_receive_routing_unmatched. right. eauto.
  - intros Hwf iface' clk'. rewrite !on_receive_port_routing by done.
    apply on_receive_routing_unmatched.
    destruct (pk_requestId packet) as [k|] eqn:Hk; [right | by left].
    exists k. split; [done|].
    destruct (dict_get k (pending_acks st)) as [[sent_at dest]|] eqn:Hget.
    + rewrite (on_receive_routing_matched iface clk packet st k sent_at dest Hk Hget).
      cbn [print pending_acks].
      destruct (resolve_or_frame iface (str_lit "?", str_lit "unknown") (sender_of packet)
                  (set_pending_acks (dict_del k (pending_acks st)) st)) as (_ & -> & _).
      cbn [set_pending_acks pending_acks]. by apply dict_get_del_eq.
    + rewrite on_receive_routing_unmatched; [done|]. right. eauto.
  - intros Hwf clk0 k dest Hk Hin. rewrite on_receive_port_routing by done.
    apply on_receive_routing_unmatched. right. exists k. split; [done|].
    destruct (ack_watcher_round_frame clk0 st) as (-> & _).
    by eapply sweep_removed_gone.
Qed.

Lemma unmatched_ack_ignored_witness :
  let st := {| pending_acks := [(77, (990, None))]; name_cache := ∅;
               send_queue := []; stdout := [] |} in
  let st1 := @on_receive ascii_only sample_interface sample_clock sample_ack_packet st in
  pending_acks st1 = []
  ∧ length (stdout st1) = 1%nat
  ∧ @on_receive ascii_only sample_interface sample_clock sample_ack_packet st1 = st1.
Proof.
  intros st st1. split_and!.
  - vm_compute. reflexivity.
  - vm_compute. reflexivity.
  - apply (unmatched_ack_ignored ascii_only sample_interface sample_clock
             sample_ack_packet st eq_refl).
    dict_wf_literal.
Defined.

Section ReceiveFrame.
Context `{Unicode}.

Lemma on_receive_routing_frame iface clk packet st :
  let st' := on_receive_routing iface clk packet st in
  send_queue st' = send_queue st
  ∧ stdout st `prefix_of` stdout st'
  ∧ (∀ k name, name_cache st !! k = Some name → name_cache st' !! k = Some name)
  ∧ (pending_acks st' = pending_acks st
     ∨ ∃ k, pk_requestId packet = Some k
            ∧ pending_acks st' = dict_del k (pending_acks st)).
Proof.
  destruct (pk_requestId packet) as [k|] eqn:Hk.
  2:{ rewrite on_receive_routing_unmatched by (by left). cbn zeta.
      split_and!; [done | done | done | by left]. }
  destruct (dict_get k (pending_acks st)) as [[sent_at dest]|] eqn:Hget.
  2:{ rewrite on_receive_routing_unmatched by (right; eauto). cbn zeta.
      split_and!; [done | done | done | by left]. }
  rewrite (on_receive_routing_matched iface clk packet st k sent_at dest Hk Hget).
  set (st0 := set_pending_acks (dict_del k (pending_acks st)) st).
  destruct (resolve_or_frame iface (str_lit "?", str_lit "unknown") (sender_of packet) st0)
    as (Hq & Hacks & Hout).
  pose proof (resolve_or_cache iface (str_lit "?", str_lit "unknown") (sender_of packet) st0)
    as Hcache.
  cbn zeta. cbn [print send_queue stdout name_cache pending_acks].
  rewrite Hq, Hacks, Hout. split_and!.
  - done.
  - by apply prefix_app_r.
  - intros k' name Hk'. by apply Hcache.
  - right. exists k. done.
Qed.
End ReceiveFrame.

Lemma on_receive_effect :
  ∀ (U : Unicode) iface clk packet st,
    let st' := on_receive iface clk packet st in
    (send_queue st' = send_queue st
     ∨ ∃ text dest_id, send_queue st' = send_queue st ++ [(text, dest_id, false)])
    ∧ ((length (send_queue st) ≤ SEND_QUEUE_MAXSIZE)%nat →
       (length (send_queue st') ≤ SEND_QUEUE_MAXSIZE)%nat)
    ∧ stdout st `prefix_of` stdout st'
    ∧ (∀ k name, name_cache st !! k = Some name → name_cache st' !! k = Some name)
    ∧ (pending_acks st' = pending_acks st
       ∨ ∃ k, pk_requestId packet = Some k
              ∧ pending_acks st' = dict_del k (pending_acks st)).
Proof.
  intros U iface clk packet st. unfold on_receive.
  destruct (decide (pk_portnum packet = PyStr (str_lit "ROUTING_APP"))) as [Hr|Hnr].
  { destruct (on_receive_routing_frame iface clk packet st) as (Hq & Hout & Hcache & Hacks).
    cbn zeta. rewrite Hq. split_and!; [by left | done | done | done | done]. }
  destruct (decide (pk_portnum packet = PyStr (str_lit "TEXT_MESSAGE_APP"))) as [Ht|Hnt].
  2:{ cbn zeta. split_and!; [by left | done | done | done | by left]. }
  destruct (on_receive_text_effect iface clk packet st) as [Hacks Hq].
  destruct (on_receive_text_frame iface clk packet st) as [Hout Hcache].
  cbn zeta.
  assert (send_queue (on_receive_text iface clk packet st) = send_queue st
          ∨ (length (send_queue st) < SEND_QUEUE_MAXSIZE)%nat
            ∧ send_queue (on_receive_text iface clk packet st)
              = send_queue st ++ [auto_reply_task iface clk packet st]) as Hcases.
  { destruct (re_search_markers _); [|by left].
    unfold put_nowait in Hq.
    destruct (decide (SEND_QUEUE_MAXSIZE ≤ length (send_queue st))%nat).
    - left. by destruct Hq.
    - right. split; [lia | done]. }
  split_and!.
  - destruct Hcases as [->| [_ ->]]; [by left | right].
    unfold auto_reply_task. eauto.
  - intros Hle. destruct Hcases as [->| [Hlt ->]]; [done|].
    rewrite length_app. cbn [length]. lia.
  - done.
  - done.
  - by left.
Qed.


(** X7. Whatever packet arrives, [on_receive] only adds to the end of
    the send queue, at most one task and only one that asks for no
    acknowledgment, and never lets the queue grow beyond its 30 places;
    it only adds to the log; it keeps every cached name; and it leaves
    the registry as it was or without the one request the packet
    acknowledges. *)
Theorem on_receive_frame :
  ∀ (U : Unicode) iface clk packet st,
    let st' := on_receive iface clk packet st in
    (send_queue st' = send_queue st
     ∨ ∃ text dest_id, send_queue st' = send_queue st ++ [(text, dest_id, false)])
    ∧ ((length (send_queue st) ≤ SEND_QUEUE_MAXSIZE)%nat →
       (length (send_queue st') ≤ SEND_QUEUE_MAXSIZE)%nat)
    ∧ stdout st `prefix_of` stdout st'
    ∧ (∀ k name, name_cache st !! k = Some name → name_cache st' !! k = Some name)
    ∧ (pending_acks st' = pending_acks st
       ∨ ∃ k, pk_requestId packet = Some k
              ∧ pending_acks st' = dict_del k (pending_acks st)).
Proof. exact on_receive_effect. Qed.

(** ** The sender *)

Lemma sender_thread_task_frame clk t result st :
  let st' := sender_thread_task clk t result st in
  send_queue st' = send_queue st
  ∧ name_cache st' = name_cache st
  ∧ stdout st `prefix_of` stdout st'
  ∧ (pending_acks st' = pending_acks st
     ∨ ∃ pkt_id, t.2 = true ∧ result = SendReturned (Some pkt_id)
                 ∧ pending_acks st'
                   = (register (ts (now clk)) (time clk) pkt_id t.1.2 (pending_acks st)).1).
Proof.
  destruct t as [[text dest_id] want_ack]. unfold sender_thread_task.
  destruct result as [message|[pkt_id|]]; cbn zeta.
  - cbn. split_and!; [done | done | by apply prefix_app_r | by left].
  - destruct want_ack; [|split_and!; [done | done | done | by left]].
    destruct (register _ _ _ _ _) as [r out] eqn:Hreg.
    destruct (prints_frame out (set_pending_acks r st)) as (-> & -> & -> & ->).
    cbn [set_pending_acks send_queue name_cache stdout pending_acks fst snd].
    split_and!; [done | done | by apply prefix_app_r |].
    right. exists pkt_id. by rewrite Hreg.
  - split_and!; [done | done | done | by left].
Qed.

Lemma sender_thread_task_bound clk t result st :
  dict_wf (pending_acks st) ∧ (length (pending_acks st) ≤ MAX_PENDING_ACKS)%nat →
  dict_wf (pending_acks (sender_thread_task clk t result st))
  ∧ (length (pending_acks (sender_thread_task clk t result st)) ≤ MAX_PENDING_ACKS)%nat.
Proof.
  intros [Hwf Hle].
  destruct (sender_thread_task_frame clk t result st) as (_ & _ & _ & [-> | (id & _ & _ & ->)]).
  - done.
  - split; [by apply register_wf | by apply register_bound].
Qed.

Lemma sender_thread_rounds_spec clk results st :
  let r := sender_thread_rounds clk results st in
  r.2 = take (length results) (send_queue st)
  ∧ send_queue r.1 = drop (length results) (send_queue st)
  ∧ name_cache r.1 = name_cache st
  ∧ stdout st `prefix_of` stdout r.1
  ∧ (dict_wf (pending_acks st) ∧ (length (pending_acks st) ≤ MAX_PENDING_ACKS)%nat →
     dict_wf (pending_acks r.1) ∧ (length (pending_acks r.1) ≤ MAX_PENDING_ACKS)%nat).
Proof.
  revert st. induction results as [|result results IH]; intros st.
  - cbn. by rewrite drop_0.
  - cbn [sender_thread_rounds length]. unfold sender_thread_round.
    destruct (send_queue st) as [|t q] eqn:Hq.
    + specialize (IH st). rewrite Hq in IH.
      destruct (sender_thread_rounds clk results st) as [st2 sent'].
      cbn [fst snd] in *. destruct IH as (-> & -> & -> & Hout & Hb).
      rewrite take_nil, drop_nil. done.
    + set (st0 := set_send_queue q st).
      destruct (sender_thread_task_frame clk t result st0) as (Hq1 & Hc1 & Hout1 & _).
      pose proof (sender_thread_task_bound clk t result st0) as Hb1.
      specialize (IH (sender_thread_task clk t result st0)).
      destruct (sender_thread_rounds clk results (sender_thread_task clk t result st0))
        as [st2 sent'].
      cbn [fst snd] in *. destruct IH as (-> & -> & -> & Hout & Hb).
      rewrite Hq1, Hc1. cbn. split_and!; try done.
      * by etrans.
      * intros Hst. apply Hb, Hb1. exact Hst.
Qed.

Lemma on_receive_frame_witness :
  (length (send_queue (@on_receive ascii_only sample_interface sample_clock
                         sample_packet full_queue_state)) ≤ SEND_QUEUE_MAXSIZE)%nat.
Proof.
  apply (proj1 (proj2 (on_receive_frame ascii_only sample_interface sample_clock
                         sample_packet full_queue_state))).
  vm_compute. lia.
Defined.

(** X8. The sender takes the tasks in the order they were queued, one
    per round, whatever the transport answers: after as many rounds as
    there are answers, the tasks handed to the transport are the first
    ones of the queue in order and the rest of the queue is untouched,
    so a send that raises does not stop or reorder the ones after it.
    A send that raises is reported and changes nothing else.  The
    rounds keep the cached names, only add to the log, and keep the
    registry a dictionary of at most 100 entries. *)
Theorem sender_sends_in_order :
  ∀ clk results st,
    let r := sender_thread_rounds clk results st in
    r.2 = take (length results) (send_queue st)
    ∧ send_queue r.1 = drop (length results) (send_queue st)
    ∧ name_cache r.1 = name_cache st
    ∧ stdout st `prefix_of` stdout r.1
    ∧ (dict_wf (pending_acks st) ∧ (length (pending_acks st) ≤ MAX_PENDING_ACKS)%nat →
       dict_wf (pending_acks r.1) ∧ (length (pending_acks r.1) ≤ MAX_PENDING_ACKS)%nat)
    ∧ (∀ message t q,
         send_queue st = t :: q →
         sender_thread_round clk false (SendRaised message) st
         = (print (str_lit "TX error: " ++ message) (set_send_queue q st), Some t)).
Proof.
  intros clk results st r.
  destruct (sender_thread_rounds_spec clk results st) as (H1 & H2 & H3 & H4 & H5).
  split_and!; try done.
  intros message [[text dest_id] want_ack] q Hq. unfold sender_thread_round.
  by rewrite Hq.
Qed.

Lemma sender_sends_in_order_witness :
  let st := {| pending_acks := []; name_cache := ∅;
               send_queue := [(str_lit "a", None, true); (str_lit "b", Some 7, true);
                              (str_lit "c", None, false)];
               stdout := [] |} in
  let r := sender_thread_rounds sample_clock
             [SendRaised (str_lit "timeout"); SendReturned (Some 77)] st in
  r.2 = [(str_lit "a", None, true); (str_lit "b", Some 7, true)]
  ∧ send_queue r.1 = [(str_lit "c", None, false)]
  ∧ pending_acks r.1 = [(77, (1000, Some 7))].
Proof.
  intros st r. split_and!.
  - apply (sender_sends_in_order sample_clock
             [SendRaised (str_lit "timeout"); SendReturned (Some 77)] st).
  - apply (sender_sends_in_order sample_clock
             [SendRaised (str_lit "timeout"); SendReturned (Some 77)] st).
  - vm_compute. reflexivity.
Defined.

(** X9. An automatic reply is sent without being tracked: once the
    tasks queued before it have been sent, the next round hands the
    reply that [on_receive] queued to the transport, and whatever the
    transport answers the registry is left as it was. *)
Theorem auto_reply_not_tracked :
  ∀ (U : Unicode) iface clk clk' clk'' packet st results result,
    pk_portnum packet = PyStr (str_lit "TEXT_MESSAGE_APP") →
    re_search_markers (strip (pk_payload packet)) = true →
    (length (send_queue st) < SEND_QUEUE_MAXSIZE)%nat →
    length results = length (send_queue st) →
    let st1 := on_receive iface clk packet st in
    let r2 := sender_thread_rounds clk' results st1 in
    let r3 := sender_thread_round clk'' false result r2.1 in
    r3.2 = Some (auto_reply_task iface clk packet st)
    ∧ pending_acks r3.1 = pending_acks r2.1
    ∧ send_queue r3.1 = [].
Proof.
  intros U iface clk clk' clk'' packet st results result Hport Hmatch Hroom Hlen
         st1 r2 r3.
  assert (send_queue st1 = send_queue st ++ [auto_reply_task iface clk packet st]) as Hq1.
  { subst st1. rewrite on_receive_text_port by done.
    destruct (on_receive_text_effect iface clk packet st) as [_ Heff].
    rewrite Hmatch in Heff. by rewrite put_nowait_room in Heff. }
  destruct (sender_thread_rounds_spec clk' results st1) as (_ & Hq2 & _).
  fold r2 in Hq2. rewrite Hq1, Hlen in Hq2.
  rewrite drop_app_length in Hq2.
  subst r3. unfold sender_thread_round. rewrite Hq2.
  set (st0 := set_send_queue [] r2.1).
  destruct (sender_thread_task_frame clk'' (auto_reply_task iface clk packet st) result st0)
    as (Hq3 & _ & _ & Hacks).
  cbn [fst snd]. split_and!.
  - done.
  - destruct Hacks as [-> | (id & Hack & _)]; [done|]. discriminate Hack.
  - by rewrite Hq3.
Qed.

Lemma auto_reply_not_tracked_witness :
  let st1 := @on_receive ascii_only sample_interface sample_clock sample_packet
               empty_state in
  let r := sender_thread_round sample_clock false (SendReturned (Some 77)) st1 in
  send_queue st1 ≠ [] ∧ pending_acks r.1 = [] ∧ send_queue r.1 = [].
Proof.
  intros st1 r.
  pose proof (auto_reply_not_tracked ascii_only sample_interface sample_clock
                sample_clock sample_clock sample_packet empty_state []
                (SendReturned (Some 77)) eq_refl) as Hw.
  cbv zeta in Hw. destruct Hw as (_ & Hacks & Hq).
  - vm_compute. reflexivity.
  - vm_compute. lia.
  - reflexivity.
  - split_and!.
    + vm_compute. discriminate.
    + exact Hacks.
    + exact Hq.
Defined.



(** ** Lines typed at the prompt *)

Section Lines.
Context `{Unicode}.

Lemma lstrip_blank s : forallb isspace s = true → lstrip s = [].
Proof.
  induction s as [|c s IH]; [done|]. simpl. intros [Hc Hs]%andb_true_iff.
  rewrite Hc. by apply IH.
Qed.

Lemma lstrip_head c s : isspace c = false → lstrip (c :: s) = c :: s.
Proof. intros Hc. simpl. by rewrite Hc. Qed.

Lemma lstrip_app_blank sep s :
  forallb isspace sep = true → lstrip (sep ++ s) = lstrip s.
Proof.
  induction sep as [|c sep IH]; [done|]. simpl. intros [Hc Hs]%andb_true_iff.
  rewrite Hc. by apply IH.
Qed.

Lemma strip_blank s : forallb isspace s = true → strip s = [].
Proof. intros Hs. unfold strip. rewrite (lstrip_blank s) by done. reflexivity. Qed.

(** A string whose first and last characters are not white space is
    what [strip] returns for it. *)
Lemma strip_tight s c c' :
  head s = Some c → last s = Some c' → isspace c = false → isspace c' = false →
  strip s = s.
Proof.
  intros Hhead Hlast Hc Hc'. unfold strip.
  destruct s as [|x s]; [done|]. injection Hhead as ->.
  rewrite lstrip_head by done.
  destruct (reverse (c :: s)) as [|y r] eqn:Hrev.
  { apply (f_equal length) in Hrev. rewrite length_reverse in Hrev. done. }
  assert (y = c') as ->.
  { rewrite <- (reverse_involutive (c :: s)), Hrev in Hlast.
    rewrite reverse_cons, last_snoc in Hlast. congruence. }
  rewrite lstrip_head by done. rewrite <- Hrev. apply reverse_involutive.
Qed.

Lemma first_word_spec w rest :
  forallb (λ c, negb (isspace c)) w = true →
  (match rest with [] => true | c :: _ => isspace c end) = true →
  first_word (w ++ rest) = (w, rest).
Proof.
  intros Hw Hrest. induction w as [|c w IH]; simpl.
  - destruct rest as [|c rest]; [done|]. simpl. by rewrite Hrest.
  - simpl in Hw. apply andb_true_iff in Hw as [Hc Hw].
    apply negb_true_iff in Hc. rewrite Hc. by rewrite IH.
Qed.

Lemma split_once_nonempty s : lstrip s ≠ [] → split_once s ≠ [].
Proof.
  intros Hs. unfold split_once. destruct (lstrip s) as [|c s1]; [done|].
  destruct (first_word (c :: s1)) as [w rest]. by destruct (lstrip rest).
Qed.

(** A line "@target", or "@target", white space and a text. *)
Lemma split_once_directed target sep text :
  forallb (λ c, negb (isspace c)) target = true →
  forallb isspace sep = true →
  (match text with [] => true | c :: _ => negb (isspace c) end) = true →
  (sep = [] → text = []) →
  split_once (str_lit "@" ++ target ++ sep ++ text)
  = match text with [] => [str_lit "@" ++ target] | _ => [str_lit "@" ++ target; text] end.
Proof.
  intros Htarget Hsep Htext Hnosep. unfold split_once.
  change (str_lit "@" ++ ?l) with (64 :: l).
  rewrite lstrip_head by reflexivity.
  change (64 :: target ++ sep ++ text) with ((64 :: target) ++ sep ++ text).
  rewrite first_word_spec.
  - rewrite lstrip_app_blank by done.
    destruct text as [|c text]; [done|].
    apply negb_true_iff in Htext. by rewrite lstrip_head.
  - simpl. by rewrite Htarget.
  - destruct sep as [|c sep].
    + by rewrite (Hnosep eq_refl).
    + simpl in *. by apply andb_true_iff in Hsep as [? _].
Qed.
End Lines.

Lemma input_loop_submit_frame clk text dest_id st :
  let st' := input_loop_submit clk text dest_id st in
  pending_acks st' = pending_acks st ∧ name_cache st' = name_cache st
  ∧ ((length (send_queue st) < SEND_QUEUE_MAXSIZE)%nat
     ∧ send_queue st' = send_queue st ++ [(text, dest_id, true)]
     ∧ stdout st' = stdout st
     ∨ (SEND_QUEUE_MAXSIZE ≤ length (send_queue st))%nat
       ∧ send_queue st' = send_queue st
       ∧ stdout st' = stdout st ++ [queue_full_message clk]).
Proof.
  unfold input_loop_submit, put_nowait.
  destruct (decide (SEND_QUEUE_MAXSIZE ≤ length (send_queue st))%nat); cbn.
  - split_and!; [done | done | right; done].
  - split_and!; [done | done | left; split_and!; [lia | done | done]].
Qed.

Section LineTheorems.
Context `{Unicode}.

Lemma forallb_reverse {A} (f : A → bool) l : forallb f (reverse l) = forallb f l.
Proof.
  induction l as [|x l IH]; [done|].
  rewrite reverse_cons, forallb_app, IH. simpl. rewrite andb_true_r. apply andb_comm.
Qed.

(** White space around a line is dropped by [strip]. *)
Lemma strip_padded pre s post c c' :
  head s = Some c → last s = Some c' → isspace c = false → isspace c' = false →
  forallb isspace pre = true → forallb isspace post = true →
  strip (pre ++ s ++ post) = s.
Proof.
  intros Hhead Hlast Hc Hc' Hpre Hpost. unfold strip.
  rewrite lstrip_app_blank by done.
  destruct s as [|x s]; [done|]. injection Hhead as ->.
  change ((c :: s) ++ post) with (c :: s ++ post). rewrite lstrip_head by done.
  change (c :: s ++ post) with ((c :: s) ++ post).
  rewrite reverse_app, lstrip_app_blank by (by rewrite forallb_reverse).
  destruct (reverse (c :: s)) as [|y r] eqn:Hrev.
  { apply (f_equal length) in Hrev. rewrite length_reverse in Hrev. done. }
  assert (y = c') as ->.
  { rewrite <- (reverse_involutive (c :: s)), Hrev in Hlast.
    rewrite reverse_cons, last_snoc in Hlast. congruence. }
  rewrite lstrip_head by done. rewrite <- Hrev. apply reverse_involutive.
Qed.

Lemma startswith_at c s : startswith (str_lit "@") (c :: s) = bool_decide (c = 64).
Proof.
  change (startswith (str_lit "@") (c :: s)) with ((64 =? c) && true).
  rewrite andb_true_r. destruct (Z.eqb_spec 64 c) as [<-|Hne].
  - by rewrite bool_decide_true.
  - rewrite bool_decide_false; [done | congruence].
Qed.

Lemma input_loop_line_frame_aux clk snap raw st :
  let st' := input_loop_line clk snap raw st in
  st' = st
  ∨ (∃ text dest_id, st' = input_loop_submit clk text dest_id st)
  ∨ (∃ target, st' = print (unknown_node_message clk target) st).
Proof.
  unfold input_loop_line. destruct (strip raw) as [|c line] eqn:Hline; [by left|].
  rewrite startswith_at. case_bool_decide as Hc.
  - subst c. pose proof (split_once_nonempty (64 :: line)) as Hparts.
    rewrite lstrip_head in Hparts by reflexivity.
    destruct (split_once (64 :: line)) as [|part0 more]; [by destruct Hparts|].
    destruct (resolve_node snap (drop 1 part0)) as [dest_id|].
    + right. left. eauto.
    + right. right. eauto.
  - right. left. eauto.
Qed.
End LineTheorems.

(** X11. What the input loop makes of a line.  A blank line does
    nothing.  A line that does not start with "@" is queued as typed,
    without the white space around it, for broadcast and with an
    acknowledgment asked for.  A line "@target text" is queued for the
    node [resolve_node] finds for the target, with exactly the text
    after the white space that follows the target (empty when the line
    is the target alone); when no node is found the line is discarded
    and "Unknown node" is printed. *)
Theorem input_line_cases :
  ∀ (U : Unicode) clk nodes_snapshot st,
    (∀ raw, forallb isspace raw = true →
            input_loop_line clk nodes_snapshot raw st = st)
    ∧ (∀ pre line post c c',
         head line = Some c → last line = Some c' →
         isspace c = false → isspace c' = false → c ≠ 64 →
         forallb isspace pre = true → forallb isspace post = true →
         input_loop_line clk nodes_snapshot (pre ++ line ++ post) st
         = input_loop_submit clk line None st)
    ∧ (∀ pre target sep text post c',
         forallb (λ c, negb (isspace c)) target = true →
         forallb isspace sep = true →
         (match text with [] => true | c :: _ => negb (isspace c) end) = true →
         (sep = [] → text = []) →
         last (str_lit "@" ++ target ++ sep ++ text) = Some c' → isspace c' = false →
         forallb isspace pre = true → forallb isspace post = true →
         input_loop_line clk nodes_snapshot
           (pre ++ (str_lit "@" ++ target ++ sep ++ text) ++ post) st
         = match resolve_node nodes_snapshot target with
           | Some dest_id => input_loop_submit clk text (Some dest_id) st
           | None => print (unknown_node_message clk target) st
           end).
Proof.
  intros U clk snap st. split_and!.
  - intros raw Hblank. unfold input_loop_line. by rewrite strip_blank.
  - intros pre line post c c' Hhead Hlast Hc Hc' Hat Hpre Hpost.
    unfold input_loop_line. rewrite (strip_padded pre line post c c') by done.
    destruct line as [|x line]; [done|]. injection Hhead as ->.
    rewrite startswith_at. by rewrite bool_decide_false.
  - intros pre target sep text post c' Htarget Hsep Htext Hnosep Hlast Hc' Hpre Hpost.
    unfold input_loop_line.
    rewrite (strip_padded pre _ post 64 c') by done.
    change (str_lit "@" ++ ?l) with (64 :: l).
    rewrite startswith_at, bool_decide_true by done.
    change (64 :: ?l) with (str_lit "@" ++ l).
    rewrite split_once_directed by done.
    destruct text as [|c text]; cbn [drop app str_lit list_ascii_of_string map]; done.
Qed.

Lemma input_line_cases_witness :
  send_queue (@input_loop_line ascii_only sample_clock sample_snapshot
                (str_lit "  @RVR   hello  there ") empty_state)
  = [(str_lit "hello  there", Some 0xAABBCC01, true)]
  ∧ send_queue (@input_loop_line ascii_only sample_clock sample_snapshot
                  (str_lit " hello @RVR ") empty_state)
    = [(str_lit "hello @RVR", None, true)].
Proof.
  split.
  - change (str_lit "  @RVR   hello  there ")
      with (str_lit "  " ++ (str_lit "@" ++ str_lit "RVR" ++ str_lit "   "
                               ++ str_lit "hello  there") ++ str_lit " ").
    rewrite (proj2 (proj2 (input_line_cases ascii_only sample_clock sample_snapshot
                             empty_state))
               (str_lit "  ") (str_lit "RVR") (str_lit "   ") (str_lit "hello  there")
               (str_lit " ") 101); try reflexivity.
    intros Hsep. discriminate Hsep.
  - change (str_lit " hello @RVR ")
      with (str_lit " " ++ str_lit "hello @RVR" ++ str_lit " ").
    rewrite (proj1 (proj2 (input_line_cases ascii_only sample_clock sample_snapshot
                             empty_state))
               (str_lit " ") (str_lit "hello @RVR") (str_lit " ") 104 82);
      try reflexivity.
    discriminate.
Defined.

Lemma input_loop_line_effect :
  ∀ (U : Unicode) clk nodes_snapshot raw st,
    let st' := input_loop_line clk nodes_snapshot raw st in
    pending_acks st' = pending_acks st
    ∧ name_cache st' = name_cache st
    ∧ (send_queue st' = send_queue st
       ∨ ∃ text dest_id, send_queue st' = send_queue st ++ [(text, dest_id, true)])
    ∧ ((length (send_queue st) ≤ SEND_QUEUE_MAXSIZE)%nat →
       (length (send_queue st') ≤ SEND_QUEUE_MAXSIZE)%nat)
    ∧ (stdout st' = stdout st
       ∨ stdout st' = stdout st ++ [queue_full_message clk]
       ∨ ∃ target, stdout st' = stdout st ++ [unknown_node_message clk target]).
Proof.
  intros U clk snap raw st.
  destruct (input_loop_line_frame_aux clk snap raw st)
    as [-> | [(text & dest_id & ->) | (target & ->)]]; cbn zeta.
  - split_and!; [done | done | by left | done | by left].
  - destruct (input_loop_submit_frame clk text dest_id st)
      as (-> & -> & [(Hroom & -> & ->) | (Hfull & -> & ->)]).
    + split_and!; [done | done | right; eauto | | by left].
      intros _. rewrite length_app. cbn [length]. lia.
    + split_and!; [done | done | by left | done | right; by left].
  - cbn. split_and!; [done | done | by left | done | right; right; eauto].
Qed.

(** X12. A line typed at the prompt never touches the registry or
    the cached names; it adds at most one task to the end of the queue,
    always one that asks for an acknowledgment, and never beyond the 30
    places of the queue; and it prints nothing, or that the queue is
    full, or that the node is unknown: the input loop's own error
    report is never reached. *)
Theorem input_loop_line_frame :
  ∀ (U : Unicode) clk nodes_snapshot raw st,
    let st' := input_loop_line clk nodes_snapshot raw st in
    pending_acks st' = pending_acks st
    ∧ name_cache st' = name_cache st
    ∧ (send_queue st' = send_queue st
       ∨ ∃ text dest_id, send_queue st' = send_queue st ++ [(text, dest_id, true)])
    ∧ ((length (send_queue st) ≤ SEND_QUEUE_MAXSIZE)%nat →
       (length (send_queue st') ≤ SEND_QUEUE_MAXSIZE)%nat)
    ∧ (stdout st' = stdout st
       ∨ stdout st' = stdout st ++ [queue_full_message clk]
       ∨ ∃ target, stdout st' = stdout st ++ [unknown_node_message clk target]).
Proof. exact input_loop_line_effect. Qed.

Lemma input_loop_line_frame_witness :
  (length (send_queue (@input_loop_line ascii_only sample_clock sample_snapshot
                         (str_lit "@RVR hello") full_queue_state))
   ≤ SEND_QUEUE_MAXSIZE)%nat.
Proof.
  apply (proj1 (proj2 (proj2 (proj2
           (input_loop_line_frame ascii_only sample_clock sample_snapshot
              (str_lit "@RVR hello") full_queue_state))))).
  vm_compute. lia.
Defined.

(** ** What holds whatever happens *)

Lemma str_truthy_nonempty (s : option pystr) :
  str_truthy s = true → default [] s ≠ [].
Proof. by destruct s as [[|c s]|]. Qed.

Lemma directory_label_nonempty iface n : directory_label iface n ≠ [].
Proof.
  unfold directory_label.
  destruct (str_truthy (short_name_of (nodes iface !! inl n))) eqn:Hint.
  { by apply str_truthy_nonempty. }
  destruct (str_truthy (short_name_of (nodes iface !! inr (hex_key_of n)))) eqn:Hhex.
  { by apply str_truthy_nonempty. }
  unfold hex_key_of. discriminate.
Qed.

Lemma get_name_and_id_new iface (cache : gmap Z pystr) v k name :
  res_cache (get_name_and_id iface cache v) !! k = Some name →
  cache !! k = Some name ∨ name ≠ [].
Proof.
  destruct v as [|n|s|b]; try (by left).
  destruct (cache !! n) as [name'|] eqn:Hn.
  - rewrite (get_name_and_id_hit _ _ _ _ Hn). by left.
  - rewrite (get_name_and_id_miss _ _ _ Hn). cbn [res_cache].
    destruct (decide (k = n)) as [->|Hne].
    + rewrite lookup_insert_eq. intros [= <-]. right. apply directory_label_nonempty.
    + rewrite lookup_insert_ne by congruence. by left.
Qed.

Lemma resolve_or_new iface fallback from_id st k name :
  name_cache (resolve_or iface fallback from_id st).2 !! k = Some name →
  name_cache st !! k = Some name ∨ name ≠ [].
Proof.
  unfold resolve_or. destruct (int_truthy from_id); [|by left].
  cbn [snd set_name_cache name_cache]. apply get_name_and_id_new.
Qed.

Section Forever.
Context `{Unicode}.

Lemma on_receive_text_cache iface clk packet st :
  name_cache (on_receive_text iface clk packet st)
  = name_cache (resolve_or iface (str_lit "unknown", []) (sender_of packet) st).2.
Proof.
  unfold on_receive_text, sender_of.
  destruct (resolve_or iface (str_lit "unknown", []) _ st) as [[name display] st1].
  cbn [fst snd]. rewrite split_ts. cbn [lookup list_lookup].
  destruct (is_private_to _ _); destruct (re_search_markers _); try done;
    destruct (put_nowait _ _); done.
Qed.

Lemma on_receive_cache_new iface clk packet st k name :
  name_cache (on_receive iface clk packet st) !! k = Some name →
  name_cache st !! k = Some name ∨ name ≠ [].
Proof.
  unfold on_receive.
  destruct (decide (pk_portnum packet = PyStr (str_lit "ROUTING_APP"))).
  { destruct (pk_requestId packet) as [req|] eqn:Hreq.
    2:{ rewrite on_receive_routing_unmatched by (by left). by left. }
    destruct (dict_get req (pending_acks st)) as [[sent_at dest]|] eqn:Hget.
    2:{ rewrite on_receive_routing_unmatched by (right; eauto). by left. }
    rewrite (on_receive_routing_matched iface clk packet st req sent_at dest Hreq Hget).
    cbn [print name_cache]. intros Hk. by apply resolve_or_new in Hk. }
  destruct (decide (pk_portnum packet = PyStr (str_lit "TEXT_MESSAGE_APP"))); [|by left].
  rewrite on_receive_text_cache. apply resolve_or_new.
Qed.

End Forever.

Section Invariant.
Context `{Unicode}.

Lemma handle_keeps st ev :
  dict_wf (pending_acks st)
  ∧ (length (pending_acks st) ≤ MAX_PENDING_ACKS)%nat
  ∧ (length (send_queue st) ≤ SEND_QUEUE_MAXSIZE)%nat
  ∧ (∀ k name, name_cache st !! k = Some name → name ≠ []) →
  dict_wf (pending_acks (handle st ev))
  ∧ (length (pending_acks (handle st ev)) ≤ MAX_PENDING_ACKS)%nat
  ∧ (length (send_queue (handle st ev)) ≤ SEND_QUEUE_MAXSIZE)%nat
  ∧ (∀ k name, name_cache (handle st ev) !! k = Some name → name ≠ []).
Proof.
  intros (Hwf & Hacks & Hq & Hcache).
  destruct ev as [clk snap raw|iface clk packet|clk stop result|clk|nid]; cbn [handle].
  - destruct (input_loop_line_effect _ clk snap raw st) as (-> & -> & _ & Hq' & _).
    split_and!; [done | done | by apply Hq' | done].
  - destruct (on_receive_effect _ iface clk packet st) as (_ & Hq' & _ & _ & Hacks').
    assert (dict_wf (pending_acks (on_receive iface clk packet st))
            ∧ (length (pending_acks (on_receive iface clk packet st)) ≤ MAX_PENDING_ACKS)%nat)
      as [? ?].
    { destruct Hacks' as [-> | (k & _ & ->)]; [done|].
      split; [by apply dict_del_wf|].
      pose proof (length_dict_del_le k (pending_acks st)). lia. }
    split_and!; [done | done | by apply Hq' |].
    intros k name Hk. apply on_receive_cache_new in Hk as [Hk|]; [|done].
    by apply (Hcache k).
  - unfold sender_thread_round. destruct (send_queue st) as [|t q] eqn:Hqueue.
    { cbn [fst]. rewrite Hqueue. split_and!; [done | done | cbn; lia | done]. }
    assert (length q ≤ SEND_QUEUE_MAXSIZE)%nat as Hq' by (cbn [length] in Hq; lia).
    destruct stop; cbn [fst].
    { cbn. split_and!; done. }
    destruct (sender_thread_task_frame clk t result (set_send_queue q st))
      as (-> & -> & _ & _).
    destruct (sender_thread_task_bound clk t result (set_send_queue q st)) as [? ?];
      [done|].
    split_and!; done.
  - destruct (ack_watcher_round_frame clk st) as (-> & -> & -> & _).
    split_and!; [by apply sweepExpired_wf | | done | done].
    pose proof (sweepExpired_length (time clk) ACK_TIMEOUT (pending_acks st) Hwf). lia.
  - cbn. split_and!; [done | done | done |].
    intros k name. destruct nid as [nid|]; cbn; [|by apply Hcache].
    intros Hk. apply lookup_delete_Some in Hk as [_ Hk]. by apply (Hcache k).
Qed.

Lemma handle_all_keeps events st :
  dict_wf (pending_acks st)
  ∧ (length (pending_acks st) ≤ MAX_PENDING_ACKS)%nat
  ∧ (length (send_queue st) ≤ SEND_QUEUE_MAXSIZE)%nat
  ∧ (∀ k name, name_cache st !! k = Some name → name ≠ []) →
  dict_wf (pending_acks (handle_all events st))
  ∧ (length (pending_acks (handle_all events st)) ≤ MAX_PENDING_ACKS)%nat
  ∧ (length (send_queue (handle_all events st)) ≤ SEND_QUEUE_MAXSIZE)%nat
  ∧ (∀ k name, name_cache (handle_all events st) !! k = Some name → name ≠ []).
Proof.
  revert st. induction events as [|ev events IH]; intros st Hst; [done|].
  apply IH. by apply handle_keeps.
Qed.
End Invariant.

(** X13. Whatever is typed, received, sent, swept or updated, in any
    order and any number of times from the start of the program, the
    registry never holds more than 100 requests and holds each once,
    the send queue never holds more than 30 tasks, and no cached name
    is the empty string. *)
Theorem bounds_hold_forever :
  ∀ (U : Unicode) events,
    let st := handle_all events empty_state in
    dict_wf (pending_acks st)
    ∧ (length (pending_acks st) ≤ MAX_PENDING_ACKS)%nat
    ∧ (length (send_queue st) ≤ SEND_QUEUE_MAXSIZE)%nat
    ∧ (∀ k name, name_cache st !! k = Some name → name ≠ []).
Proof.
  intros U events. apply handle_all_keeps. cbn. split_and!.
  - apply NoDup_nil_2.
  - lia.
  - lia.
  - intros k name Hk. by rewrite lookup_empty in Hk.
Qed.

(** ** The concurrent calls return *)

Lemma sched_step_inv i w w' :
  sched_step i w = Some w' →
  ∃ t lock' acks' t',
    w_threads w !! i = Some t
    ∧ thread_step (w_lock w) (w_acks w) t = Some (lock', acks', t')
    ∧ w' = {| w_lock := lock'; w_acks := acks';
              w_threads := <[i := t']> (w_threads w) |}.
Proof.
  unfold sched_step. destruct (w_threads w !! i) as [t|] eqn:Hi; [|done].
  destruct (thread_step _ _ t) as [[[lock' acks'] t']|] eqn:Hts; [|done].
  intros [= <-]. exists t, lock', acks', t'. split_and!; reflexivity || assumption.
Qed.

(** A thread inside its block can always move, and one outside can
    move when the lock is free. *)
Lemma thread_step_enabled lock (acks : registry) t :
  finished t = false → (holds_lock t = true ∨ lock = false) →
  is_Some (thread_step lock acks t).
Proof.
  intros Hfin Hcan. destruct t as [k|k|k e|k e|now|now|now items expired|expired].
  - simpl in *. destruct Hcan as [?| ->]; [done | by eexists].
  - simpl. destruct (complete k acks). by eexists.
  - by eexists.
  - done.
  - simpl in *. destruct Hcan as [?| ->]; [done | by eexists].
  - by eexists.
  - simpl. destruct items as [|[rid [t0 dest]] rest]; [by eexists|].
    destruct (decide (now - t0 > ACK_TIMEOUT)); by eexists.
  - done.
Qed.

Lemma lock_owned_step i w w' : lock_owned w → sched_step i w = Some w' → lock_owned w'.
Proof.
  intros Hown Hstep.
  apply sched_step_inv in Hstep as (t & lock' & acks' & t' & Hi & Hts & ->).
  unfold lock_owned. cbn [w_lock w_threads]. intros Hlock.
  assert (holds_lock t' = true) as Hh.
  { destruct t as [k|k|k e|k e|now|now|now items expired|expired]; simpl in Hts.
    - destruct (w_lock w); [done|]. by injection Hts as <- <- <-.
    - by injection Hts as <- <- <-.
    - injection Hts as <- <- <-. done.
    - done.
    - destruct (w_lock w); [done|]. by injection Hts as <- <- <-.
    - by injection Hts as <- <- <-.
    - destruct items as [|[rid [t0 dest]] rest].
      + injection Hts as <- <- <-. done.
      + destruct (decide (now - t0 > ACK_TIMEOUT)); by injection Hts as <- <- <-.
    - done. }
  exists i, t'. split; [|done].
  apply list_lookup_insert_eq. by eapply lookup_lt_Some.
Qed.

Lemma lock_owned_reachable w w' : lock_owned w → rtc step w w' → lock_owned w'.
Proof.
  intros Hown Hsteps. induction Hsteps as [|w1 w2 w3 Hstep _ IH]; [done|].
  apply IH. destruct Hstep as [i w1 w2 Hstep]. by apply (lock_owned_step i w1).
Qed.

Lemma no_deadlock w i t :
  lock_owned w → w_threads w !! i = Some t → finished t = false →
  ∃ j w', sched_step j w = Some w'.
Proof.
  intros Hown Hi Hfin.
  assert (∀ j tj, w_threads w !! j = Some tj → finished tj = false →
                  (holds_lock tj = true ∨ w_lock w = false) →
                  ∃ w', sched_step j w = Some w') as Hgo.
  { intros j tj Hj Hfj Hcan. unfold sched_step. rewrite Hj.
    destruct (thread_step_enabled (w_lock w) (w_acks w) tj Hfj Hcan) as [[[l a] t'] ->].
    eauto. }
  destruct (w_lock w) eqn:Hlock.
  - destruct (Hown Hlock) as (j & tj & Hj & Hh). exists j.
    apply (Hgo j tj Hj); [by destruct tj | by left].
  - exists i. apply (Hgo i t Hi Hfin). by right.
Qed.

(** The measure of what is left to do. *)
Lemma sum_list_insert (f : thread → nat) (l : list thread) i t t' :
  l !! i = Some t →
  (sum_list (f <$> <[i := t']> l) + f t = sum_list (f <$> l) + f t')%nat.
Proof.
  revert i. induction l as [|x l IH]; intros [|i] Hi; try done.
  - injection Hi as ->. csimpl. lia.
  - csimpl in *. specialize (IH i Hi). lia.
Qed.

Lemma sched_step_measure bound i w w' :
  (length (w_acks w) ≤ bound)%nat →
  sched_step i w = Some w' →
  (length (w_acks w') ≤ bound)%nat
  ∧ (sum_list (steps_left bound <$> w_threads w')
     < sum_list (steps_left bound <$> w_threads w))%nat.
Proof.
  intros Hb Hstep.
  apply sched_step_inv in Hstep as (t & lock' & acks' & t' & Hi & Hts & ->).
  cbn [w_acks w_threads].
  pose proof (sum_list_insert (steps_left bound) (w_threads w) i t t' Hi) as Hsum.
  assert ((length acks' ≤ bound)%nat ∧ (steps_left bound t' < steps_left bound t)%nat)
    as [? ?]; [|split; [done | lia]].
  destruct t as [k|k|k e|k e|now|now|now items expired|expired]; simpl in Hts.
  - destruct (w_lock w); [done|]. injection Hts as <- <- <-. simpl. split; [done | lia].
  - injection Hts as <- <- <-. simpl. split; [|lia].
    pose proof (length_dict_del_le k (w_acks w)). lia.
  - injection Hts as <- <- <-. simpl. split; [done | lia].
  - done.
  - destruct (w_lock w); [done|]. injection Hts as <- <- <-. simpl. split; [done | lia].
  - injection Hts as <- <- <-. simpl. split; [done | lia].
  - destruct items as [|[rid [t0 dest]] rest].
    + injection Hts as <- <- <-. simpl. split; [done | lia].
    + destruct (decide (now - t0 > ACK_TIMEOUT)); injection Hts as <- <- <-; simpl.
      * split; [|lia]. pose proof (length_dict_del_le rid (w_acks w)). lia.
      * split; [done | lia].
  - done.
Qed.

Lemma nsteps_measure bound n w w' :
  (length (w_acks w) ≤ bound)%nat →
  nsteps step n w w' →
  (n + sum_list (steps_left bound <$> w_threads w')
   ≤ sum_list (steps_left bound <$> w_threads w))%nat.
Proof.
  intros Hb Hsteps. induction Hsteps as [|n w1 w2 w3 Hstep _ IH]; [simpl; lia|].
  destruct Hstep as [i w1 w2 Hstep].
  destruct (sched_step_measure bound i w1 w2 Hb Hstep) as [Hb' Hlt].
  specialize (IH Hb'). lia.
Qed.

Lemma initial_measure bound threads :
  Forall (λ t, is_call t = true) threads →
  (sum_list (steps_left bound <$> threads) ≤ length threads * (3 + bound))%nat.
Proof.
  induction 1 as [|t threads Ht _ IH]; [simpl; lia|].
  cbn [fmap list_fmap sum_list length]. destruct t; try done; simpl; lia.
Qed.

(** X14. The concurrent calls always return.  However [complete] and
    sweep calls interleave, as long as one of them has not returned
    some thread can take a step, so the lock never leaves them stuck;
    no interleaving is longer than 3 steps per call plus the size of
    the registry for each sweep; and once no thread can move every call
    has returned. *)
Theorem calls_always_return :
  ∀ (acks : registry) threads,
    Forall (λ t, is_call t = true) threads →
    let start := {| w_lock := false; w_acks := acks; w_threads := threads |} in
    (∀ w i t,
       rtc step start w → w_threads w !! i = Some t → finished t = false →
       ∃ j w', sched_step j w = Some w')
    ∧ (∀ n w, nsteps step n start w →
              (n ≤ length threads * (3 + length acks))%nat)
    ∧ (∀ w, rtc step start w → (∀ j, sched_step j w = None) →
            ∀ i t, w_threads w !! i = Some t → finished t = true).
Proof.
  intros acks threads Hcalls start.
  assert (lock_owned start) as Hown by (intros Hlock; discriminate Hlock).
  assert (∀ n w, nsteps step n start w →
                 (n + sum_list (steps_left (length acks) <$> w_threads w)
                  ≤ length threads * (3 + length acks))%nat) as Hmeasure.
  { intros n w Hsteps.
    pose proof (nsteps_measure (length acks) n start w (le_n _) Hsteps) as Hm.
    pose proof (initial_measure (length acks) threads Hcalls). cbn in Hm. lia. }
  split_and!.
  - intros w i t Hreach Hi Hfin.
    apply (no_deadlock w i t); [|done|done]. by apply (lock_owned_reachable start).
  - intros n w Hsteps. specialize (Hmeasure n w Hsteps). lia.
  - intros w Hreach Hstuck i t Hi. destruct (finished t) eqn:Hfin; [done|].
    destruct (no_deadlock w i t) as (j & w' & Hstep); [|done|done|].
    + by apply (lock_owned_reachable start).
    + by rewrite Hstuck in Hstep.
Qed.

Lemma calls_always_return_witness :
  ∃ j w', sched_step j (run [1; 1; 0; 1]%nat race_start) = Some w'.
Proof.
  apply (proj1 (calls_always_return [(1, (0, None)); (2, (100, Some 5))]
                  [CompleteCall 1; SweepCall 50] ltac:(repeat constructor))
           (run [1; 1; 0; 1]%nat race_start) 0%nat (CompleteCall 1)).
  - apply run_reachable.
  - vm_compute. reflexivity.
  - reflexivity.
Defined.

(** ** Completion of node names *)

(** The order of strings. *)
Lemma str_lt_irrefl a : str_lt a a = false.
Proof.
  induction a as [|x a IH]; [done|]. simpl.
  rewrite Z.ltb_irrefl, Z.eqb_refl, IH. done.
Qed.

Lemma str_lt_trans a b c : str_lt a b = true → str_lt b c = true → str_lt a c = true.
Proof.
  revert b c. induction a as [|x a IH]; intros [|y b] [|z c]; simpl; try done.
  rewrite !orb_true_iff, !andb_true_iff, !Z.ltb_lt, !Z.eqb_eq.
  intros [Hxy | [-> Hab]] [Hyz | [-> Hbc]].
  - left. lia.
  - by left.
  - by left.
  - right. split; [done|]. by apply (IH b c).
Qed.

Lemma str_lt_total a b : str_lt a b = false → str_lt b a = false → a = b.
Proof.
  revert b. induction a as [|x a IH]; intros [|y b]; simpl; try done.
  rewrite !orb_false_iff, !andb_false_iff, !Z.ltb_ge, !Z.eqb_neq.
  intros [Hxy Hab] [Hyx Hba].
  assert (x = y) as -> by lia.
  f_equal. apply IH.
  - by destruct Hab.
  - by destruct Hba.
Qed.

Lemma str_lt_at a b : str_lt (str_lit "@" ++ a) (str_lit "@" ++ b) = str_lt a b.
Proof. reflexivity. Qed.

Lemma set_insert_elem x y l : y ∈ set_insert x l ↔ y = x ∨ y ∈ l.
Proof.
  induction l as [|z l IH]; simpl.
  - rewrite list_elem_of_singleton, elem_of_nil. tauto.
  - destruct (str_lt x z) eqn:Hxz.
    + rewrite !elem_of_cons. tauto.
    + destruct (str_lt z x) eqn:Hzx.
      * rewrite !elem_of_cons, IH. tauto.
      * rewrite (str_lt_total x z Hxz Hzx). rewrite elem_of_cons. tauto.
Qed.

Lemma set_insert_sorted x l :
  StronglySorted str_before l → StronglySorted str_before (set_insert x l).
Proof.
  induction 1 as [|z l Hsorted IH Hall]; simpl.
  - repeat constructor.
  - destruct (str_lt x z) eqn:Hxz.
    + constructor; [by constructor|]. constructor; [done|].
      eapply Forall_impl; [exact Hall|]. intros y Hzy.
      by apply (str_lt_trans x z y).
    + destruct (str_lt z x) eqn:Hzx; [|by constructor].
      constructor; [done|]. apply Forall_forall. intros y Hy.
      apply set_insert_elem in Hy as [->|Hy]; [done|].
      rewrite Forall_forall in Hall. by apply Hall.
Qed.

Lemma sorted_set_elem y names : y ∈ sorted_set names ↔ y ∈ names.
Proof.
  unfold sorted_set. induction names as [|x names IH]; simpl; [done|].
  rewrite set_insert_elem, elem_of_cons, IH. tauto.
Qed.

Lemma sorted_set_sorted names : StronglySorted str_before (sorted_set names).
Proof.
  unfold sorted_set. induction names as [|x names IH]; simpl; [constructor|].
  by apply set_insert_sorted.
Qed.

Lemma strictly_sorted_NoDup l : StronglySorted str_before l → NoDup l.
Proof.
  induction 1 as [|x l _ IH Hall]; constructor; [|done].
  intros Hin. rewrite Forall_forall in Hall. specialize (Hall x Hin).
  unfold str_before in Hall. by rewrite str_lt_irrefl in Hall.
Qed.

(** A set of strings has one sorted list. *)
Lemma strictly_sorted_unique l1 l2 :
  StronglySorted str_before l1 → StronglySorted str_before l2 →
  (∀ x, x ∈ l1 ↔ x ∈ l2) → l1 = l2.
Proof.
  intros H1. revert l2. induction H1 as [|x1 l1 Hs1 IH Hall1]; intros l2 H2 Hsame.
  - destruct l2 as [|x2 l2]; [done|]. exfalso.
    apply (not_elem_of_nil x2), Hsame, elem_of_cons. by left.
  - destruct H2 as [|x2 l2 Hs2 Hall2].
    { exfalso. apply (not_elem_of_nil x1), Hsame, elem_of_cons. by left. }
    rewrite Forall_forall in Hall1, Hall2.
    assert (x1 = x2) as <-.
    { assert (x1 ∈ x2 :: l2) as Hin1 by (apply Hsame, elem_of_cons; by left).
      assert (x2 ∈ x1 :: l1) as Hin2 by (apply Hsame, elem_of_cons; by left).
      apply elem_of_cons in Hin1 as [?|Hin1]; [done|].
      apply elem_of_cons in Hin2 as [?|Hin2]; [done|].
      pose proof (str_lt_trans _ _ _ (Hall1 _ Hin2) (Hall2 _ Hin1)) as Hcycle.
      by rewrite str_lt_irrefl in Hcycle. }
    f_equal. apply IH; [done|]. intros y. split; intros Hy.
    + assert (y ∈ x1 :: l2) as Hy' by (apply Hsame, elem_of_cons; by right).
      apply elem_of_cons in Hy' as [->|?]; [|done].
      specialize (Hall1 _ Hy). unfold str_before in Hall1. by rewrite str_lt_irrefl in Hall1.
    + assert (y ∈ x1 :: l1) as Hy' by (apply Hsame, elem_of_cons; by right).
      apply elem_of_cons in Hy' as [->|?]; [|done].
      specialize (Hall2 _ Hy). unfold str_before in Hall2. by rewrite str_lt_irrefl in Hall2.
Qed.

Lemma sorted_set_same names names' :
  (∀ x, x ∈ names ↔ x ∈ names') → sorted_set names = sorted_set names'.
Proof.
  intros Hsame. apply strictly_sorted_unique; try apply sorted_set_sorted.
  intros x. by rewrite !sorted_set_elem.
Qed.

Lemma StronglySorted_filter {A} (R : relation A) (P : A → Prop)
    `{!∀ x, Decision (P x)} l :
  StronglySorted R l → StronglySorted R (filter P l).
Proof.
  induction 1 as [|x l _ IH Hall]; [constructor|].
  rewrite filter_cons. destruct (decide (P x)); [|done].
  constructor; [done|]. rewrite Forall_forall in *.
  intros y Hy. apply list_elem_of_filter in Hy as [_ Hy]. by apply Hall.
Qed.

Lemma StronglySorted_at l :
  StronglySorted str_before l →
  StronglySorted str_before ((λ name, str_lit "@" ++ name) <$> l).
Proof.
  induction 1 as [|x l _ IH Hall]; [constructor|].
  rewrite fmap_cons. constructor; [done|].
  rewrite Forall_forall in *. intros y Hy.
  apply list_elem_of_fmap in Hy as (name & -> & Hname).
  unfold str_before. rewrite str_lt_at. by apply Hall.
Qed.


Lemma completion_names_elem snap (cache : gmap Z pystr) name :
  name ∈ completion_names snap cache
  ↔ (∃ nid nd, (nid, nd) ∈ snap ∧ short_name_of (Some nd) = Some name ∧ name ≠ [])
    ∨ (∃ k, cache !! k = Some name ∧ startswith (str_lit "!") name = false).
Proof.
  unfold completion_names. rewrite elem_of_app, list_elem_of_omap, list_elem_of_filter.
  split.
  - intros [([nid nd] & Hin & Hsome) | [Hbang Hin]].
    + left. exists nid, nd. cbn [snd] in Hsome.
      destruct (short_name_of (Some nd)) as [[|c s]|]; try done.
      injection Hsome as <-. done.
    + right. apply list_elem_of_fmap in Hin as ([k v] & -> & Hin).
      apply elem_of_map_to_list in Hin. eauto.
  - intros [(nid & nd & Hin & Hshort & Hne) | (k & Hk & Hbang)].
    + left. exists (nid, nd). split; [done|]. cbn [snd]. rewrite Hshort.
      by destruct name.
    + right. split; [done|].
      apply (list_elem_of_fmap_2 snd _ (k, name)). by apply elem_of_map_to_list.
Qed.


Lemma get_completions_words snap cache text :
  (get_completions snap cache text).*1
  = filter (λ word, startswith text word = true)
      ((λ name, str_lit "@" ++ name) <$> sorted_set (completion_names snap cache)).
Proof.
  unfold get_completions. cbv zeta. rewrite <- list_fmap_compose.
  induction (filter _ _) as [|w l IH]; [done|]. csimpl. by rewrite IH.
Qed.

(** X15: the completer offers, with the start position minus the length
    of the text before the cursor, exactly the words "@name" that start
    with that text, for the non-empty short names of the directory and
    the cached names that do not start with "!"; each word is offered
    once, and the words come in increasing order. *)
Theorem completions_exact snap (cache : gmap Z pystr) text :
  (∀ word pos,
     (word, pos) ∈ get_completions snap cache text
     ↔ pos = - Z.of_nat (length text) ∧ startswith text word = true
       ∧ ∃ name, word = str_lit "@" ++ name
           ∧ ((∃ nid nd, (nid, nd) ∈ snap
                 ∧ short_name_of (Some nd) = Some name ∧ name ≠ [])
              ∨ (∃ k, cache !! k = Some name
                   ∧ startswith (str_lit "!") name = false)))
  ∧ NoDup (get_completions snap cache text).*1
  ∧ StronglySorted str_before (get_completions snap cache text).*1.
Proof.
  assert (StronglySorted str_before (get_completions snap cache text).*1) as Hsorted.
  { rewrite get_completions_words.
    apply StronglySorted_filter, StronglySorted_at, sorted_set_sorted. }
  split; [|split; [by apply strictly_sorted_NoDup|done]].
  intros word pos. unfold get_completions. cbv zeta.
  rewrite list_elem_of_fmap. split.
  - intros (w & [= -> ->] & Hw). apply list_elem_of_filter in Hw as [Hstart Hw].
    apply list_elem_of_fmap in Hw as (name & -> & Hname).
    apply sorted_set_elem, completion_names_elem in Hname.
    split; [done|]. split; [done|]. by exists name.
  - intros (-> & Hstart & name & -> & Hname). exists (str_lit "@" ++ name).
    split; [done|]. apply list_elem_of_filter. split; [done|].
    apply list_elem_of_fmap. exists name. split; [done|].
    by apply sorted_set_elem, completion_names_elem.
Qed.

(** X16: the completions do not depend on the order in which the
    directory is enumerated, nor on how often a name occurs in it: two
    snapshots with the same entries give the same completions. *)
Theorem completions_order_free snap snap' (cache : gmap Z pystr) text :
  (∀ item, item ∈ snap ↔ item ∈ snap') →
  get_completions snap cache text = get_completions snap' cache text.
Proof.
  intros Hsame. unfold get_completions. cbv zeta.
  rewrite (sorted_set_same (completion_names snap cache) (completion_names snap' cache)); [done|].
  intros name. rewrite !completion_names_elem.
  split; (intros [(nid & nd & Hin & Hrest) | Hcache]; [left|by right]);
    exists nid, nd; (split; [by apply Hsame|done]).
Qed.

Lemma completions_exact_witness :
  (str_lit "@RVR", -2) ∈ get_completions sample_snapshot ∅ (str_lit "@R").
Proof.
  apply (proj1 (completions_exact sample_snapshot ∅ (str_lit "@R"))).
  split; [reflexivity|]. split; [reflexivity|].
  exists (str_lit "RVR"). split; [reflexivity|]. left.
  eexists _, _. split; [apply list_elem_of_singleton; reflexivity|].
  split; [reflexivity|done].
Defined.

Lemma completions_order_free_witness :
  get_completions (sample_snapshot ++ sample_snapshot) ∅ (str_lit "@")
  = get_completions sample_snapshot ∅ (str_lit "@").
Proof.
  apply completions_order_free.
  intros item. rewrite elem_of_app. tauto.
Defined.
